(** * A neural network for MNIST in JavaScript: model and properties

    The development embeds [utils.js] (activation functions, loss, layer
    propagation, weight initialisation), the sample loader [readMNIST] of
    [images.js] and the training script ([loadWeights], [run], [main] and
    its progress reports) and proves properties of the numerical core, of
    the loader and of the training loop.

    Numbers.  A JavaScript number is an IEEE-754 double.  The model keeps
    the special values (the two infinities and NaN) and takes every other
    value as an exact real: finite arithmetic neither rounds nor overflows,
    and zero carries no sign.  Reading an array outside its bounds yields
    [undefined], which arithmetic converts to NaN; reading a property of
    [undefined] throws a [TypeError].

    Properties that rest on the exactness of the arithmetic say so.  To
    show where rounding and overflow break an identity of exact
    arithmetic, [forwardLayer] and [softmax] are embedded a second time,
    in [Module Double], on the binary64 numbers of the kernel, whose
    [+], [-], [*] and [/] round as JavaScript's do. *)

From Stdlib Require Import PrimFloat.
From Stdlib Require Import Reals Lra Lia ZArith List.
From Stdlib Require Import Strings.Byte.
From stdpp Require Import list.

(** ** Numbers *)

Inductive number : Type :=
| Finite (r : R)
| PosInfinity
| NegInfinity
| NaN.

Definition Rltb (x y : R) : bool := if Rlt_dec x y then true else false.
Definition Reqb (x y : R) : bool := if Req_dec_T x y then true else false.

(** The infinity that a finite, non-zero factor or numerator [r] selects;
    [0 * Infinity] and [0 / 0] are NaN. *)
Definition signed_infinity (r : R) : number :=
  if Rltb 0 r then PosInfinity
  else if Rltb r 0 then NegInfinity
  else NaN.

Module Num.

Definition add (a b : number) : number :=
  match a, b with
  | NaN, _ | _, NaN => NaN
  | Finite x, Finite y => Finite (x + y)
  | PosInfinity, NegInfinity | NegInfinity, PosInfinity => NaN
  | PosInfinity, _ | _, PosInfinity => PosInfinity
  | NegInfinity, _ | _, NegInfinity => NegInfinity
  end.

Definition sub (a b : number) : number :=
  match a, b with
  | NaN, _ | _, NaN => NaN
  | Finite x, Finite y => Finite (x - y)
  | PosInfinity, PosInfinity | NegInfinity, NegInfinity => NaN
  | PosInfinity, _ | _, NegInfinity => PosInfinity
  | NegInfinity, _ | _, PosInfinity => NegInfinity
  end.

Definition mul (a b : number) : number :=
  match a, b with
  | NaN, _ | _, NaN => NaN
  | Finite x, Finite y => Finite (x * y)
  | Finite x, PosInfinity | PosInfinity, Finite x => signed_infinity x
  | Finite x, NegInfinity | NegInfinity, Finite x => signed_infinity (- x)
  | PosInfinity, PosInfinity | NegInfinity, NegInfinity => PosInfinity
  | PosInfinity, NegInfinity | NegInfinity, PosInfinity => NegInfinity
  end.

Definition div (a b : number) : number :=
  match a, b with
  | NaN, _ | _, NaN => NaN
  | Finite x, Finite y =>
      if Reqb y 0 then signed_infinity x else Finite (x / y)
  | Finite _, _ => Finite 0
  | PosInfinity, Finite y => if Rltb y 0 then NegInfinity else PosInfinity
  | NegInfinity, Finite y => if Rltb y 0 then PosInfinity else NegInfinity
  | _, _ => NaN
  end.

(** [a > b] *)
Definition gt (a b : number) : bool :=
  match a, b with
  | NaN, _ | _, NaN => false
  | Finite x, Finite y => Rltb y x
  | PosInfinity, PosInfinity => false
  | PosInfinity, _ => true
  | _, PosInfinity => false
  | NegInfinity, _ => false
  | Finite _, NegInfinity => true
  end.

(** [a === b] on numbers: NaN is equal to nothing. *)
Definition strict_eq (a b : number) : bool :=
  match a, b with
  | Finite x, Finite y => Reqb x y
  | PosInfinity, PosInfinity | NegInfinity, NegInfinity => true
  | _, _ => false
  end.

(** [Math.max(a, b)] *)
Definition max2 (a b : number) : number :=
  match a, b with
  | NaN, _ | _, NaN => NaN
  | Finite x, Finite y => Finite (Rmax x y)
  | PosInfinity, _ | _, PosInfinity => PosInfinity
  | NegInfinity, c | c, NegInfinity => c
  end.

(** [Math.max(...arr)]: [-Infinity] for no argument, NaN as soon as one
    argument is NaN. *)
Definition max (arr : list number) : number := foldl max2 NegInfinity arr.

Definition exp (a : number) : number :=
  match a with
  | Finite x => Finite (Rtrigo_def.exp x)
  | PosInfinity => PosInfinity
  | NegInfinity => Finite 0
  | NaN => NaN
  end.

Definition log (a : number) : number :=
  match a with
  | Finite x =>
      if Rltb 0 x then Finite (ln x)
      else if Reqb x 0 then NegInfinity else NaN
  | PosInfinity => PosInfinity
  | NegInfinity | NaN => NaN
  end.

Definition sqrt (a : number) : number :=
  match a with
  | Finite x => if Rltb x 0 then NaN else Finite (R_sqrt.sqrt x)
  | PosInfinity => PosInfinity
  | NegInfinity | NaN => NaN
  end.

Definition cos (a : number) : number :=
  match a with
  | Finite x => Finite (Rtrigo_def.cos x)
  | _ => NaN
  end.

Definition of_nat (n : nat) : number := Finite (INR n).

End Num.

Declare Scope js_scope.
Delimit Scope js_scope with js.
Bind Scope js_scope with number.
Infix "+" := Num.add : js_scope.
Infix "-" := Num.sub : js_scope.
Infix "*" := Num.mul : js_scope.
Infix "/" := Num.div : js_scope.
Infix ">" := Num.gt : js_scope.

(** ** Arrays and errors *)

Abbreviation matrix := (list (list number)).

(** The weight object [{0: ..., 1: ..., 2: ...}], addressed by layer. *)
Abbreviation weights := (list (list (list number))).

Inductive exn : Type := TypeError | SyntaxError.

Inductive result (A : Type) : Type :=
| Ok (a : A)
| Throw (e : exn).
Arguments Ok {A} a.
Arguments Throw {A} e.

(** Sequencing stops at the first exception; [x ← m; k] is stdpp's
    notation for it. *)
#[export] Instance result_bind : MBind result := fun A B f m =>
  match m with
  | Ok a => f a
  | Throw e => Throw e
  end.

(** [undefined] in an arithmetic position. *)
Definition toNumber (v : option number) : number :=
  match v with
  | Some a => a
  | None => NaN
  end.

(** [arr[i]] read as a number. *)
Definition get (arr : list number) (i : nat) : number := toNumber (arr !! i).

(** [arr[i]] read as an object whose properties are then accessed. *)
Definition array_get {A} (arr : list A) (i : nat) : result A :=
  match arr !! i with
  | Some a => Ok a
  | None => Throw TypeError
  end.

(** [arr[i] = v].  Past the end the array grows; the holes this leaves read
    as [undefined], and since every read of this program is arithmetic they
    are kept as NaN. *)
Definition store (arr : list number) (i : nat) (v : number) : list number :=
  if decide (i < length arr) then <[i := v]> arr
  else arr ++ replicate (i - length arr) NaN ++ [v].

(** [for (let i = start; i < start + count; i++) body], threading the
    state and stopping at the first exception. *)
Fixpoint for_from {St : Type} (start count : nat)
    (body : nat -> St -> result St) (s : St) : result St :=
  match count with
  | O => Ok s
  | S count' => s' ← body start s; for_from (S start) count' body s'
  end.

Definition for_loop {St : Type} (n : nat) (body : nat -> St -> result St)
    (s : St) : result St :=
  for_from 0 n body s.

(** [arr.forEach(body)] with the state the callback mutates. *)
Fixpoint forEach {A St : Type} (arr : list A)
    (body : A -> St -> result St) (s : St) : result St :=
  match arr with
  | [] => Ok s
  | a :: arr' => s' ← body a s; forEach arr' body s'
  end.

(** ** utils.js *)

Definition relu (x : number) : number := Num.max [Finite 0; x].

(** [exps.reduce((a, b) => a + b)] has no initial value and throws on an
    empty array. *)
Definition reduce_add (arr : list number) : result number :=
  match arr with
  | [] => Throw TypeError
  | a :: rest => Ok (foldl Num.add a rest)
  end.

Definition softmax (arr : list number) : result (list number) :=
  let max := Num.max arr in
  let exps := fmap (fun x => Num.exp (x - max)%js) arr in
  sum ← reduce_add exps;
  Ok (fmap (fun x => x / sum)%js exps).

Definition crossEntropyLoss (output target : list number) : number :=
  let numberOfClasses := length output in
  foldl (fun (loss : number) (i : nat) =>
           let targetProbability := get target i in
           let predictedProbability := get output i in
           if (predictedProbability > Finite 0)%js
           then (loss - targetProbability * Num.log predictedProbability)%js
           else loss)
        (Finite 0) (seq 0 numberOfClasses).

Definition forwardLayer (inputActivations : list number)
    (layerWeights : matrix) : list number :=
  let numInputFeatures := length inputActivations in
  fmap (fun neuron =>
         foldl (fun (weightedSum : number) (inputIndex : nat) =>
                  let inputValue := get inputActivations inputIndex in
                  let weight := get neuron inputIndex in
                  (weightedSum + inputValue * weight)%js)
               (Finite 0) (seq 0 numInputFeatures))
      layerWeights.

(** [Math.random()] is a stream of draws; the state is the number of draws
    made so far. *)
Definition initializeWeights (random : nat -> number)
    (numInputs numNeurons : nat) (drawn : nat) : matrix * nat :=
  let std := Num.sqrt (Finite 2 / Num.of_nat numInputs)%js in
  foldl (fun '(weights, drawn) (i : nat) =>
           let '(row, drawn) :=
             foldl (fun '(row, drawn) (j : nat) =>
                      let u1 := random drawn in
                      let u2 := random (S drawn) in
                      let z := (Num.sqrt (Finite (-2) * Num.log u1)
                                * Num.cos (Finite 2 * Finite PI * u2))%js in
                      (row ++ [(z * std)%js], S (S drawn)))
                   ([], drawn) (seq 0 numInputs) in
           (weights ++ [row], drawn))
        ([], drawn) (seq 0 numNeurons).

Definition createZeroMatrix (rows cols : nat) : matrix :=
  foldl (fun matrix (i : nat) => matrix ++ [replicate cols (Finite 0)])
        [] (seq 0 rows).

(** ** images.js *)

(** The two dataset files as [fs.readFileSync] finds them: [None] when the
    file is missing or unreadable and the call throws. *)
Record files : Type := {
  train_images : option (list byte);
  train_labels : option (list byte)
}.

Record sample : Type := {
  index : Z;
  label : option nat;
  pixels : list number
}.

(** [buffer[k]]: a byte, or [undefined] outside the buffer. *)
Definition buffer_get (buffer : list byte) (k : Z) : option nat :=
  if (k <? 0)%Z then None else Byte.to_nat <$> buffer !! Z.to_nat k.

Definition readMNIST (fs : files) (start end_ : Z) : list sample :=
  match train_images fs, train_labels fs with
  | Some dataFileBuffer, Some labelFileBuffer =>
      fmap (fun image : Z =>
             let pixels :=
               y ← seq 0 28;
               x ← seq 0 28;
               let k := (image * 28 * 28
                         + (Z.of_nat x + Z.of_nat y * 28) + 16)%Z in
               [(toNumber (Num.of_nat <$> buffer_get dataFileBuffer k)
                 / Finite 255)%js] in
             {| index := image;
                label := buffer_get labelFileBuffer (image + 8);
                pixels := pixels |})
          (seqZ start (Z.min end_ 60000 - start))
  | _, _ => []
  end.

(** ** The training script *)

(** 0.01 *)
Definition learningRate : number := Finite (1 / 100).

(** 0.1307 and 0.3081 *)
Definition PIXEL_MEAN : number := Finite (1307 / 10000).
Definition PIXEL_STD : number := Finite (3081 / 10000).

Definition normalizePixels (pixels : list number) : list number :=
  fmap (fun pixel => ((pixel - PIXEL_MEAN) / PIXEL_STD)%js) pixels.

(** [w_json] is the file [./w.json]: [None] when it does not exist,
    otherwise what [JSON.parse] makes of its content, a [SyntaxError] or
    the parsed document. *)
Definition loadWeights (w_json : option (result weights))
    (random : nat -> number) : result weights :=
  match w_json with
  | Some parsed => parsed
  | None =>
      let '(layer0, drawn) := initializeWeights random 784 16 0 in
      let '(layer1, drawn) := initializeWeights random 16 16 drawn in
      let '(layer2, drawn) := initializeWeights random 16 10 drawn in
      Ok [layer0; layer1; layer2]
  end.

(** What the callback of [images.forEach] mutates: [weightGradients],
    [totalLoss] and [correctPredictions]. *)
Record batch : Type := {
  gradients : weights;
  lossSum : number;
  correct : nat
}.

Record metrics : Type := {
  loss : number;
  accuracy : number
}.

(** [new Array(10).fill(0)] followed by [target[image.label] = 1].  With an
    [undefined] label the assignment sets a property and no element. *)
Definition oneHot (label : option nat) : list number :=
  let target := replicate 10 (Finite 0) in
  match label with
  | Some l => store target l (Finite 1)
  | None => target
  end.

(** [arr.indexOf(v)], counting from [i]. *)
Fixpoint indexOf_from (arr : list number) (v : number) (i : Z) : Z :=
  match arr with
  | [] => (-1)%Z
  | a :: arr' =>
      if Num.strict_eq a v then i else indexOf_from arr' v (i + 1)%Z
  end.

Definition indexOf (arr : list number) (v : number) : Z :=
  indexOf_from arr v 0%Z.

(** [predictedLabel === image.label] *)
Definition same_label (predictedLabel : Z) (label : option nat) : bool :=
  match label with
  | Some l => (predictedLabel =? Z.of_nat l)%Z
  | None => false
  end.

(** [output.map((prob, i) => prob - target[i])] *)
Definition outputDelta (output target : list number) : list number :=
  imap (fun i prob => (prob - get target i)%js) output.

(** [da.map((grad, i) => z[i] > 0 ? grad : 0)] *)
Definition reluDerivative (da z : list number) : list number :=
  imap (fun i grad => if (get z i > Finite 0)%js then grad else Finite 0) da.

(** The loop [weightGradients[layer][i][j] += dz[i] * a[j]] over the
    entries of [w[layer]]. *)
Definition accumulate (layer : nat) (W : matrix) (dz a : list number)
    (weightGradients : weights) : result weights :=
  for_loop (length W) (fun i weightGradients =>
    Wi ← array_get W i;
    for_loop (length Wi) (fun j weightGradients =>
      Gl ← array_get weightGradients layer;
      Gli ← array_get Gl i;
      let Gli := store Gli j (get Gli j + get dz i * get a j)%js in
      Ok (<[layer := <[i := Gli]> Gl]> weightGradients))
    weightGradients)
  weightGradients.

(** [let da = new Array(n).fill(0)] and the loop
    [da[i] += w[layer][j][i] * dz[j]]. *)
Definition backpropagate (W : matrix) (dz : list number) (n : nat)
    : result (list number) :=
  for_loop n (fun i da =>
    for_loop (length dz) (fun j da =>
      Wj ← array_get W j;
      Ok (store da i (get da i + get Wj i * get dz j)%js))
    da)
  (replicate n (Finite 0)).

Definition processImage (w : weights) (image : sample) (st : batch)
    : result batch :=
  let target := oneHot (label image) in
  let normalizedPixels := normalizePixels (pixels image) in
  w0 ← array_get w 0;
  let z0 := forwardLayer normalizedPixels w0 in
  let a0 := relu <$> z0 in
  w1 ← array_get w 1;
  let z1 := forwardLayer a0 w1 in
  let a1 := relu <$> z1 in
  w2 ← array_get w 2;
  let z2 := forwardLayer a1 w2 in
  output ← softmax z2;
  let totalLoss := (lossSum st + crossEntropyLoss output target)%js in
  let predictedLabel := indexOf output (Num.max output) in
  let correctPredictions :=
    if same_label predictedLabel (label image)
    then S (correct st) else correct st in
  let dz2 := outputDelta output target in
  G ← accumulate 2 w2 dz2 a1 (gradients st);
  da1 ← backpropagate w2 dz2 (length a1);
  let dz1 := reluDerivative da1 z1 in
  G ← accumulate 1 w1 dz1 a0 G;
  da0 ← backpropagate w1 dz1 (length a0);
  let dz0 := reluDerivative da0 z0 in
  G ← accumulate 0 w0 dz0 normalizedPixels G;
  Ok {| gradients := G;
        lossSum := totalLoss;
        correct := correctPredictions |}.

(** The update loop of [run]; it never changes a length of [w], so the
    bounds are those found on entry. *)
Definition updateWeights (w weightGradients : weights) (batchSize : number)
    : result weights :=
  for_loop 3 (fun layer w =>
    Wl ← array_get w layer;
    for_loop (length Wl) (fun i w =>
      Wli ← array_get Wl i;
      for_loop (length Wli) (fun j w =>
        Gl ← array_get weightGradients layer;
        Gli ← array_get Gl i;
        let gradient := (get Gli j / batchSize)%js in
        Wl ← array_get w layer;
        Wli ← array_get Wl i;
        let Wli := store Wli j (get Wli j - learningRate * gradient)%js in
        Ok (<[layer := <[i := Wli]> Wl]> w))
      w)
    w)
  w.

(** [run] mutates [w] in place and returns the metrics; the model returns
    both.  The line printed on the console is left out. *)
Definition run (fs : files) (w : weights) (position : Z)
    : result (weights * metrics) :=
  let images := readMNIST fs (position * 10) (position * 10 + 10) in
  let weightGradients :=
    [createZeroMatrix 16 784; createZeroMatrix 16 16;
     createZeroMatrix 10 16] in
  st ← forEach images (processImage w)
         {| gradients := weightGradients;
            lossSum := Finite 0;
            correct := 0 |};
  let batchSize := Num.of_nat (length images) in
  w ← updateWeights w (gradients st) batchSize;
  let accuracy :=
    (Num.of_nat (correct st) / batchSize * Finite 100)%js in
  Ok (w, {| loss := (lossSum st / batchSize)%js; accuracy := accuracy |}).

(** [main]: load the weights, run [totalBatches] batches (1000 in the
    script) and hand the weights to [JSON.stringify]. *)
Definition main (fs : files) (w_json : option (result weights))
    (random : nat -> number) (totalBatches : nat) : result weights :=
  w ← loadWeights w_json random;
  for_loop totalBatches (fun i w =>
    '(w, _) ← run fs w (Z.of_nat i);
    Ok w) w.

(** ** utils.js on IEEE-754 doubles

    The numbers are the binary64 floating-point numbers, with one NaN;
    [+], [-], [*] and [/] are the correctly rounded operations (to nearest,
    ties to even), as ECMAScript defines them for Number.  [Math.exp] is
    fixed by ECMAScript at NaN, the zeros and the infinities only; at every
    other argument the value is "implementation-approximated", and the
    model leaves it undetermined ([None]). *)
Module Double.

(** [arr[i]] read as a number: [undefined] converts to NaN. *)
Definition get (arr : list float) (i : nat) : float := default nan (arr !! i).

(** [Math.max(a, b)]: NaN when an argument is NaN, and [+0] above [-0]. *)
Definition max2 (a b : float) : float :=
  if is_nan a || is_nan b then nan
  else if (a <? b)%float then b
  else if (b <? a)%float then a
  else if get_sign a then b else a.

(** [Math.max(...arr)] *)
Definition max (arr : list float) : float := foldl max2 neg_infinity arr.

(** [Math.exp(x)], where ECMAScript determines it. *)
Definition exp (x : float) : option float :=
  if is_nan x then Some nan
  else if is_zero x then Some 1%float
  else if (x =? infinity)%float then Some infinity
  else if (x =? neg_infinity)%float then Some 0%float
  else None.

(** [exps.reduce((a, b) => a + b)] *)
Definition reduce_add (arr : list float) : result float :=
  match arr with
  | [] => Throw TypeError
  | a :: rest => Ok (foldl PrimFloat.add a rest)
  end.

(** [None] when the result depends on a value of [Math.exp] that
    ECMAScript does not determine. *)
Definition softmax (arr : list float) : option (result (list float)) :=
  let max := max arr in
  exps ← mapM (fun x => exp (x - max)%float) arr;
  Some (sum ← reduce_add exps;
        Ok (fmap (fun x => x / sum)%float exps)).

Definition forwardLayer (inputActivations : list float)
    (layerWeights : list (list float)) : list float :=
  let numInputFeatures := length inputActivations in
  fmap (fun neuron =>
         foldl (fun (weightedSum : float) (inputIndex : nat) =>
                  let inputValue := get inputActivations inputIndex in
                  let weight := get neuron inputIndex in
                  (weightedSum + inputValue * weight)%float)
               0%float (seq 0 numInputFeatures))
      layerWeights.

(** [c] times a weight matrix, entry by entry. *)
Definition scaleWeights (c : float) (W : list (list float))
    : list (list float) :=
  fmap (fun row : list float => fmap (fun weight => (c * weight)%float) row)
       W.

End Double.

(** ** Definitions used to state the properties *)

(** A vector of finite numbers. *)
Definition finite_vector (rs : list R) : list number := Finite <$> rs.

Fixpoint Rsum (rs : list R) : R :=
  match rs with
  | [] => 0
  | r :: rs' => r + Rsum rs'
  end.

(** [Σ_{k < n} f k], added from [0] in the order of the index. *)
Definition sum_upto (n : nat) (f : nat -> number) : number :=
  foldl (fun acc k => (acc + f k)%js) (Finite 0) (seq 0 n).

(** The dot product of a weight row with the input, over the indices of
    the input. *)
Definition dot (input row : list number) : number :=
  sum_upto (length input) (fun k => (get input k * get row k)%js).

(** [c] times a weight matrix, entry by entry. *)
Definition scaleWeights (c : R) (W : matrix) : matrix :=
  fmap (fun row : list number =>
          fmap (fun weight => (Finite c * weight)%js) row) W.

(** The largest element of a non-empty list of reals. *)
Definition Rmaximum (rs : list R) : R :=
  match rs with
  | [] => 0
  | r :: rs' => foldl Rmax r rs'
  end.

(** Softmax as the specification words it, on reals: subtract the maximum
    logit, exponentiate, divide by the sum of the exponentials. *)
Definition softmax_spec (rs : list R) : list R :=
  let m := Rmaximum rs in
  let exps := fmap (fun x => exp (x - m)) rs in
  fmap (fun e => e / Rsum exps)%R exps.

(** Softmax without the subtraction of the maximum. *)
Definition softmax_naive (rs : list R) : list R :=
  fmap (fun x => exp x / Rsum (exp <$> rs))%R rs.

(** The one-hot vector of length [n] with its 1 at index [k]. *)
Definition one_hot (n k : nat) : list number :=
  <[k := Finite 1]> (replicate n (Finite 0)).

(** Row [i] of a matrix and row [i] of layer [layer], empty when absent. *)
Definition mrow (W : matrix) (i : nat) : list number := default [] (W !! i).

Definition wrow (w : weights) (layer i : nat) : list number :=
  mrow (default [] (w !! layer)) i.

(** Two weight objects have the same shape: as many layers, as many rows
    in each layer, as many entries in each row. *)
Definition mirrors (w G : weights) : Prop :=
  Forall2 (Forall2 (fun row grow : list number => length row = length grow))
          w G.

(** The gradient matrices at the start of a batch. *)
Definition zeroGradients : weights :=
  [createZeroMatrix 16 784; createZeroMatrix 16 16; createZeroMatrix 10 16].

(** Plain stochastic gradient descent on every entry:
    [w - learningRate * (gradient / batchSize)]. *)
Definition sgd (w G : weights) (batchSize : number) : weights :=
  imap (fun layer (Wl : matrix) =>
    imap (fun i (row : list number) =>
      imap (fun j x =>
        (x - learningRate * (get (wrow G layer i) j / batchSize))%js) row)
      Wl)
    w.

(** The per-sample contribution [dz[i] * a[j]] added to every entry of a
    gradient matrix. *)
Definition addOuter (dz a : list number) (Gl : matrix) : matrix :=
  imap (fun i (grow : list number) =>
          imap (fun j g => (g + get dz i * get a j)%js) grow) Gl.

(** A matrix of [rows] rows of [cols] entries each. *)
Definition has_shape (rows cols : nat) (W : matrix) : Prop :=
  length W = rows /\ Forall (fun row => length row = cols) W.

(** Weights of the shapes the layers expect: 16 x 784, 16 x 16, 10 x 16. *)
Definition well_shaped (w : weights) : Prop :=
  exists W0 W1 W2,
    w = [W0; W1; W2]
    /\ has_shape 16 784 W0 /\ has_shape 16 16 W1 /\ has_shape 10 16 W2.

(** A finite number of the interval [0, 1]. *)
Definition in_unit_interval (a : number) : Prop :=
  exists r, a = Finite r /\ (0 <= r <= 1)%R.

(** Fixed-point arithmetic for a bound on [exp]: a real [x] is bounded
    from below by [N / scale], and [squarings n] squares [n] times,
    rounding down. *)
Definition scale : Z := 2 ^ 80.

Fixpoint squarings (n : nat) (N : Z) : Z :=
  match n with
  | O => N
  | S n' => squarings n' (N * N / scale)
  end.

(** [w[layer][i][j]] *)
Definition entry (w : weights) (layer i j : nat) : option number :=
  Wl ← w !! layer; Wli ← Wl !! i; Wli !! j.

(** ** Definitions used to state the further properties *)

Definition is_finite (a : number) : Prop := exists r, a = Finite r.

(** The weight that [initializeWeights] makes of the draws [k] and [k + 1]:
    the Box-Muller transform, times the standard deviation. *)
Definition gaussianWeight (random : nat -> number) (std : number) (k : nat)
    : number :=
  (Num.sqrt (Finite (-2) * Num.log (random k))
   * Num.cos (Finite 2 * Finite PI * random (S k)) * std)%js.

(** Weights whose entries are all NaN, of the shape of [w]. *)
Definition allNaN (w : weights) : weights :=
  (fun Wl : matrix =>
     (fun row : list number => (fun _ => NaN) <$> row) <$> Wl) <$> w.

(** A computation that throws nothing but a [TypeError]. *)
Definition throws_only_TypeError {A} (m : result A) : Prop :=
  forall e, m = Throw e -> e = TypeError.

(** The number of rows of every layer. *)
Definition rowCounts (G : weights) : list nat := length <$> G.

(** Every entry of layer [layer] is NaN. *)
Definition layer_is_NaN (w : weights) (layer : nat) : Prop :=
  forall i j x, entry w layer i j = Some x -> x = NaN.

(** Every entry of the weights is a finite number. *)
Definition all_finite (w : weights) : Prop :=
  forall layer i j x, entry w layer i j = Some x -> is_finite x.

(** A sample of 784 finite pixels. *)
Definition finite_sample (image : sample) : Prop :=
  length (pixels image) = 784 /\ Forall is_finite (pixels image).

(** A finite number that is not negative. *)
Definition finite_nonneg (a : number) : Prop :=
  exists r, a = Finite r /\ (0 <= r)%R.



(** *** The progress reports of [main]

    [main] keeps the metrics of the batches since the last report in
    [recentMetrics] and prints a summary every [reportInterval] batches.
    The model returns the figures of the summaries, before [toFixed]
    formats them, in the order they are printed. *)

(** [Math.min(a, b)] *)
Definition min2 (a b : number) : number :=
  match a, b with
  | NaN, _ | _, NaN => NaN
  | Finite x, Finite y => Finite (Rmin x y)
  | NegInfinity, _ | _, NegInfinity => NegInfinity
  | PosInfinity, c | c, PosInfinity => c
  end.

(** [Math.min(...arr)]: [Infinity] for no argument. *)
Definition Math_min (arr : list number) : number := foldl min2 PosInfinity arr.

Definition reportInterval : nat := 10.

Record report : Type := {
  batchesDone : nat;
  progress : number;
  avgLoss : number;
  avgAccuracy : number;
  minLoss : number;
  maxLoss : number
}.

(** The figures computed when [(i + 1) % reportInterval === 0]. *)
Definition summarize (i totalBatches : nat) (recentMetrics : list metrics)
    : report :=
  {| batchesDone := i + 1;
     progress :=
       (Num.of_nat (i + 1) / Num.of_nat totalBatches * Finite 100)%js;
     avgLoss :=
       (foldl (fun a b => a + loss b) (Finite 0) recentMetrics
        / Num.of_nat (length recentMetrics))%js;
     avgAccuracy :=
       (foldl (fun a b => a + accuracy b) (Finite 0) recentMetrics
        / Num.of_nat (length recentMetrics))%js;
     minLoss := Math_min (loss <$> recentMetrics);
     maxLoss := Num.max (loss <$> recentMetrics) |}.

(** [main] with its reports: the state of the loop is [w],
    [recentMetrics] and what has been printed. *)
Definition mainWithReports (fs : files) (w_json : option (result weights))
    (random : nat -> number) (totalBatches : nat)
    : result (weights * list report) :=
  w ← loadWeights w_json random;
  '(w, _, console) ←
    for_loop totalBatches (fun i '(w, recentMetrics, console) =>
      '(w, metrics) ← run fs w (Z.of_nat i);
      let recentMetrics := recentMetrics ++ [metrics] in
      if (i + 1) mod reportInterval =? 0
      then Ok (w, [], console ++ [summarize i totalBatches recentMetrics])
      else Ok (w, recentMetrics, console))
    (w, [], []);
  Ok (w, console).

(** The metrics of the first [n] batches, in order, with the weights they
    end on. *)
Definition trainingMetrics (fs : files) (w : weights) (n : nat)
    : result (weights * list metrics) :=
  for_loop n (fun i '(w, ms) =>
    '(w, m) ← run fs w (Z.of_nat i);
    Ok (w, ms ++ [m]))
  (w, []).

(** The summaries of the consecutive blocks of [reportInterval] metrics;
    metrics after the last full block are left out. *)
Definition reportsOf (totalBatches : nat) (ms : list metrics) : list report :=
  (fun k =>
     summarize (reportInterval * k + 9) totalBatches
               (take reportInterval (drop (reportInterval * k) ms)))
  <$> seq 0 (totalBatches / reportInterval).

(** Two computations throw the same exception or return related values. *)
Definition result_rel {A B} (R : A -> B -> Prop) (m1 : result A)
    (m2 : result B) : Prop :=
  match m1, m2 with
  | Ok a, Ok b => R a b
  | Throw e1, Throw e2 => e1 = e2
  | _, _ => False
  end.

(** * Properties *)

(** ** Arithmetic of numbers *)

Lemma Rltb_true x y : (x < y)%R -> Rltb x y = true.
Proof.
  intros H. unfold Rltb.
  destruct (Rlt_dec x y); [reflexivity | contradiction].
Qed.

Lemma Rltb_false x y : (y <= x)%R -> Rltb x y = false.
Proof.
  intros H. unfold Rltb. destruct (Rlt_dec x y); [lra | reflexivity].
Qed.

Lemma Reqb_true x : Reqb x x = true.
Proof.
  unfold Reqb. destruct (Req_dec_T x x); [reflexivity | contradiction].
Qed.

Lemma Reqb_false x y : x <> y -> Reqb x y = false.
Proof.
  intros H. unfold Reqb.
  destruct (Req_dec_T x y); [contradiction | reflexivity].
Qed.

Lemma Finite_eq x y : x = y -> Finite x = Finite y.
Proof. congruence. Qed.

Ltac decide_reals :=
  unfold signed_infinity, Rltb, Reqb in *;
  repeat match goal with
         | |- context [Rlt_dec ?x ?y] => destruct (Rlt_dec x y)
         | |- context [Req_dec_T ?x ?y] => destruct (Req_dec_T x y)
         end;
  try reflexivity; try (exfalso; nra); try (apply Finite_eq; nra).

Lemma mul_finite_add (c : R) (a b : number) :
  (Finite c * (a + b) = Finite c * a + Finite c * b)%js.
Proof. destruct a, b; simpl; decide_reals. Qed.

Lemma mul_finite_swap (c : R) (x w : number) :
  (x * (Finite c * w) = Finite c * (x * w))%js.
Proof.
  destruct x as [x| | |], w as [w| | |]; simpl; try reflexivity;
    unfold signed_infinity, Rltb;
    repeat match goal with
           | |- context [Rlt_dec ?x ?y] => destruct (Rlt_dec x y); simpl
           end;
    try reflexivity; try (apply Finite_eq; nra);
    try (exfalso; first [nra | assert (w = 0%R) by lra; subst w; lra]).
Qed.

(** ** forwardLayer *)

Lemma get_scaled (c : R) (row : list number) (j : nat) :
  get (fmap (fun weight => (Finite c * weight)%js) row) j
  = (Finite c * get row j)%js.
Proof.
  unfold get. rewrite list_lookup_fmap.
  destruct (row !! j); reflexivity.
Qed.

Lemma forwardLayer_dot (x : list number) (W : matrix) :
  forwardLayer x W = fmap (dot x) W.
Proof. reflexivity. Qed.

Lemma dot_scaled (c : R) (x row : list number) :
  dot x (fmap (fun weight => (Finite c * weight)%js) row)
  = (Finite c * dot x row)%js.
Proof.
  unfold dot, sum_upto.
  replace (Finite 0) with (Finite c * Finite 0)%js at 1
    by (apply Finite_eq; ring).
  generalize (Finite 0) as acc. generalize (seq 0 (length x)) as ks.
  induction ks as [|k ks IH]; intros acc; cbn [foldl]; [reflexivity|].
  rewrite <- IH. f_equal.
  rewrite get_scaled, mul_finite_swap, mul_finite_add. reflexivity.
Qed.

(** C8, as the code has it.  In exact arithmetic [forwardLayer] is linear
    in its weight matrix: with finite numbers read as exact reals, whatever
    the input [x] and the weights [W], multiplying every weight by a finite
    scalar [c] multiplies every entry of the result by [c]; and each entry
    of the result is the dot product of the weight row with the input. *)
Theorem forwardLayer_linear_in_weights (x : list number) (W : matrix) (c : R) :
  forwardLayer x (scaleWeights c W)
  = fmap (fun z => (Finite c * z)%js) (forwardLayer x W)
  /\ forall i row, W !! i = Some row ->
       forwardLayer x W !! i = Some (dot x row)
       /\ forwardLayer x (scaleWeights c W) !! i
          = Some (Finite c * dot x row)%js.
Proof.
  assert (E : forwardLayer x (scaleWeights c W)
              = fmap (fun z => (Finite c * z)%js) (forwardLayer x W)).
  { rewrite !forwardLayer_dot. unfold scaleWeights.
    rewrite <- !list_fmap_compose. apply list_fmap_ext.
    intros ? row ?. apply dot_scaled. }
  split; [exact E|].
  intros i row Hrow. rewrite E, forwardLayer_dot.
  rewrite !list_lookup_fmap, Hrow. split; reflexivity.
Qed.

(** C8 fails as stated.  With the scalar [Infinity] the scaled weights
    [Infinity] and [-Infinity] add up to NaN, while [Infinity] times the
    output 1 is [Infinity].  With a finite scalar the products are rounded:
    on doubles, for [x = [0.3]], [W = [[0.1]]] and [c = 3], the scaled
    weights give 0.09000000000000001 and the scaled output is 0.09. *)
Lemma forwardLayer_not_linear :
  (let x := [Finite 1; Finite 1] in
   let W := [[Finite 2; Finite (-1)]] in
   forwardLayer x
     ((fun row : list number =>
         (fun weight => (PosInfinity * weight)%js) <$> row) <$> W)
   = [NaN]
   /\ (fun z => (PosInfinity * z)%js) <$> forwardLayer x W = [PosInfinity])
  /\ (let x := [0x1.3333333333333p-2%float] in       (* 0.3 *)
      let W := [[0x1.999999999999ap-4%float]] in     (* 0.1 *)
      Double.forwardLayer x (Double.scaleWeights 3 W)
      = [0x1.70a3d70a3d70bp-4%float]                 (* 0.09000000000000001 *)
      /\ (fun z => (3 * z)%float) <$> Double.forwardLayer x W
         = [0x1.70a3d70a3d70ap-4%float]).            (* 0.09 *)
Proof.
  split; [|split; vm_compute; reflexivity].
  cbv zeta. unfold forwardLayer, get. cbn [length seq fmap list_fmap foldl
    lookup list_lookup toNumber].
  split; unfold Num.mul, Num.add; decide_reals; lra.
Qed.

(** ** softmax *)

Lemma max_from_finite (r : R) (rs : list R) :
  foldl Num.max2 (Finite r) (finite_vector rs) = Finite (foldl Rmax r rs).
Proof.
  revert r. induction rs as [|x rs IH]; intros r; [reflexivity|].
  simpl. apply IH.
Qed.

Lemma max_finite (rs : list R) :
  rs <> [] -> Num.max (finite_vector rs) = Finite (Rmaximum rs).
Proof.
  destruct rs as [|r rs]; [congruence|]. intros _.
  unfold Num.max. simpl. apply max_from_finite.
Qed.

Lemma foldl_Rmax_le (r : R) (rs : list R) :
  (r <= foldl Rmax r rs)%R /\ Forall (fun x => (x <= foldl Rmax r rs)%R) rs.
Proof.
  revert r. induction rs as [|x rs IH]; intros r; simpl.
  - split; [lra | constructor].
  - destruct (IH (Rmax r x)) as [H1 H2].
    pose proof (Rmax_l r x). pose proof (Rmax_r r x).
    split; [lra|]. constructor; [lra | exact H2].
Qed.

Lemma foldl_Rmax_elem (r : R) (rs : list R) :
  foldl Rmax r rs ∈ r :: rs.
Proof.
  revert r. induction rs as [|x rs IH]; intros r; simpl.
  - apply list_elem_of_here.
  - specialize (IH (Rmax r x)). apply elem_of_cons in IH as [E|E].
    + rewrite E. unfold Rmax. destruct (Rle_dec r x).
      * apply list_elem_of_further, list_elem_of_here.
      * apply list_elem_of_here.
    + do 2 apply list_elem_of_further. exact E.
Qed.

Lemma Rmaximum_is_maximum (rs : list R) :
  rs <> [] ->
  Rmaximum rs ∈ rs /\ Forall (fun x => (x <= Rmaximum rs)%R) rs.
Proof.
  destruct rs as [|r rs]; [congruence|]. intros _. simpl. split.
  - apply foldl_Rmax_elem.
  - destruct (foldl_Rmax_le r rs). constructor; assumption.
Qed.

Lemma foldl_add_finite (a : R) (rs : list R) :
  foldl Num.add (Finite a) (finite_vector rs) = Finite (a + Rsum rs).
Proof.
  revert a. induction rs as [|x rs IH]; intros a; simpl.
  - apply Finite_eq. ring.
  - rewrite IH. apply Finite_eq. ring.
Qed.

Lemma reduce_add_finite (rs : list R) :
  rs <> [] -> reduce_add (finite_vector rs) = Ok (Finite (Rsum rs)).
Proof.
  destruct rs as [|r rs]; [congruence|]. intros _.
  simpl. f_equal. apply foldl_add_finite.
Qed.

Lemma Rsum_nonneg (rs : list R) :
  Forall (fun x => (0 <= x)%R) rs -> (0 <= Rsum rs)%R.
Proof. induction 1; simpl; lra. Qed.

Lemma Rsum_pos (rs : list R) :
  rs <> [] -> Forall (fun x => (0 < x)%R) rs -> (0 < Rsum rs)%R.
Proof.
  intros Hne H. destruct H as [|x rs Hx H]; [congruence|]. simpl.
  assert (0 <= Rsum rs)%R.
  { apply Rsum_nonneg. eapply Forall_impl; [exact H|]. simpl. intros; lra. }
  lra.
Qed.

Lemma Rsum_div (rs : list R) (s : R) :
  Rsum ((fun e => e / s)%R <$> rs) = (Rsum rs / s)%R.
Proof.
  induction rs as [|x rs IH]; simpl.
  - unfold Rdiv. ring.
  - change (list_fmap R R (fun e => (e / s)%R) rs)
      with ((fun e => (e / s)%R) <$> rs).
    rewrite IH. unfold Rdiv. ring.
Qed.

Lemma exps_positive (f : R -> R) (rs : list R) :
  Forall (fun x => (0 < x)%R) ((fun x => exp (f x)) <$> rs).
Proof. apply Forall_fmap, Forall_forall. intros x _. apply exp_pos. Qed.

Lemma softmax_finite (rs : list R) :
  rs <> [] ->
  softmax (finite_vector rs) = Ok (finite_vector (softmax_spec rs)).
Proof.
  intros Hne. unfold softmax, softmax_spec.
  rewrite max_finite by assumption.
  set (m := Rmaximum rs).
  assert (E : (fun x => Num.exp (x - Finite m)%js) <$> finite_vector rs
              = finite_vector ((fun x => exp (x - m)) <$> rs)).
  { unfold finite_vector. rewrite <- !list_fmap_compose. reflexivity. }
  rewrite E. set (exps := (fun x => exp (x - m)) <$> rs).
  assert (Hexps : exps <> []) by (destruct rs; [congruence | discriminate]).
  rewrite (reduce_add_finite exps Hexps). simpl.
  assert (Hpos : (0 < Rsum exps)%R)
    by (apply Rsum_pos, exps_positive; exact Hexps).
  f_equal. unfold finite_vector. rewrite <- !list_fmap_compose.
  apply list_fmap_ext. intros _ e _. simpl.
  rewrite Reqb_false by lra. reflexivity.
Qed.

(** In exact arithmetic, on every non-empty vector of finite logits
    [softmax] returns a vector of the same length whose entries are
    non-negative and sum to 1; the entries are
    [exp (x - m) / Σ exp (y - m)] with [m] the maximum logit.  What the
    doubles add, overflow of [Math.exp] and the rounding of the sum, is
    outside this statement. *)
Theorem softmax_is_distribution (rs : list R) :
  rs <> [] ->
  let m := Rmaximum rs in
  let ps := (fun x => exp (x - m) / Rsum ((fun y => exp (y - m)) <$> rs))%R
              <$> rs in
  softmax (finite_vector rs) = Ok (finite_vector ps)
  /\ (m ∈ rs /\ Forall (fun x => (x <= m)%R) rs)
  /\ length (finite_vector ps) = length (finite_vector rs)
  /\ Forall (fun p => (0 <= p)%R) ps
  /\ Rsum ps = 1%R.
Proof.
  intros Hne m ps.
  set (exps := (fun y => exp (y - m)) <$> rs).
  assert (Hexps : exps <> []) by (destruct rs; [congruence | discriminate]).
  assert (Hpos : (0 < Rsum exps)%R)
    by (apply Rsum_pos, exps_positive; exact Hexps).
  assert (Eps : ps = softmax_spec rs).
  { unfold ps, softmax_spec. fold m. fold exps. unfold exps.
    rewrite <- list_fmap_compose. reflexivity. }
  split; [rewrite Eps; apply softmax_finite; exact Hne|].
  split; [apply Rmaximum_is_maximum; exact Hne|].
  split; [unfold finite_vector, ps; rewrite !length_fmap; reflexivity|].
  split.
  - unfold ps. apply Forall_fmap, Forall_forall. intros x _. simpl.
    apply Rlt_le, Rdiv_lt_0_compat; [apply exp_pos | exact Hpos].
  - rewrite Eps. unfold softmax_spec. fold m. fold exps.
    rewrite Rsum_div. field. lra.
Qed.

Lemma softmax_is_distribution_witness :
  exists ps,
    softmax [Finite 0; Finite 1] = Ok (finite_vector ps)
    /\ length (finite_vector ps) = 2 /\ Rsum ps = 1%R.
Proof.
  destruct (softmax_is_distribution [0; 1]%R) as (H1 & _ & H3 & _ & H5);
    [discriminate|].
  eexists. split; [exact H1|]. split; [exact H3 | exact H5].
Defined.

Lemma foldl_Rmax_shift (c r : R) (rs : list R) :
  foldl Rmax (r + c)%R ((fun x => x + c)%R <$> rs)
  = (foldl Rmax r rs + c)%R.
Proof.
  revert r. induction rs as [|x rs IH]; intros r; simpl; [reflexivity|].
  rewrite <- IH. f_equal.
  unfold Rmax. destruct (Rle_dec (r + c) (x + c)), (Rle_dec r x); lra.
Qed.

Lemma softmax_spec_shift (c : R) (rs : list R) :
  softmax_spec ((fun x => x + c)%R <$> rs) = softmax_spec rs.
Proof.
  destruct rs as [|r rs]; [reflexivity|].
  unfold softmax_spec.
  assert (Em : Rmaximum ((fun x => x + c)%R <$> (r :: rs))
               = (Rmaximum (r :: rs) + c)%R) by apply foldl_Rmax_shift.
  rewrite Em. set (m := Rmaximum (r :: rs)).
  assert (E : (fun x => exp (x - (m + c)))
              <$> ((fun x => x + c)%R <$> (r :: rs))
              = (fun x => exp (x - m)) <$> (r :: rs)).
  { rewrite <- list_fmap_compose. apply list_fmap_ext. intros _ x _. simpl.
    f_equal. ring. }
  rewrite E. reflexivity.
Qed.

Lemma Rsum_mult (rs : list R) (s : R) :
  Rsum ((fun e => e * s)%R <$> rs) = (Rsum rs * s)%R.
Proof.
  induction rs as [|x rs IH]; simpl; [ring|].
  change (list_fmap R R (fun e => (e * s)%R) rs)
    with ((fun e => (e * s)%R) <$> rs).
  rewrite IH. ring.
Qed.

Lemma softmax_spec_naive (rs : list R) :
  rs <> [] -> softmax_spec rs = softmax_naive rs.
Proof.
  intros Hne. unfold softmax_spec, softmax_naive.
  set (m := Rmaximum rs).
  assert (E : (fun x => exp (x - m)) <$> rs
              = (fun e => e * exp (- m))%R <$> (exp <$> rs)).
  { rewrite <- list_fmap_compose. apply list_fmap_ext. intros _ x _. simpl.
    rewrite <- exp_plus. f_equal. }
  rewrite E, Rsum_mult, <- !list_fmap_compose.
  assert (Hne' : exp <$> rs <> [])
    by (destruct rs; [congruence | discriminate]).
  pose proof (Rsum_pos _ Hne' (exps_positive (fun x => x) rs)) as Hpos.
  pose proof (exp_pos (- m)) as Hm.
  apply list_fmap_ext. intros _ x _. simpl. field. lra.
Qed.

(** C10, as the code has it.  In exact arithmetic [softmax] is invariant
    under a shift of the logits: with finite numbers read as exact reals,
    adding a finite [c] to every entry of a vector of finite logits leaves
    the result unchanged; and on a non-empty vector the result is that of
    the naive formula [exp x / Σ exp y], the subtraction of the maximum
    changing nothing.  On the empty vector both sides throw. *)
Theorem softmax_shift_invariant (rs : list R) (c : R) :
  softmax ((fun x => (x + Finite c)%js) <$> finite_vector rs)
  = softmax (finite_vector rs)
  /\ softmax (finite_vector rs)
     = match rs with
       | [] => Throw TypeError
       | _ => Ok (finite_vector (softmax_naive rs))
       end.
Proof.
  destruct rs as [|r rs]; [split; reflexivity|].
  split.
  - assert (E : (fun x => (x + Finite c)%js) <$> finite_vector (r :: rs)
                = finite_vector ((fun x => x + c)%R <$> (r :: rs))).
    { unfold finite_vector. rewrite <- !list_fmap_compose. reflexivity. }
    rewrite E, !softmax_finite by discriminate.
    rewrite softmax_spec_shift. reflexivity.
  - rewrite softmax_finite, softmax_spec_naive by discriminate. reflexivity.
Qed.

(** C10 fails as stated.  Shifted by the constant [Infinity] the logit 0
    becomes [Infinity], [Infinity - Infinity] is NaN and so is the output,
    which was 1.  A finite shift can overflow: on doubles the logits
    [-2^1023] and [2^1023] give the output [0, 1], and shifted by [2^1023]
    they are [0] and [Infinity], which give [NaN, NaN].  Only values of
    [Math.exp] that ECMAScript fixes are used. *)
Lemma softmax_shift_counterexample :
  (softmax [Finite 0] = Ok [Finite 1]
   /\ softmax ((fun x => (x + PosInfinity)%js) <$> [Finite 0]) = Ok [NaN])
  /\ (let v := [(-0x1p1023)%float; 0x1p1023%float] in
      let c := 0x1p1023%float in
      Double.softmax v = Some (Ok [0%float; 1%float])
      /\ Double.softmax ((fun x => (x + c)%float) <$> v)
         = Some (Ok [nan; nan])).
Proof.
  split; [|split; vm_compute; reflexivity].
  split; [|reflexivity].
  change [Finite 0] with (finite_vector [0%R]).
  rewrite (softmax_finite [0%R]) by discriminate.
  unfold softmax_spec, finite_vector. simpl. do 2 f_equal.
  apply Finite_eq. rewrite Rminus_diag, exp_0. lra.
Qed.

(** ** crossEntropyLoss *)

Lemma get_finite_vector (rs : list R) (i : nat) (r : R) :
  rs !! i = Some r -> get (finite_vector rs) i = Finite r.
Proof.
  intros H. unfold get, finite_vector. rewrite list_lookup_fmap, H. reflexivity.
Qed.

Lemma length_finite_vector (rs : list R) :
  length (finite_vector rs) = length rs.
Proof. apply length_fmap. Qed.

Lemma get_one_hot_eq (n k : nat) : k < n -> get (one_hot n k) k = Finite 1.
Proof.
  intros H. unfold get, one_hot.
  rewrite list_lookup_insert_eq by (rewrite length_replicate; exact H).
  reflexivity.
Qed.

Lemma get_one_hot_ne (n k i : nat) :
  i < n -> i <> k -> get (one_hot n k) i = Finite 0.
Proof.
  intros H Hne. unfold get, one_hot.
  rewrite list_lookup_insert_ne by congruence.
  rewrite lookup_replicate_2 by exact H. reflexivity.
Qed.

Lemma foldl_fixed {A} (step : number -> A -> number) (l : list A) (x : R) :
  (forall i y, i ∈ l -> step (Finite y) i = Finite y) ->
  foldl step (Finite x) l = Finite x.
Proof.
  induction l as [|i l IH]; intros H; simpl; [reflexivity|].
  rewrite H by apply list_elem_of_here.
  apply IH. intros j y Hj. apply H, list_elem_of_further, Hj.
Qed.

Lemma Rsum_elem_le (rs : list R) (i : nat) (r : R) :
  Forall (fun x => (0 <= x)%R) rs -> rs !! i = Some r -> (r <= Rsum rs)%R.
Proof.
  intros H. revert i. induction H as [|x rs Hx H IH]; intros i Hi.
  - discriminate.
  - pose proof (Rsum_nonneg rs H). destruct i as [|i]; simpl in *.
    + injection Hi as ->. lra.
    + specialize (IH i Hi). lra.
Qed.

(** With a one-hot target only the term of the active class counts. *)
Lemma crossEntropyLoss_active_class (ps : list R) (k : nat) (pk : R) :
  ps !! k = Some pk ->
  let l := crossEntropyLoss (finite_vector ps) (one_hot (length ps) k) in
  ((0 < pk)%R -> l = Finite (- ln pk)) /\ ((pk <= 0)%R -> l = Finite 0).
Proof.
  intros Hk l.
  assert (Hlt : k < length ps) by (eapply lookup_lt_Some; exact Hk).
  set (step := fun (loss : number) (i : nat) =>
                 if (get (finite_vector ps) i > Finite 0)%js
                 then (loss - get (one_hot (length ps) k) i
                              * Num.log (get (finite_vector ps) i))%js
                 else loss).
  assert (Hskip : forall i y, i < length ps -> i <> k ->
                              step (Finite y) i = Finite y).
  { intros i y Hi Hik. unfold step.
    destruct (lookup_lt_is_Some_2 ps i Hi) as [p Hp].
    rewrite (get_finite_vector ps i p Hp), get_one_hot_ne by assumption.
    simpl. unfold Rltb. destruct (Rlt_dec 0 p); [|reflexivity].
    simpl. apply Finite_eq. ring. }
  assert (Estep : step (Finite 0) k
                  = Finite (if Rltb 0 pk then - ln pk else 0)).
  { unfold step.
    rewrite (get_finite_vector ps k pk Hk), get_one_hot_eq by exact Hlt.
    simpl. destruct (Rltb 0 pk); simpl; [|reflexivity].
    apply Finite_eq. ring. }
  assert (El : l = step (Finite 0) k).
  { unfold l, crossEntropyLoss. fold step.
    rewrite length_finite_vector.
    replace (length ps) with (k + S (length ps - S k)) at 1 by lia.
    rewrite seq_app, foldl_app. simpl.
    rewrite (foldl_fixed step (seq 0 k) 0).
    - rewrite Estep. apply foldl_fixed. intros i y Hi.
      apply elem_of_seq in Hi. apply Hskip; lia.
    - intros i y Hi. apply elem_of_seq in Hi. apply Hskip; lia. }
  rewrite El, Estep. split; intros H.
  - rewrite Rltb_true by exact H. reflexivity.
  - rewrite Rltb_false by exact H. reflexivity.
Qed.

(** C3.  For a probability vector [ps] (entries non-negative, sum 1) and
    the one-hot target with its 1 at index [k], the loss is a finite
    non-negative number; it is [- ln ps[k]] when [ps[k] > 0], and [0] when
    [ps[k]] is exactly 0, the term being skipped. *)
Theorem crossEntropyLoss_one_hot (ps : list R) (k : nat) (pk : R) :
  Forall (fun p => (0 <= p)%R) ps ->
  Rsum ps = 1%R ->
  ps !! k = Some pk ->
  let l := crossEntropyLoss (finite_vector ps) (one_hot (length ps) k) in
  (exists x, l = Finite x /\ (0 <= x)%R)
  /\ ((0 < pk)%R -> l = Finite (- ln pk))
  /\ (pk = 0%R -> l = Finite 0).
Proof.
  intros Hnn Hsum Hk l.
  assert (Hpk : (0 <= pk <= 1)%R).
  { split.
    - rewrite Forall_lookup in Hnn. exact (Hnn k pk Hk).
    - rewrite <- Hsum. eapply Rsum_elem_le; eassumption. }
  destruct (crossEntropyLoss_active_class ps k pk Hk) as [Epos Ezero].
  fold l in Epos, Ezero.
  split; [|split; [exact Epos | intros Hz; apply Ezero; lra]].
  destruct (Rlt_dec 0 pk) as [Hpos|Hnpos].
  - exists (- ln pk)%R. split; [apply Epos, Hpos|].
    destruct (Req_dec pk 1) as [->|Hne1].
    + rewrite ln_1. lra.
    + assert (ln pk < ln 1)%R by (apply ln_increasing; lra).
      rewrite ln_1 in *. lra.
  - exists 0%R. split; [apply Ezero; lra | lra].
Qed.

Lemma crossEntropyLoss_one_hot_witness :
  crossEntropyLoss [Finite (1 / 4); Finite (3 / 4)] [Finite 0; Finite 1]
  = Finite (- ln (3 / 4)).
Proof.
  apply (crossEntropyLoss_one_hot [1 / 4; 3 / 4]%R 1 (3 / 4)%R).
  - repeat constructor; lra.
  - simpl. lra.
  - reflexivity.
  - lra.
Defined.

(** ** The value of [- ln 0.1]

    [exp y >= 1 + y] and [exp (2 y) = (exp y)^2] bound [exp] from below by
    repeated squaring in fixed-point arithmetic. *)

Lemma scale_pos : (0 < scale)%Z.
Proof. reflexivity. Qed.

Lemma IZR_scale_pos : (0 < IZR scale)%R.
Proof. apply (IZR_lt 0), scale_pos. Qed.

Lemma div_square_le (a n s : R) :
  (0 < s)%R -> (a * s <= n * n)%R -> (a / s <= n / s * (n / s))%R.
Proof.
  intros Hs H.
  replace (a / s)%R with (a * s * / (s * s))%R by (field; lra).
  replace (n / s * (n / s))%R with (n * n * / (s * s))%R by (field; lra).
  apply Rmult_le_compat_r; [|exact H].
  apply Rlt_le, Rinv_0_lt_compat. nra.
Qed.

Lemma div_shift_le (d p q s : R) :
  (0 < s)%R -> (0 < q)%R -> (d * q <= p * s)%R -> (d / s <= p / q)%R.
Proof.
  intros Hs Hq H.
  replace (d / s)%R with (d * q * / (s * q))%R by (field; lra).
  replace (p / q)%R with (p * s * / (s * q))%R by (field; lra).
  apply Rmult_le_compat_r; [|exact H].
  apply Rlt_le, Rinv_0_lt_compat. nra.
Qed.

Lemma squarings_bound (n : nat) (N : Z) (y : R) :
  (0 <= N)%Z ->
  (IZR N / IZR scale <= exp y)%R ->
  (IZR (squarings n N) / IZR scale <= exp (2 ^ n * y))%R.
Proof.
  revert N y. induction n as [|n IH]; intros N y HN Hy.
  - simpl. rewrite Rmult_1_l. exact Hy.
  - cbn [squarings].
    replace (2 ^ S n * y)%R with (2 ^ n * (2 * y))%R by (simpl; ring).
    pose proof IZR_scale_pos as Hs.
    apply IH.
    + apply Z.div_pos; [nia | apply scale_pos].
    + replace (2 * y)%R with (y + y)%R by ring. rewrite exp_plus.
      assert (H0 : (0 <= IZR N / IZR scale)%R).
      { apply Rmult_le_pos; [apply (IZR_le 0), HN|].
        apply Rlt_le, Rinv_0_lt_compat, Hs. }
      apply Rle_trans with (IZR N / IZR scale * (IZR N / IZR scale))%R.
      * apply div_square_le; [exact Hs|].
        rewrite <- !mult_IZR. apply IZR_le.
        rewrite Z.mul_comm. apply Z.mul_div_le, scale_pos.
      * apply Rmult_le_compat; assumption.
Qed.

(** exp 2.302586 > 10 *)
Lemma exp_above_ten : (10 < exp 2.302586)%R.
Proof.
  set (N0 := (scale + 2302586 * scale / 67108864000000)%Z).
  pose proof IZR_scale_pos as Hs.
  assert (H0 : (IZR N0 / IZR scale <= exp (2302586 / 67108864000000))%R).
  { apply Rle_trans with (1 + 2302586 / 67108864000000)%R;
      [|apply exp_ineq1_le].
    unfold N0. rewrite plus_IZR.
    replace ((IZR scale + IZR (2302586 * scale / 67108864000000)) / IZR scale)%R
      with (1 + IZR (2302586 * scale / 67108864000000) / IZR scale)%R
      by (field; lra).
    apply Rplus_le_compat_l, div_shift_le; [exact Hs | lra |].
    rewrite <- !mult_IZR. apply IZR_le. rewrite Z.mul_comm.
    apply Z.mul_div_le. reflexivity. }
  assert (HN0 : (0 <= N0)%Z) by (vm_compute; discriminate).
  pose proof (squarings_bound 26 N0 _ HN0 H0) as H.
  replace (2 ^ 26 * (2302586 / 67108864000000))%R with 2.302586%R in H by lra.
  eapply Rlt_le_trans; [|exact H].
  apply Rmult_lt_reg_r with (IZR scale); [exact Hs|].
  unfold Rdiv. rewrite Rmult_assoc, Rinv_l by lra. rewrite Rmult_1_r.
  rewrite <- (mult_IZR 10). apply IZR_lt. vm_compute. reflexivity.
Qed.

(** exp (- 2.302585) > 1/10 *)
Lemma exp_above_tenth : (1 / 10 < exp (- 2.302585))%R.
Proof.
  set (N0 := (scale - (2302585 * scale / 67108864000000 + 1))%Z).
  pose proof IZR_scale_pos as Hs.
  assert (H0 : (IZR N0 / IZR scale <= exp (- (2302585 / 67108864000000)))%R).
  { apply Rle_trans with (1 + - (2302585 / 67108864000000))%R;
      [|apply exp_ineq1_le].
    unfold N0. rewrite minus_IZR.
    replace ((IZR scale - IZR (2302585 * scale / 67108864000000 + 1))
             / IZR scale)%R
      with (1 + - (IZR (2302585 * scale / 67108864000000 + 1) / IZR scale))%R
      by (field; lra).
    apply Rplus_le_compat_l, Ropp_le_contravar.
    apply div_shift_le; [lra | exact Hs |].
    rewrite <- !mult_IZR. apply IZR_le.
    pose proof (Z.mul_succ_div_gt (2302585 * scale) 67108864000000 eq_refl).
    lia. }
  assert (HN0 : (0 <= N0)%Z) by (vm_compute; discriminate).
  pose proof (squarings_bound 26 N0 _ HN0 H0) as H.
  replace (2 ^ 26 * - (2302585 / 67108864000000))%R with (- 2.302585)%R in H
    by lra.
  eapply Rlt_le_trans; [|exact H].
  apply Rmult_lt_reg_r with (IZR scale * 10)%R; [lra|].
  replace (1 / 10 * (IZR scale * 10))%R with (IZR scale) by (field; lra).
  replace (IZR (squarings 26 N0) / IZR scale * (IZR scale * 10))%R
    with (IZR (squarings 26 N0) * 10)%R by (field; lra).
  rewrite <- (mult_IZR _ 10). apply IZR_lt. vm_compute. reflexivity.
Qed.

Lemma ln_tenth_bounds : (2.302585 < - ln (1 / 10) < 2.302586)%R.
Proof.
  pose proof exp_above_ten as H10. pose proof exp_above_tenth as H01.
  split.
  - assert (H : (ln (1 / 10) < ln (exp (- 2.302585)))%R)
      by (apply ln_increasing; [lra | exact H01]).
    rewrite ln_exp in H. lra.
  - assert (H : (ln (exp (- 2.302586)) < ln (1 / 10))%R).
    { apply ln_increasing; [apply exp_pos|].
      replace (exp (- 2.302586))%R with (/ exp 2.302586)%R
        by (rewrite <- exp_Ropp; f_equal; lra).
      unfold Rdiv. rewrite Rmult_1_l.
      apply Rinv_lt_contravar; [|exact H10].
      pose proof (exp_pos 2.302586). lra. }
    rewrite ln_exp in H. lra.
Qed.

(** ** The network with zero weights *)

Lemma foldl_push {A} (x : A) (acc : list A) (l : list nat) :
  foldl (fun (m : list A) (i : nat) => m ++ [x]) acc l
  = acc ++ replicate (length l) x.
Proof.
  revert acc. induction l as [|i l IH]; intros acc; simpl.
  - rewrite app_nil_r. reflexivity.
  - rewrite IH, <- app_assoc. reflexivity.
Qed.

Lemma createZeroMatrix_replicate (rows cols : nat) :
  createZeroMatrix rows cols = replicate rows (replicate cols (Finite 0)).
Proof.
  unfold createZeroMatrix. rewrite foldl_push, length_seq. reflexivity.
Qed.

Lemma get_replicate (n i : nat) (a : number) :
  i < n -> get (replicate n a) i = a.
Proof.
  intros H. unfold get. rewrite lookup_replicate_2 by exact H. reflexivity.
Qed.

Lemma dot_zero (n c : nat) :
  n <= c -> dot (replicate n (Finite 0)) (replicate c (Finite 0)) = Finite 0.
Proof.
  intros H. unfold dot, sum_upto. rewrite length_replicate.
  apply foldl_fixed. intros i y Hi. apply elem_of_seq in Hi.
  rewrite !get_replicate by lia. simpl. apply Finite_eq. ring.
Qed.

Lemma forwardLayer_zero (n rows cols : nat) :
  n <= cols ->
  forwardLayer (replicate n (Finite 0)) (createZeroMatrix rows cols)
  = replicate rows (Finite 0).
Proof.
  intros H. rewrite forwardLayer_dot, createZeroMatrix_replicate.
  rewrite fmap_replicate, dot_zero by exact H. reflexivity.
Qed.

Lemma relu_zero : relu (Finite 0) = Finite 0.
Proof.
  unfold relu, Num.max. simpl. apply Finite_eq, Rmax_left. lra.
Qed.

Lemma foldl_Rmax_constant (x : R) (n : nat) :
  foldl Rmax x (replicate n x) = x.
Proof.
  induction n as [|n IH]; simpl; [reflexivity|].
  rewrite Rmax_left by lra. exact IH.
Qed.

Lemma Rsum_replicate (n : nat) (x : R) :
  Rsum (replicate n x) = (INR n * x)%R.
Proof.
  induction n as [|n IH]; [simpl; ring|].
  rewrite S_INR. simpl. rewrite IH. ring.
Qed.

Lemma softmax_spec_constant (n : nat) (x : R) :
  softmax_spec (replicate (S n) x) = replicate (S n) (/ INR (S n))%R.
Proof.
  unfold softmax_spec.
  assert (Em : Rmaximum (replicate (S n) x) = x) by apply foldl_Rmax_constant.
  rewrite Em, !fmap_replicate, Rsum_replicate. f_equal.
  pose proof (exp_pos (x - x)). pose proof (pos_INR n).
  rewrite S_INR. field. lra.
Qed.

Lemma softmax_zero_logits :
  softmax (replicate 10 (Finite 0)) = Ok (replicate 10 (Finite (1 / 10))).
Proof.
  change (replicate 10 (Finite 0)) with (finite_vector (replicate 10 0%R)).
  rewrite softmax_finite by discriminate.
  rewrite softmax_spec_constant. unfold finite_vector.
  rewrite fmap_replicate. do 3 f_equal. simpl. lra.
Qed.

Lemma oneHot_in_range (label : nat) :
  label < 10 -> oneHot (Some label) = one_hot 10 label.
Proof.
  intros H. unfold oneHot, store, one_hot.
  rewrite decide_True by (rewrite length_replicate; exact H). reflexivity.
Qed.

(** C9.  With zero weights and an all-zero normalised input every layer
    has [z = 0], the output is 0.1 for each of the 10 classes, and the loss
    is [- ln 0.1], a real between 2.302585 and 2.302586, whatever the class
    of the one-hot target. *)
Theorem zero_network_uniform (label : nat) :
  label < 10 ->
  let normalizedPixels := replicate 784 (Finite 0) in
  let z0 := forwardLayer normalizedPixels (createZeroMatrix 16 784) in
  let a0 := relu <$> z0 in
  let z1 := forwardLayer a0 (createZeroMatrix 16 16) in
  let a1 := relu <$> z1 in
  let z2 := forwardLayer a1 (createZeroMatrix 10 16) in
  let output := replicate 10 (Finite (1 / 10)) in
  z0 = replicate 16 (Finite 0)
  /\ z1 = replicate 16 (Finite 0)
  /\ z2 = replicate 10 (Finite 0)
  /\ softmax z2 = Ok output
  /\ crossEntropyLoss output (oneHot (Some label)) = Finite (- ln (1 / 10))
  /\ (2.302585 < - ln (1 / 10) < 2.302586)%R.
Proof.
  intros Hlabel normalizedPixels z0 a0 z1 a1 z2 output.
  assert (E0 : z0 = replicate 16 (Finite 0))
    by (apply forwardLayer_zero; lia).
  assert (Ea0 : a0 = replicate 16 (Finite 0))
    by (unfold a0; rewrite E0, fmap_replicate, relu_zero; reflexivity).
  assert (E1 : z1 = replicate 16 (Finite 0))
    by (unfold z1; rewrite Ea0; apply forwardLayer_zero; lia).
  assert (Ea1 : a1 = replicate 16 (Finite 0))
    by (unfold a1; rewrite E1, fmap_replicate, relu_zero; reflexivity).
  assert (E2 : z2 = replicate 10 (Finite 0))
    by (unfold z2; rewrite Ea1; apply forwardLayer_zero; lia).
  split; [exact E0|]. split; [exact E1|]. split; [exact E2|].
  split; [|split; [|exact ln_tenth_bounds]].
  - rewrite E2. apply softmax_zero_logits.
  - rewrite oneHot_in_range by exact Hlabel.
    assert (Hk : replicate 10 (1 / 10)%R !! label = Some (1 / 10)%R)
      by (apply lookup_replicate_2; exact Hlabel).
    destruct (crossEntropyLoss_active_class _ _ _ Hk) as [Hpos _].
    apply Hpos. lra.
Qed.

Lemma zero_network_uniform_witness :
  crossEntropyLoss (replicate 10 (Finite (1 / 10))) (oneHot (Some 3))
  = Finite (- ln (1 / 10)).
Proof. apply (zero_network_uniform 3). lia. Defined.

(** ** Loops over arrays *)

Lemma bind_Ok {A B} (a : A) (f : A -> result B) : (Ok a ≫= f) = f a.
Proof. reflexivity. Qed.

Lemma array_get_Some {A} (arr : list A) (i : nat) (a : A) :
  arr !! i = Some a -> array_get arr i = Ok a.
Proof. intros H. unfold array_get. rewrite H. reflexivity. Qed.

Lemma store_in_range (arr : list number) (i : nat) (v : number) :
  i < length arr -> store arr i v = <[i := v]> arr.
Proof. intros H. unfold store. rewrite decide_True by exact H. reflexivity. Qed.

Lemma get_Some (arr : list number) (i : nat) (a : number) :
  arr !! i = Some a -> get arr i = a.
Proof. intros H. unfold get. rewrite H. reflexivity. Qed.

Lemma lookup_get (arr : list number) (i : nat) :
  i < length arr -> arr !! i = Some (get arr i).
Proof.
  intros H. destruct (lookup_lt_is_Some_2 arr i H) as [a Ha].
  rewrite (get_Some arr i a Ha). exact Ha.
Qed.

Lemma insert_take_drop {A} (old new : list A) (k : nat) (y : A) :
  length new = length old -> new !! k = Some y ->
  <[k := y]> (take k new ++ drop k old) = take (S k) new ++ drop (S k) old.
Proof.
  intros Hlen Hy.
  assert (Hk : k < length old) by (rewrite <- Hlen; eapply lookup_lt_Some, Hy).
  destruct (lookup_lt_is_Some_2 old k Hk) as [x Hx].
  rewrite (drop_S old x k Hx), (take_S_r new k y Hy), <- app_assoc. simpl.
  assert (El : length (take k new) = k) by (rewrite length_take; lia).
  rewrite <- El at 1.
  replace (length (take k new)) with (length (take k new) + 0) at 1 by lia.
  rewrite insert_app_r. reflexivity.
Qed.

Lemma lookup_take_drop {A} (old new : list A) (k : nat) :
  length new = length old ->
  (take k new ++ drop k old) !! k = old !! k.
Proof.
  intros Hlen. destruct (decide (k < length old)) as [Hk|Hk].
  - rewrite lookup_app_r by (rewrite length_take; lia).
    rewrite length_take, lookup_drop. f_equal. lia.
  - rewrite !lookup_ge_None_2; [reflexivity | lia |].
    rewrite length_app, length_take, length_drop. lia.
Qed.

Lemma length_take_drop {A} (old new : list A) (k : nat) :
  length new = length old -> length (take k new ++ drop k old) = length old.
Proof. intros Hlen. rewrite length_app, length_take, length_drop. lia. Qed.

(** A loop that rewrites the cells of an array one after the other builds
    the new array. *)
Lemma for_from_rebuild {St A} (g : list A -> St) (old new : list A)
    (body : nat -> St -> result St) (i n : nat) :
  length new = length old ->
  i + n = length old ->
  (forall k, k < length old ->
     body k (g (take k new ++ drop k old))
     = Ok (g (take (S k) new ++ drop (S k) old))) ->
  for_from i n body (g (take i new ++ drop i old)) = Ok (g new).
Proof.
  intros Hlen Hin Hbody. revert i Hin.
  induction n as [|n IH]; intros i Hin; simpl.
  - rewrite take_ge, drop_ge, app_nil_r by lia. reflexivity.
  - rewrite Hbody by lia. simpl. apply IH. lia.
Qed.

Lemma for_loop_rebuild {St A} (g : list A -> St) (old new : list A)
    (body : nat -> St -> result St) :
  length new = length old ->
  (forall k, k < length old ->
     body k (g (take k new ++ drop k old))
     = Ok (g (take (S k) new ++ drop (S k) old))) ->
  for_loop (length old) body (g old) = Ok (g new).
Proof.
  intros Hlen Hbody.
  pose proof (for_from_rebuild g old new body 0 (length old) Hlen eq_refl
                Hbody) as H.
  rewrite take_0, drop_0 in H. exact H.
Qed.

(** A loop that adds one term after the other into a fixed cell. *)
Lemma for_from_accumulate (f : nat -> number) (i : nat)
    (body : nat -> list number -> result (list number)) (s m : nat)
    (da : list number) :
  i < length da ->
  (forall j da', s <= j < s + m -> length da' = length da ->
     body j da' = Ok (<[i := (get da' i + f j)%js]> da')) ->
  for_from s m body da
  = Ok (<[i := foldl (fun acc j => (acc + f j)%js) (get da i) (seq s m)]> da).
Proof.
  revert s da. induction m as [|m IH]; intros s da Hi Hbody; simpl.
  - rewrite list_insert_id by (apply lookup_get, Hi). reflexivity.
  - rewrite Hbody by lia. simpl.
    rewrite IH.
    + rewrite list_insert_insert_eq. unfold get at 1.
      rewrite list_lookup_insert_eq by exact Hi. reflexivity.
    + rewrite length_insert. exact Hi.
    + intros j da' Hj Hlen. apply Hbody; [lia|].
      rewrite Hlen, length_insert. reflexivity.
Qed.

(** The loop over the entries of one row,
    [w[layer][i][j] = h j w[layer][i][j]]. *)
Lemma row_loop (layer i : nat) (w : weights) (Wl : matrix)
    (row : list number) (h : nat -> number -> number)
    (body : nat -> weights -> result weights) :
  w !! layer = Some Wl -> Wl !! i = Some row ->
  (forall j cur, j < length row -> length cur = length row ->
     cur !! j = row !! j ->
     body j (<[layer := <[i := cur]> Wl]> w)
     = Ok (<[layer := <[i := <[j := h j (get row j)]> cur]> Wl]> w)) ->
  for_loop (length row) body w = Ok (<[layer := <[i := imap h row]> Wl]> w).
Proof.
  intros Hl Hi Hbody.
  set (g := fun r : list number => <[layer := <[i := r]> Wl]> w).
  assert (Eg : g row = w).
  { unfold g. rewrite (list_insert_id Wl i row Hi).
    apply list_insert_id, Hl. }
  transitivity (for_loop (length row) body (g row)); [rewrite Eg; reflexivity|].
  apply (for_loop_rebuild g row (imap h row)); [apply length_imap|].
  intros k Hk. unfold g. rewrite Hbody.
  - rewrite insert_take_drop; [reflexivity | apply length_imap |].
    rewrite list_lookup_imap, (lookup_get row k Hk). reflexivity.
  - exact Hk.
  - apply length_take_drop, length_imap.
  - apply lookup_take_drop, length_imap.
Qed.

(** The loop over the rows of one layer, [w[layer][i] = H i w[layer][i]]. *)
Lemma layer_loop (layer : nat) (w : weights) (Wl : matrix)
    (H : nat -> list number -> list number)
    (body : nat -> weights -> result weights) :
  w !! layer = Some Wl ->
  (forall i row cur, Wl !! i = Some row -> cur !! i = Some row ->
     length cur = length Wl ->
     body i (<[layer := cur]> w) = Ok (<[layer := <[i := H i row]> cur]> w)) ->
  for_loop (length Wl) body w = Ok (<[layer := imap H Wl]> w).
Proof.
  intros Hl Hbody.
  set (g := fun M : matrix => <[layer := M]> w).
  assert (Eg : g Wl = w) by (apply list_insert_id, Hl).
  transitivity (for_loop (length Wl) body (g Wl)); [rewrite Eg; reflexivity|].
  apply (for_loop_rebuild g Wl (imap H Wl)); [apply length_imap|].
  intros k Hk. unfold g.
  destruct (lookup_lt_is_Some_2 Wl k Hk) as [row Hrow].
  rewrite (Hbody k row).
  - rewrite insert_take_drop; [reflexivity | apply length_imap |].
    rewrite list_lookup_imap, Hrow. reflexivity.
  - exact Hrow.
  - rewrite lookup_take_drop by apply length_imap. exact Hrow.
  - apply length_take_drop, length_imap.
Qed.

(** ** Accumulation of the gradients *)

Lemma accumulate_closed (layer : nat) (W : matrix) (dz a : list number)
    (G : weights) (Gl : matrix) :
  G !! layer = Some Gl ->
  Forall2 (fun row grow : list number => length row = length grow) W Gl ->
  accumulate layer W dz a G = Ok (<[layer := addOuter dz a Gl]> G).
Proof.
  intros HG Hshape. unfold accumulate, addOuter.
  rewrite (Forall2_length _ _ _ Hshape).
  apply layer_loop; [exact HG|].
  intros i grow cur Hgrow Hcur Hlen.
  destruct (Forall2_lookup_r _ _ _ _ _ Hshape Hgrow) as (Wi & HWi & HlenWi).
  rewrite (array_get_Some W i Wi HWi), bind_Ok, HlenWi.
  assert (Hlayer : layer < length G) by (eapply lookup_lt_Some; exact HG).
  assert (Hi : i < length cur) by (eapply lookup_lt_Some; exact Hcur).
  rewrite (row_loop layer i (<[layer := cur]> G) cur grow
             (fun j g => (g + get dz i * get a j)%js)).
  - rewrite list_insert_insert_eq. reflexivity.
  - apply list_lookup_insert_eq, Hlayer.
  - exact Hcur.
  - intros j cur' Hj Hlen' Hcur'.
    rewrite !list_insert_insert_eq.
    rewrite (array_get_Some _ layer (<[i := cur']> cur))
      by (apply list_lookup_insert_eq; exact Hlayer).
    rewrite bind_Ok.
    rewrite (array_get_Some _ i cur')
      by (apply list_lookup_insert_eq; exact Hi).
    rewrite bind_Ok, store_in_range by lia.
    rewrite !list_insert_insert_eq.
    unfold get at 1. rewrite Hcur'. reflexivity.
Qed.

(** ** Backpropagation through a layer *)

Lemma backpropagate_closed (W : matrix) (dz : list number) (n : nat) :
  length dz <= length W ->
  backpropagate W dz n
  = Ok ((fun i => sum_upto (length dz)
                    (fun j => (get (mrow W j) i * get dz j)%js))
        <$> seq 0 n).
Proof.
  intros Hdz. unfold backpropagate.
  set (old := replicate n (Finite 0)).
  set (new := (fun i => sum_upto (length dz)
                 (fun j => (get (mrow W j) i * get dz j)%js)) <$> seq 0 n).
  assert (Hold : length old = n) by apply length_replicate.
  assert (Hnew : length new = length old)
    by (unfold new; rewrite length_fmap, length_seq, Hold; reflexivity).
  rewrite <- Hold at 1.
  apply (for_loop_rebuild (fun l : list number => l) old new); [exact Hnew|].
  intros k Hk. rewrite Hold in Hk.
  set (cur := take k new ++ drop k old).
  assert (Hcur : length cur = n)
    by (unfold cur; rewrite length_take_drop by exact Hnew; exact Hold).
  assert (Hzero : get cur k = Finite 0).
  { unfold get, cur. rewrite lookup_take_drop by exact Hnew.
    unfold old. rewrite lookup_replicate_2 by exact Hk. reflexivity. }
  unfold for_loop.
  rewrite (for_from_accumulate
             (fun j => (get (mrow W j) k * get dz j)%js) k).
  - rewrite Hzero. unfold cur. f_equal. apply insert_take_drop; [exact Hnew|].
    unfold new. rewrite list_lookup_fmap, lookup_seq_lt by exact Hk.
    reflexivity.
  - lia.
  - intros j da' Hj Hlen.
    assert (HjW : j < length W) by lia.
    destruct (lookup_lt_is_Some_2 W j HjW) as [Wj HWj].
    rewrite (array_get_Some W j Wj HWj), bind_Ok.
    rewrite store_in_range by lia.
    unfold mrow. rewrite HWj. reflexivity.
Qed.

(** ** The weight update *)

Lemma updateWeights_closed (w G : weights) (batchSize : number) :
  length w = 3 -> mirrors w G ->
  updateWeights w G batchSize = Ok (sgd w G batchSize).
Proof.
  intros Hw Hshape. unfold updateWeights. rewrite <- Hw.
  apply (for_loop_rebuild (fun x : weights => x) w (sgd w G batchSize));
    [apply length_imap|].
  intros k Hk.
  assert (Hnew : length (sgd w G batchSize) = length w) by apply length_imap.
  set (cur := take k (sgd w G batchSize) ++ drop k w).
  destruct (lookup_lt_is_Some_2 w k Hk) as [Wl HWl].
  assert (Hcur : cur !! k = Some Wl)
    by (unfold cur; rewrite lookup_take_drop by exact Hnew; exact HWl).
  assert (Hkcur : k < length cur) by (eapply lookup_lt_Some; exact Hcur).
  destruct (Forall2_lookup_l _ _ _ _ _ Hshape HWl) as (Gl & HGl & HshapeL).
  rewrite (array_get_Some cur k Wl Hcur), bind_Ok.
  rewrite (layer_loop k cur Wl
             (fun i (row : list number) =>
                imap (fun j x =>
                  (x - learningRate * (get (wrow G k i) j / batchSize))%js)
                  row)).
  - f_equal. unfold cur. apply insert_take_drop; [exact Hnew|].
    unfold sgd. rewrite list_lookup_imap, HWl. reflexivity.
  - exact Hcur.
  - intros i row cur' Hrow Hcur' Hlen'.
    assert (Hi : i < length cur') by (eapply lookup_lt_Some; exact Hcur').
    destruct (Forall2_lookup_l _ _ _ _ _ HshapeL Hrow) as (Gli & HGli & _).
    assert (EG : wrow G k i = Gli).
    { unfold wrow, mrow. rewrite HGl. simpl. rewrite HGli. reflexivity. }
    rewrite (array_get_Some Wl i row Hrow), bind_Ok.
    rewrite (row_loop k i (<[k := cur']> cur) cur' row
               (fun j x =>
                  (x - learningRate * (get (wrow G k i) j / batchSize))%js)).
    + rewrite list_insert_insert_eq. reflexivity.
    + apply list_lookup_insert_eq, Hkcur.
    + exact Hcur'.
    + intros j cur'' Hj Hlen'' Hcur''.
      rewrite !list_insert_insert_eq.
      rewrite (array_get_Some G k Gl HGl), bind_Ok.
      rewrite (array_get_Some Gl i Gli HGli), bind_Ok.
      rewrite (array_get_Some _ k (<[i := cur'']> cur'))
        by (apply list_lookup_insert_eq; exact Hkcur).
      rewrite bind_Ok.
      rewrite (array_get_Some _ i cur'')
        by (apply list_lookup_insert_eq; exact Hi).
      rewrite bind_Ok, store_in_range by lia.
      rewrite !list_insert_insert_eq, EG.
      unfold get at 1. rewrite Hcur''. reflexivity.
Qed.

Lemma entry_Some (w : weights) (layer i j : nat) (x : number) :
  entry w layer i j = Some x ->
  exists Wl row,
    w !! layer = Some Wl /\ Wl !! i = Some row /\ row !! j = Some x.
Proof.
  unfold entry. intros H.
  destruct (w !! layer) as [Wl|] eqn:Hl; [|discriminate]. simpl in H.
  destruct (Wl !! i) as [row|] eqn:Hi; [|discriminate]. simpl in H.
  exists Wl, row. repeat split; [exact Hi | exact H].
Qed.

Lemma entry_wrow (w : weights) (layer i j : nat) (x : number) :
  entry w layer i j = Some x -> get (wrow w layer i) j = x.
Proof.
  intros H. destruct (entry_Some _ _ _ _ _ H) as (Wl & row & Hl & Hi & Hj).
  unfold wrow, mrow. rewrite Hl. simpl. rewrite Hi. simpl.
  apply get_Some, Hj.
Qed.

Lemma entry_sgd (w G : weights) (batchSize : number) (layer i j : nat) :
  entry (sgd w G batchSize) layer i j
  = (fun x => (x - learningRate * (get (wrow G layer i) j / batchSize))%js)
    <$> entry w layer i j.
Proof.
  unfold entry, sgd. rewrite list_lookup_imap.
  destruct (w !! layer) as [Wl|]; [|reflexivity]. simpl.
  rewrite list_lookup_imap.
  destruct (Wl !! i) as [row|]; [|reflexivity]. simpl.
  apply list_lookup_imap.
Qed.

Lemma mirrors_lookup (w G : weights) :
  mirrors w G <->
  length w = length G
  /\ forall layer Wl Gl, w !! layer = Some Wl -> G !! layer = Some Gl ->
       length Wl = length Gl
       /\ forall i row grow, Wl !! i = Some row -> Gl !! i = Some grow ->
            length row = length grow.
Proof.
  unfold mirrors. rewrite Forall2_same_length_lookup.
  split; intros [Hlen H]; (split; [exact Hlen|]); intros layer Wl Gl Hl HG.
  - apply Forall2_same_length_lookup, (H layer); assumption.
  - apply Forall2_same_length_lookup, (H layer); assumption.
Qed.

Lemma mirrors_sgd (w G : weights) (batchSize : number) :
  mirrors w (sgd w G batchSize).
Proof.
  apply mirrors_lookup. unfold sgd. split; [rewrite length_imap; reflexivity|].
  intros layer Wl Wl' Hl Hl'. rewrite list_lookup_imap, Hl in Hl'.
  injection Hl' as <-. split; [rewrite length_imap; reflexivity|].
  intros i row row' Hi Hi'. rewrite list_lookup_imap, Hi in Hi'.
  injection Hi' as <-. rewrite length_imap. reflexivity.
Qed.

(** The weights that [run] returns are those of the update loop, applied
    to the gradients accumulated over the batch and to the number of its
    samples. *)
Lemma run_updates_weights (fs : files) (w w' : weights) (position : Z)
    (m : metrics) :
  run fs w position = Ok (w', m) ->
  let images := readMNIST fs (position * 10) (position * 10 + 10) in
  exists st,
    forEach images (processImage w)
      {| gradients := zeroGradients; lossSum := Finite 0; correct := 0 |}
    = Ok st
    /\ updateWeights w (gradients st) (Num.of_nat (length images)) = Ok w'.
Proof.
  intros H images. unfold run in H. fold zeroGradients images in H.
  destruct (forEach images (processImage w) _) as [st|e]; [|discriminate].
  rewrite bind_Ok in H. exists st. split; [reflexivity|].
  destruct (updateWeights w (gradients st) _) as [w''|e]; [|discriminate].
  rewrite bind_Ok in H. injection H as -> _. reflexivity.
Qed.

(** C4.  The update is plain SGD: when the gradient matrices mirror the
    three weight matrices, every weight becomes
    [w - learningRate * (gradient / batchSize)] with [learningRate = 0.01],
    the shapes are kept, and the result depends on nothing but the weights,
    the accumulated gradients and the batch size. *)
Theorem updateWeights_plain_sgd (w G : weights) (batchSize : number) :
  length w = 3 -> mirrors w G ->
  exists w',
    updateWeights w G batchSize = Ok w'
    /\ mirrors w w'
    /\ learningRate = Finite (1 / 100)
    /\ forall layer i j x g,
         entry w layer i j = Some x -> entry G layer i j = Some g ->
         entry w' layer i j
         = Some (x - learningRate * (g / batchSize))%js.
Proof.
  intros Hw Hshape. exists (sgd w G batchSize).
  split; [apply updateWeights_closed; assumption|].
  split; [apply mirrors_sgd|].
  split; [reflexivity|].
  intros layer i j x g Hx Hg.
  rewrite entry_sgd, Hx, (entry_wrow G layer i j g Hg). reflexivity.
Qed.

Lemma updateWeights_plain_sgd_witness :
  let w := [[[Finite 1]]; [[Finite 2]]; [[Finite 3; Finite 4]]] in
  let G := [[[Finite 5]]; [[Finite 6]]; [[Finite 7; Finite 8]]] in
  exists w',
    updateWeights w G (Finite 10) = Ok w'
    /\ entry w' 2 0 1
       = Some (Finite 4 - Finite (1 / 100) * (Finite 8 / Finite 10))%js.
Proof.
  intros w G.
  destruct (updateWeights_plain_sgd w G (Finite 10)) as (w' & H1 & _ & _ & H4).
  - reflexivity.
  - repeat constructor.
  - exists w'. split; [exact H1|]. apply (H4 2 0 1); reflexivity.
Defined.

(** ** A batch without samples *)

Lemma readMNIST_unavailable (fs : files) (start end_ : Z) :
  train_images fs = None \/ train_labels fs = None ->
  readMNIST fs start end_ = [].
Proof.
  intros [H|H]; unfold readMNIST; rewrite H; [reflexivity|].
  destruct (train_images fs); reflexivity.
Qed.

Lemma zero_div_zero : (Finite 0 / Finite 0)%js = NaN.
Proof.
  simpl. rewrite Reqb_true. unfold signed_infinity.
  rewrite !Rltb_false by lra. reflexivity.
Qed.

Lemma sub_NaN (x a : number) : (x - a * NaN)%js = NaN.
Proof. destruct x, a; reflexivity. Qed.

Lemma get_replicate_cases (n j : nat) (a : number) :
  get (replicate n a) j = a \/ get (replicate n a) j = NaN.
Proof.
  destruct (decide (j < n)) as [H|H].
  - left. apply get_replicate, H.
  - right. unfold get.
    rewrite (proj1 (lookup_replicate_None n a j)) by lia. reflexivity.
Qed.

Lemma get_zero_row (rows cols i j : nat) :
  get (mrow (createZeroMatrix rows cols) i) j = Finite 0
  \/ get (mrow (createZeroMatrix rows cols) i) j = NaN.
Proof.
  rewrite createZeroMatrix_replicate. unfold mrow.
  destruct (decide (i < rows)) as [H|H].
  - rewrite lookup_replicate_2 by exact H. apply get_replicate_cases.
  - rewrite (proj1 (lookup_replicate_None rows _ i)) by lia.
    right. reflexivity.
Qed.

Lemma get_zeroGradients (layer i j : nat) :
  get (wrow zeroGradients layer i) j = Finite 0
  \/ get (wrow zeroGradients layer i) j = NaN.
Proof.
  unfold wrow, zeroGradients.
  destruct layer as [|[|[|layer]]]; simpl; try apply get_zero_row.
  right. reflexivity.
Qed.

Lemma sgd_zero_batch (w : weights) :
  sgd w zeroGradients (Finite 0)
  = (fun Wl : matrix =>
       (fun row : list number => (fun _ => NaN) <$> row) <$> Wl)
    <$> w.
Proof.
  unfold sgd. rewrite <- imap_const. apply imap_ext. intros layer Wl _.
  unfold const. rewrite <- imap_const. apply imap_ext. intros i row _.
  unfold const. rewrite <- imap_const. apply imap_ext. intros j x _.
  unfold const.
  destruct (get_zeroGradients layer i j) as [E|E]; rewrite E.
  - rewrite zero_div_zero. apply sub_NaN.
  - apply sub_NaN.
Qed.

Lemma run_without_samples (fs : files) (w : weights) (position : Z) :
  readMNIST fs (position * 10) (position * 10 + 10) = [] ->
  mirrors w zeroGradients ->
  run fs w position
  = Ok ((fun Wl : matrix =>
           (fun row : list number => (fun _ => NaN) <$> row) <$> Wl) <$> w,
        {| loss := NaN; accuracy := NaN |}).
Proof.
  intros Himages Hshape. unfold run. rewrite Himages. simpl forEach.
  rewrite bind_Ok. simpl length. change (Num.of_nat 0) with (Finite 0).
  fold zeroGradients.
  rewrite updateWeights_closed.
  - rewrite bind_Ok, sgd_zero_batch. cbn [gradients lossSum correct].
    change (Num.of_nat 0) with (Finite 0).
    rewrite zero_div_zero. reflexivity.
  - rewrite (Forall2_length _ _ _ Hshape). reflexivity.
  - exact Hshape.
Qed.

Lemma mirrors_refl (w : weights) : mirrors w w.
Proof.
  unfold mirrors. apply Forall_Forall2_diag, Forall_forall. intros Wl _.
  apply Forall_Forall2_diag, Forall_forall. intros row _. reflexivity.
Qed.

(** C5, as the code has it.  A batch without samples divides by a batch
    size of zero with no guard: on weights of the shapes of the gradient
    matrices (16 x 784, 16 x 16, 10 x 16) nothing is thrown, [0 / 0] is
    NaN, the metrics are NaN and every weight is overwritten with NaN. *)
Theorem run_empty_batch (fs : files) (w : weights) (position : Z) :
  readMNIST fs (position * 10) (position * 10 + 10) = [] ->
  mirrors w zeroGradients ->
  run fs w position
  = Ok ((fun Wl : matrix =>
           (fun row : list number => (fun _ => NaN) <$> row) <$> Wl) <$> w,
        {| loss := NaN; accuracy := NaN |}).
Proof. apply run_without_samples. Qed.

Lemma run_empty_batch_witness :
  let fs := {| train_images := None; train_labels := None |} in
  exists w',
    run fs zeroGradients 7 = Ok (w', {| loss := NaN; accuracy := NaN |}).
Proof.
  eexists. apply (run_empty_batch _ zeroGradients 7).
  - reflexivity.
  - apply mirrors_refl.
Defined.

(** C5 fails as stated: nothing guards the division by the batch size.
    Without the dataset files the batch is empty, and the run turns the
    weight 0 into [0 - 0.01 * (0 / 0)], which is NaN. *)
Lemma run_empty_batch_unguarded :
  let fs := {| train_images := None; train_labels := None |} in
  let w := [createZeroMatrix 16 784; createZeroMatrix 16 16;
            createZeroMatrix 10 16] in
  exists w',
    run fs w 0 = Ok (w', {| loss := NaN; accuracy := NaN |})
    /\ entry w 0 0 0 = Some (Finite 0)
    /\ entry w' 0 0 0 = Some NaN.
Proof.
  eexists. split; [|split].
  - apply (run_without_samples _ zeroGradients 0);
      [reflexivity | apply mirrors_refl].
  - reflexivity.
  - reflexivity.
Qed.

(** ** The backward pass for one sample *)

Lemma softmax_total (arr : list number) :
  arr <> [] ->
  exists output, softmax arr = Ok output /\ length output = length arr.
Proof.
  intros Hne. unfold softmax.
  destruct arr as [|a arr]; [congruence|].
  eexists. split; [reflexivity|].
  rewrite !length_fmap. reflexivity.
Qed.

Lemma length_forwardLayer (x : list number) (W : matrix) :
  length (forwardLayer x W) = length W.
Proof. unfold forwardLayer. apply length_fmap. Qed.

Lemma get_outputDelta (output target : list number) (i : nat) :
  i < length output ->
  get (outputDelta output target) i = (get output i - get target i)%js.
Proof.
  intros H. unfold get at 1. unfold outputDelta.
  rewrite list_lookup_imap, (lookup_get output i H). reflexivity.
Qed.

Lemma get_reluDerivative (da z : list number) (i : nat) :
  i < length da ->
  get (reluDerivative da z) i
  = if (get z i > Finite 0)%js then get da i else Finite 0.
Proof.
  intros H. unfold get at 1. unfold reluDerivative.
  rewrite list_lookup_imap, (lookup_get da i H). reflexivity.
Qed.

Lemma entry_addOuter (dz a : list number) (Gl : matrix) (i j : nat)
    (g : number) :
  Gl !! i ≫= (.!! j) = Some g ->
  addOuter dz a Gl !! i ≫= (.!! j) = Some (g + get dz i * get a j)%js.
Proof.
  unfold addOuter. rewrite list_lookup_imap.
  destruct (Gl !! i) as [grow|]; [|discriminate]. simpl.
  rewrite list_lookup_imap. intros ->. reflexivity.
Qed.

Lemma shape_addOuter (W : matrix) (dz a : list number) (Gl : matrix) :
  Forall2 (fun row grow : list number => length row = length grow) W Gl ->
  Forall2 (fun row grow : list number => length row = length grow) W
          (addOuter dz a Gl).
Proof.
  intros H. apply Forall2_same_length_lookup.
  apply Forall2_same_length_lookup in H as [Hlen H].
  unfold addOuter. split; [rewrite length_imap; exact Hlen|].
  intros i row grow' Hrow Hgrow'. rewrite list_lookup_imap in Hgrow'.
  destruct (Gl !! i) as [grow|] eqn:Hgrow; [|discriminate].
  injection Hgrow' as <-. rewrite length_imap. apply (H i); assumption.
Qed.

(** What the callback leaves in the state, given the output of the forward
    pass. *)
Lemma processImage_closed (W0 W1 W2 G0 G1 G2 : matrix) (image : sample)
    (st : batch) (output : list number) :
  gradients st = [G0; G1; G2] ->
  Forall2 (fun row grow : list number => length row = length grow) W0 G0 ->
  Forall2 (fun row grow : list number => length row = length grow) W1 G1 ->
  Forall2 (fun row grow : list number => length row = length grow) W2 G2 ->
  let target := oneHot (label image) in
  let normalizedPixels := normalizePixels (pixels image) in
  let z0 := forwardLayer normalizedPixels W0 in
  let a0 := relu <$> z0 in
  let z1 := forwardLayer a0 W1 in
  let a1 := relu <$> z1 in
  let z2 := forwardLayer a1 W2 in
  softmax z2 = Ok output ->
  let dz2 := outputDelta output target in
  let da1 := (fun j => sum_upto (length dz2)
                (fun i => (get (mrow W2 i) j * get dz2 i)%js))
             <$> seq 0 (length a1) in
  let dz1 := reluDerivative da1 z1 in
  let da0 := (fun j => sum_upto (length dz1)
                (fun i => (get (mrow W1 i) j * get dz1 i)%js))
             <$> seq 0 (length a0) in
  let dz0 := reluDerivative da0 z0 in
  processImage [W0; W1; W2] image st
  = Ok {| gradients := [addOuter dz0 normalizedPixels G0;
                        addOuter dz1 a0 G1;
                        addOuter dz2 a1 G2];
          lossSum := (lossSum st + crossEntropyLoss output target)%js;
          correct := if same_label (indexOf output (Num.max output))
                                   (label image)
                     then S (correct st) else correct st |}.
Proof.
  intros HG H0 H1 H2 target normalizedPixels z0 a0 z1 a1 z2 Hsoft
         dz2 da1 dz1 da0 dz0.
  assert (Hout : length output = length W2).
  { destruct output as [|o output'] eqn:Eo.
    - unfold softmax in Hsoft. destruct z2 eqn:Ez; [discriminate|].
      simpl in Hsoft. discriminate.
    - rewrite <- Eo in *. assert (Hz2 : z2 <> []).
      { intros E. rewrite E in Hsoft. discriminate. }
      destruct (softmax_total z2 Hz2) as (o' & Ho' & Hlen).
      rewrite Hsoft in Ho'. injection Ho' as <-.
      rewrite Hlen. apply length_forwardLayer. }
  assert (Hdz2 : length dz2 <= length W2).
  { unfold dz2, outputDelta. rewrite length_imap, Hout. reflexivity. }
  assert (Hdz1 : length dz1 <= length W1).
  { unfold dz1, reluDerivative, da1.
    rewrite length_imap, length_fmap, length_seq.
    unfold a1. rewrite length_fmap. unfold z1.
    rewrite length_forwardLayer. reflexivity. }
  unfold processImage. cbv zeta.
  change (array_get [W0; W1; W2] 0) with (Ok W0).
  change (array_get [W0; W1; W2] 1) with (Ok W1).
  change (array_get [W0; W1; W2] 2) with (Ok W2).
  rewrite !bind_Ok. fold target normalizedPixels z0 a0 z1 a1 z2.
  rewrite Hsoft, bind_Ok. fold dz2.
  rewrite HG.
  rewrite (accumulate_closed 2 W2 dz2 a1 [G0; G1; G2] G2 eq_refl H2), bind_Ok.
  rewrite (backpropagate_closed W2 dz2 (length a1) Hdz2), bind_Ok.
  fold da1 dz1.
  change (<[2 := addOuter dz2 a1 G2]> [G0; G1; G2])
    with [G0; G1; addOuter dz2 a1 G2].
  rewrite (accumulate_closed 1 W1 dz1 a0
             [G0; G1; addOuter dz2 a1 G2] G1 eq_refl H1), bind_Ok.
  change (<[1 := addOuter dz1 a0 G1]> [G0; G1; addOuter dz2 a1 G2])
    with [G0; addOuter dz1 a0 G1; addOuter dz2 a1 G2].
  rewrite (backpropagate_closed W1 dz1 (length a0) Hdz1), bind_Ok.
  fold da0 dz0.
  rewrite (accumulate_closed 0 W0 dz0 normalizedPixels
             [G0; addOuter dz1 a0 G1; addOuter dz2 a1 G2] G0 eq_refl H0),
    bind_Ok.
  reflexivity.
Qed.

(** C1.  For a sample, with gradient matrices that mirror the weight
    matrices, the backward pass follows the recurrences: the output delta
    is [output - target]; the delta of a hidden layer is the product with
    the transposed weight matrix of the layer above, masked by the sign of
    the layer's own [z]; and each gradient matrix receives, added to what
    it held, the outer product of the layer's delta with the layer's
    input. *)
Theorem processImage_backward (W0 W1 W2 : matrix) (image : sample)
    (st : batch) :
  W2 <> [] ->
  mirrors [W0; W1; W2] (gradients st) ->
  let target := oneHot (label image) in
  let normalizedPixels := normalizePixels (pixels image) in
  let z0 := forwardLayer normalizedPixels W0 in
  let a0 := relu <$> z0 in
  let z1 := forwardLayer a0 W1 in
  let a1 := relu <$> z1 in
  let z2 := forwardLayer a1 W2 in
  exists output dz2 da1 dz1 da0 dz0 st',
    softmax z2 = Ok output
    /\ processImage [W0; W1; W2] image st = Ok st'
    /\ (length dz2 = length output
        /\ forall i, i < length output ->
             get dz2 i = (get output i - get target i)%js)
    /\ (length da1 = length a1
        /\ forall j, j < length a1 ->
             get da1 j
             = sum_upto (length W2)
                 (fun i => (get (mrow W2 i) j * get dz2 i)%js))
    /\ (length dz1 = length a1
        /\ forall j, j < length a1 ->
             get dz1 j
             = if (get z1 j > Finite 0)%js then get da1 j else Finite 0)
    /\ (length da0 = length a0
        /\ forall j, j < length a0 ->
             get da0 j
             = sum_upto (length W1)
                 (fun i => (get (mrow W1 i) j * get dz1 i)%js))
    /\ (length dz0 = length a0
        /\ forall j, j < length a0 ->
             get dz0 j
             = if (get z0 j > Finite 0)%js then get da0 j else Finite 0)
    /\ mirrors [W0; W1; W2] (gradients st')
    /\ (forall i j g, entry (gradients st) 2 i j = Some g ->
          entry (gradients st') 2 i j
          = Some (g + get dz2 i * get a1 j)%js)
    /\ (forall i j g, entry (gradients st) 1 i j = Some g ->
          entry (gradients st') 1 i j
          = Some (g + get dz1 i * get a0 j)%js)
    /\ (forall i j g, entry (gradients st) 0 i j = Some g ->
          entry (gradients st') 0 i j
          = Some (g + get dz0 i * get normalizedPixels j)%js).
Proof.
  intros Hne Hshape target normalizedPixels z0 a0 z1 a1 z2.
  unfold mirrors in Hshape.
  apply Forall2_cons_inv_l in Hshape as (G0 & Gs & H0 & Hshape & HG).
  apply Forall2_cons_inv_l in Hshape as (G1 & Gs' & H1 & Hshape & ->).
  apply Forall2_cons_inv_l in Hshape as (G2 & Gs'' & H2 & Hshape & ->).
  apply Forall2_nil_inv_l in Hshape as ->.
  assert (Hz2 : length z2 = length W2) by apply length_forwardLayer.
  assert (Hz2ne : z2 <> []).
  { intros E. rewrite E in Hz2. destruct W2; [congruence | discriminate]. }
  destruct (softmax_total z2 Hz2ne) as (output & Hsoft & Hout).
  pose proof (processImage_closed W0 W1 W2 G0 G1 G2 image st output
                HG H0 H1 H2 Hsoft) as Hrun.
  cbv zeta in Hrun. fold target normalizedPixels z0 a0 z1 a1 z2 in Hrun.
  set (dz2 := outputDelta output target) in *.
  set (da1 := (fun j => sum_upto (length dz2)
                 (fun i => (get (mrow W2 i) j * get dz2 i)%js))
              <$> seq 0 (length a1)) in *.
  set (dz1 := reluDerivative da1 z1) in *.
  set (da0 := (fun j => sum_upto (length dz1)
                 (fun i => (get (mrow W1 i) j * get dz1 i)%js))
              <$> seq 0 (length a0)) in *.
  set (dz0 := reluDerivative da0 z0) in *.
  assert (Ldz2 : length dz2 = length output) by apply length_imap.
  assert (Lda1 : length da1 = length a1)
    by (unfold da1; rewrite length_fmap, length_seq; reflexivity).
  assert (Ldz1 : length dz1 = length a1)
    by (unfold dz1, reluDerivative; rewrite length_imap; exact Lda1).
  assert (Lda0 : length da0 = length a0)
    by (unfold da0; rewrite length_fmap, length_seq; reflexivity).
  assert (Ldz0 : length dz0 = length a0)
    by (unfold dz0, reluDerivative; rewrite length_imap; exact Lda0).
  assert (La1 : length a1 = length W1).
  { unfold a1. rewrite length_fmap. apply length_forwardLayer. }
  eexists output, dz2, da1, dz1, da0, dz0, _.
  split; [exact Hsoft|]. split; [exact Hrun|].
  split; [split; [exact Ldz2 | intros i Hi; apply get_outputDelta, Hi]|].
  split.
  { split; [exact Lda1|]. intros j Hj. unfold get at 1. unfold da1.
    rewrite list_lookup_fmap, lookup_seq_lt by exact Hj. simpl.
    rewrite Ldz2, Hout, Hz2. reflexivity. }
  split.
  { split; [exact Ldz1|]. intros j Hj. apply get_reluDerivative.
    rewrite Lda1. exact Hj. }
  split.
  { split; [exact Lda0|]. intros j Hj. unfold get at 1. unfold da0.
    rewrite list_lookup_fmap, lookup_seq_lt by exact Hj. simpl.
    rewrite Ldz1, La1. reflexivity. }
  split.
  { split; [exact Ldz0|]. intros j Hj. apply get_reluDerivative.
    rewrite Lda0. exact Hj. }
  cbn [gradients]. rewrite HG.
  split.
  { unfold mirrors. repeat constructor; apply shape_addOuter; assumption. }
  split; [|split]; intros i j g Hg.
  - change (entry [G0; G1; G2] 2 i j) with (G2 !! i ≫= (.!! j)) in Hg.
    apply (entry_addOuter dz2 a1 G2 i j g Hg).
  - change (entry [G0; G1; G2] 1 i j) with (G1 !! i ≫= (.!! j)) in Hg.
    apply (entry_addOuter dz1 a0 G1 i j g Hg).
  - change (entry [G0; G1; G2] 0 i j) with (G0 !! i ≫= (.!! j)) in Hg.
    apply (entry_addOuter dz0 normalizedPixels G0 i j g Hg).
Qed.

Lemma processImage_backward_witness :
  let image := {| index := 0; label := Some 1; pixels := [Finite 1] |} in
  let st := {| gradients := [[[Finite 0]]; [[Finite 0]];
                             [[Finite 0]; [Finite 0]]];
               lossSum := Finite 0; correct := 0 |} in
  exists st',
    processImage [[[Finite 1]]; [[Finite 1]]; [[Finite 1]; [Finite 2]]]
                 image st = Ok st'
    /\ mirrors [[[Finite 1]]; [[Finite 1]]; [[Finite 1]; [Finite 2]]]
               (gradients st').
Proof.
  intros image st.
  destruct (processImage_backward [[Finite 1]] [[Finite 1]]
              [[Finite 1]; [Finite 2]] image st)
    as (output & dz2 & da1 & dz1 & da0 & dz0 & st' & _ & Hrun & _ & _ & _
        & _ & _ & Hshape & _).
  - discriminate.
  - repeat constructor.
  - exists st'. split; [exact Hrun | exact Hshape].
Defined.

(** ** Loading the weights *)

Lemma initializeWeights_row (random : nat -> number) (std : number)
    (js : list nat) (row : list number) (drawn : nat) :
  length (foldl (fun '(row, drawn) (j : nat) =>
                   let u1 := random drawn in
                   let u2 := random (S drawn) in
                   let z := (Num.sqrt (Finite (-2) * Num.log u1)
                             * Num.cos (Finite 2 * Finite PI * u2))%js in
                   (row ++ [(z * std)%js], S (S drawn)))
                (row, drawn) js).1
  = length row + length js.
Proof.
  revert row drawn. induction js as [|j js IH]; intros row drawn; simpl.
  - lia.
  - rewrite IH, length_app. simpl. lia.
Qed.

Lemma initializeWeights_shape (random : nat -> number)
    (numInputs numNeurons drawn : nat) :
  has_shape numNeurons numInputs
    (initializeWeights random numInputs numNeurons drawn).1.
Proof.
  unfold initializeWeights.
  set (std := Num.sqrt (Finite 2 / Num.of_nat numInputs)%js).
  set (mkrow := fun '(row, drawn) (j : nat) =>
                  let u1 := random drawn in
                  let u2 := random (S drawn) in
                  let z := (Num.sqrt (Finite (-2) * Num.log u1)
                            * Num.cos (Finite 2 * Finite PI * u2))%js in
                  (row ++ [(z * std)%js], S (S drawn))).
  set (step := fun '(weights, drawn) (i : nat) =>
                 let '(row, drawn) :=
                   foldl mkrow ([], drawn) (seq 0 numInputs) in
                 (weights ++ [row], drawn)).
  assert (H : forall (ks : list nat) (W : matrix) (d : nat),
             Forall (fun row => length row = numInputs) W ->
             length (foldl step (W, d) ks).1 = length W + length ks
             /\ Forall (fun row => length row = numInputs)
                       (foldl step (W, d) ks).1).
  { induction ks as [|i ks IH]; intros W d HW; simpl.
    - split; [lia | exact HW].
    - pose proof (initializeWeights_row random std (seq 0 numInputs) [] d)
        as Hrow.
      fold mkrow in Hrow.
      destruct (foldl mkrow ([], d) (seq 0 numInputs)) as [row d'].
      simpl in Hrow. rewrite length_seq in Hrow.
      destruct (IH (W ++ [row]) d') as [IH1 IH2].
      + apply Forall_app. split; [exact HW|].
        constructor; [exact Hrow | constructor].
      + split; [|exact IH2]. rewrite IH1, length_app. simpl. lia. }
  destruct (H (seq 0 numNeurons) [] drawn) as [H1 H2]; [constructor|].
  rewrite length_seq in H1. split; assumption.
Qed.



(** ** The sample loader *)

Lemma pixel_in_unit_interval (buffer : list byte) (k : Z) :
  (0 <= k < Z.of_nat (length buffer))%Z ->
  in_unit_interval
    (toNumber (Num.of_nat <$> buffer_get buffer k) / Finite 255)%js.
Proof.
  intros Hk. unfold buffer_get.
  destruct (Z.ltb_spec k 0) as [?|_]; [lia|].
  assert (Hlt : Z.to_nat k < length buffer) by lia.
  destruct (lookup_lt_is_Some_2 buffer _ Hlt) as [b Hb].
  rewrite Hb. simpl. rewrite Reqb_false by lra.
  exists (INR (Byte.to_nat b) / 255)%R. split; [reflexivity|].
  pose proof (Byte.to_nat_bounded b) as Hb255.
  pose proof (pos_INR (Byte.to_nat b)) as H0.
  apply le_INR in Hb255.
  replace (INR 255) with 255%R in Hb255 by (simpl; lra).
  split.
  - apply Rmult_le_pos; [exact H0 | lra].
  - apply Rmult_le_reg_r with 255%R; [lra|]. unfold Rdiv.
    rewrite Rmult_assoc, Rinv_l by lra. lra.
Qed.

Lemma readMNIST_sample (images labels : list byte) (start end_ : Z)
    (k : nat) (s : sample) :
  readMNIST {| train_images := Some images; train_labels := Some labels |}
            start end_ !! k = Some s ->
  let image := (start + Z.of_nat k)%Z in
  (Z.of_nat k < Z.min end_ 60000 - start)%Z
  /\ index s = image
  /\ label s = buffer_get labels (image + 8)
  /\ pixels s
     = (y ← seq 0 28;
        x ← seq 0 28;
        let k := (image * 28 * 28
                  + (Z.of_nat x + Z.of_nat y * 28) + 16)%Z in
        [(toNumber (Num.of_nat <$> buffer_get images k) / Finite 255)%js]).
Proof.
  unfold readMNIST. simpl. rewrite list_lookup_fmap.
  destruct (seqZ start (Z.min end_ 60000 - start) !! k) as [image|] eqn:E;
    [|discriminate].
  apply lookup_seqZ in E as [-> Hk]. simpl. intros [= <-].
  repeat split. exact Hk.
Qed.

Lemma bind_singleton_fmap {A B} (g : A -> B) (l : list A) :
  l ≫= (fun x => [g x]) = g <$> l.
Proof.
  induction l as [|x l IH]; [reflexivity|].
  rewrite bind_cons, IH. reflexivity.
Qed.

(** Two nested loops that push one value per turn fill the array row by
    row. *)
Lemma nested_loops_flat {A} (F : nat -> nat -> A) (a b : nat) :
  0 < b ->
  (y ← seq 0 a; x ← seq 0 b; [F x y])
  = (fun j => F (j mod b) (j / b)) <$> seq 0 (a * b).
Proof.
  intros Hb. induction a as [|a IH]; [reflexivity|].
  rewrite seq_S, bind_app, IH. simpl seq at 2.
  rewrite bind_singleton, bind_singleton_fmap.
  replace (S a * b) with (a * b + b) by lia.
  rewrite seq_app, fmap_app. f_equal. simpl.
  replace (seq (a * b) b) with (Nat.add (a * b) <$> seq 0 b)
    by (rewrite fmap_add_seq; f_equal; lia).
  rewrite <- list_fmap_compose.
  apply list_fmap_ext. intros i x Hx. apply lookup_seq in Hx as [-> Hx].
  simpl.
  replace (a * b + i) with (i + a * b) by lia.
  rewrite Nat.Div0.mod_add, Nat.div_add by lia.
  rewrite Nat.mod_small, Nat.div_small by exact Hx. reflexivity.
Qed.






(** ** A batch on weights of the expected shapes *)

Lemma processImage_keeps_shape (W0 W1 W2 : matrix) (image : sample)
    (st : batch) :
  W2 <> [] ->
  mirrors [W0; W1; W2] (gradients st) ->
  exists st',
    processImage [W0; W1; W2] image st = Ok st'
    /\ mirrors [W0; W1; W2] (gradients st').
Proof.
  intros Hne Hshape. unfold mirrors in Hshape.
  apply Forall2_cons_inv_l in Hshape as (G0 & Gs & H0 & Hshape & HG).
  apply Forall2_cons_inv_l in Hshape as (G1 & Gs' & H1 & Hshape & ->).
  apply Forall2_cons_inv_l in Hshape as (G2 & Gs'' & H2 & Hshape & ->).
  apply Forall2_nil_inv_l in Hshape as ->.
  set (x := normalizePixels (pixels image)).
  set (a1 := relu <$> forwardLayer (relu <$> forwardLayer x W0) W1).
  assert (Hz2 : forwardLayer a1 W2 <> []).
  { intros E. apply (f_equal length) in E.
    rewrite length_forwardLayer in E.
    destruct W2; [congruence | discriminate]. }
  destruct (softmax_total _ Hz2) as (output & Hsoft & _).
  pose proof (processImage_closed W0 W1 W2 G0 G1 G2 image st output
                HG H0 H1 H2 Hsoft) as Hrun.
  cbv zeta in Hrun. eexists. split; [exact Hrun|].
  cbn [gradients]. unfold mirrors.
  repeat constructor; apply shape_addOuter; assumption.
Qed.

Lemma forEach_keeps_shape (W0 W1 W2 : matrix) (images : list sample)
    (st : batch) :
  W2 <> [] ->
  mirrors [W0; W1; W2] (gradients st) ->
  exists st',
    forEach images (processImage [W0; W1; W2]) st = Ok st'
    /\ mirrors [W0; W1; W2] (gradients st').
Proof.
  intros Hne. revert st.
  induction images as [|image images IH]; intros st Hshape; simpl.
  - exists st. split; [reflexivity | exact Hshape].
  - destruct (processImage_keeps_shape W0 W1 W2 image st Hne Hshape)
      as (st1 & Hrun & Hshape1).
    rewrite Hrun, bind_Ok. apply IH, Hshape1.
Qed.

(** On weights of the expected shapes a batch throws nothing and keeps the
    shapes. *)
Lemma run_keeps_shape (fs : files) (w : weights) (position : Z) :
  mirrors w zeroGradients ->
  exists w' m, run fs w position = Ok (w', m) /\ mirrors w w'.
Proof.
  intros Hshape.
  assert (Hlen : length w = 3)
    by (rewrite (Forall2_length _ _ _ Hshape); reflexivity).
  destruct w as [|W0 [|W1 [|W2 [|W3 w]]]]; try discriminate.
  assert (Hne : W2 <> []).
  { intros ->. unfold mirrors, zeroGradients in Hshape.
    apply Forall2_cons_1 in Hshape as [_ Hshape].
    apply Forall2_cons_1 in Hshape as [_ Hshape].
    apply Forall2_cons_1 in Hshape as [Hshape _].
    apply Forall2_length in Hshape.
    rewrite createZeroMatrix_replicate in Hshape. discriminate. }
  unfold run. fold zeroGradients.
  destruct (forEach_keeps_shape W0 W1 W2
              (readMNIST fs (position * 10) (position * 10 + 10))
              {| gradients := zeroGradients; lossSum := Finite 0;
                 correct := 0 |} Hne Hshape)
    as (st & Hst & Hshape').
  rewrite Hst, bind_Ok, updateWeights_closed, bind_Ok by assumption.
  eexists _, _. split; [reflexivity | apply mirrors_sgd].
Qed.

(** ** The model on small inputs *)

Example relu_negative : relu (Finite (-3)) = Finite 0.
Proof. unfold relu, Num.max. simpl. apply Finite_eq, Rmax_left. lra. Qed.

Example relu_NaN : relu NaN = NaN.
Proof. reflexivity. Qed.

Example forwardLayer_2_1 :
  forwardLayer [Finite 1; Finite 2] [[Finite 3; Finite 4]] = [Finite 11].
Proof. unfold forwardLayer. simpl. f_equal. apply Finite_eq. lra. Qed.

Example forwardLayer_short_row :
  forwardLayer [Finite 1; Finite 2] [[Finite 3]] = [NaN].
Proof. reflexivity. Qed.

Example softmax_empty : softmax [] = Throw TypeError.
Proof. reflexivity. Qed.

Example store_past_the_end :
  store [Finite 0] 2 (Finite 1) = [Finite 0; NaN; Finite 1].
Proof. reflexivity. Qed.

Example oneHot_undefined : oneHot None = replicate 10 (Finite 0).
Proof. reflexivity. Qed.

Example crossEntropyLoss_zero_probability :
  crossEntropyLoss [Finite 0; Finite 1] [Finite 1; Finite 0] = Finite 0.
Proof.
  unfold crossEntropyLoss. simpl.
  rewrite (Rltb_false 0 0) by lra. rewrite (Rltb_true 0 1) by lra. simpl.
  apply Finite_eq. rewrite ln_1. lra.
Qed.

Example accumulate_missing_row :
  accumulate 0 [[Finite 1]; [Finite 1]] [Finite 1; Finite 1] [Finite 1]
             [[[Finite 0]]]
  = Throw TypeError.
Proof. reflexivity. Qed.

(** On doubles the subtraction of the maximum keeps the exponential from
    overflowing: two equal logits give one half each, however large they
    are, through [Math.exp(0)] alone. *)
Example softmax_double_large_logits :
  Double.softmax [1000%float; 1000%float]
  = Some (Ok [0.5%float; 0.5%float]).
Proof. vm_compute. reflexivity. Qed.

(** On doubles a probability can be 0: the difference of the two logits
    overflows to [-Infinity], whose exponential is 0. *)
Example softmax_double_zero_probability :
  Double.softmax [0x1p1023%float; (-0x1p1023)%float]
  = Some (Ok [1%float; 0%float]).
Proof. vm_compute. reflexivity. Qed.

(** * Further properties *)

(** ** relu *)

Lemma relu_finite (r : R) : relu (Finite r) = Finite (Rmax 0 r).
Proof. reflexivity. Qed.

(** X1.  [relu] is idempotent, leaves a positive number as it is, sends
    every other number but NaN to 0 and NaN to NaN, and is positive exactly
    where its argument is: the mask [z > 0] of the backward pass is the
    mask of the activation. *)
Theorem relu_mask (z : number) :
  relu (relu z) = relu z
  /\ (relu z > Finite 0)%js = (z > Finite 0)%js
  /\ ((z > Finite 0)%js = true -> relu z = z)
  /\ ((z > Finite 0)%js = false -> z <> NaN -> relu z = Finite 0)
  /\ (z = NaN -> relu z = NaN).
Proof.
  destruct z as [r| | |].
  - rewrite !relu_finite. simpl. unfold Rltb, Rmax.
    split; [|split; [|split; [|split]]].
    + apply Finite_eq. repeat destruct (Rle_dec _ _); lra.
    + destruct (Rle_dec 0 r); repeat destruct (Rlt_dec _ _);
        try reflexivity; lra.
    + destruct (Rlt_dec 0 r); [|discriminate]. intros _.
      apply Finite_eq. destruct (Rle_dec 0 r); lra.
    + destruct (Rlt_dec 0 r); [discriminate|]. intros _ _.
      apply Finite_eq. destruct (Rle_dec 0 r); lra.
    + discriminate.
  - split; [reflexivity|]. split; [reflexivity|].
    split; [reflexivity|]. split; discriminate.
  - change (relu NegInfinity) with (Finite 0). rewrite relu_finite.
    simpl. rewrite Rltb_false by lra.
    split; [apply Finite_eq, Rmax_left; lra|].
    split; [reflexivity|]. split; [discriminate|].
    split; [reflexivity | discriminate].
  - split; [reflexivity|]. split; [reflexivity|].
    split; [discriminate|]. split; [congruence | reflexivity].
Qed.

Lemma relu_mask_witness :
  relu (Finite 2) = Finite 2 /\ relu (Finite (-2)) = Finite 0
  /\ relu NaN = NaN.
Proof.
  split; [|split].
  - apply (relu_mask (Finite 2)). simpl. apply Rltb_true. lra.
  - apply (relu_mask (Finite (-2))).
    + simpl. apply Rltb_false. lra.
    + discriminate.
  - apply (relu_mask NaN). reflexivity.
Defined.

(** ** createZeroMatrix *)

(** X2.  [createZeroMatrix rows cols] has [rows] rows of [cols] entries,
    all of them 0. *)
Theorem createZeroMatrix_zeros (rows cols : nat) :
  has_shape rows cols (createZeroMatrix rows cols)
  /\ forall i j, i < rows -> j < cols ->
       createZeroMatrix rows cols !! i ≫= (.!! j) = Some (Finite 0).
Proof.
  rewrite createZeroMatrix_replicate. split; [split|].
  - apply length_replicate.
  - apply Forall_replicate. apply length_replicate.
  - intros i j Hi Hj. rewrite lookup_replicate_2 by exact Hi. simpl.
    apply lookup_replicate_2, Hj.
Qed.

Lemma createZeroMatrix_zeros_witness :
  createZeroMatrix 10 16 !! 9 ≫= (.!! 15) = Some (Finite 0).
Proof. apply (createZeroMatrix_zeros 10 16); lia. Defined.

(** ** initializeWeights *)

Lemma initializeWeights_row_closed (random : nat -> number) (std : number)
    (js : list nat) (row : list number) (drawn : nat) :
  foldl (fun '(row, drawn) (j : nat) =>
           let u1 := random drawn in
           let u2 := random (S drawn) in
           let z := (Num.sqrt (Finite (-2) * Num.log u1)
                     * Num.cos (Finite 2 * Finite PI * u2))%js in
           (row ++ [(z * std)%js], S (S drawn)))
        (row, drawn) js
  = (row ++ imap (fun k _ => gaussianWeight random std (drawn + 2 * k)) js,
     drawn + 2 * length js).
Proof.
  revert row drawn. induction js as [|j js IH]; intros row drawn; simpl.
  - rewrite app_nil_r. f_equal. lia.
  - rewrite IH, <- app_assoc. f_equal; [|lia]. f_equal. simpl. f_equal.
    + unfold gaussianWeight. rewrite Nat.add_0_r. reflexivity.
    + apply imap_ext. intros k ? _. unfold compose. cbv beta. f_equal. lia.
Qed.

Lemma initializeWeights_closed (random : nat -> number)
    (numInputs numNeurons drawn : nat) :
  let std := Num.sqrt (Finite 2 / Num.of_nat numInputs)%js in
  initializeWeights random numInputs numNeurons drawn
  = (imap (fun i _ =>
             imap (fun j _ =>
                     gaussianWeight random std
                       (drawn + 2 * (i * numInputs + j)))
                  (seq 0 numInputs))
          (seq 0 numNeurons),
     drawn + 2 * numInputs * numNeurons).
Proof.
  intros std. unfold initializeWeights. fold std.
  set (mkrow := fun '(row, drawn) (j : nat) =>
                  let u1 := random drawn in
                  let u2 := random (S drawn) in
                  let z := (Num.sqrt (Finite (-2) * Num.log u1)
                            * Num.cos (Finite 2 * Finite PI * u2))%js in
                  (row ++ [(z * std)%js], S (S drawn))).
  set (step := fun '(weights, drawn) (i : nat) =>
                 let '(row, drawn) :=
                   foldl mkrow ([], drawn) (seq 0 numInputs) in
                 (weights ++ [row], drawn)).
  assert (H : forall (ks : list nat) (W : matrix) (d : nat),
             foldl step (W, d) ks
             = (W ++ imap (fun i _ =>
                             imap (fun j _ =>
                                     gaussianWeight random std
                                       (d + 2 * (i * numInputs + j)))
                                  (seq 0 numInputs)) ks,
                d + 2 * numInputs * length ks)).
  { induction ks as [|i ks IH]; intros W d; simpl.
    - rewrite app_nil_r. f_equal. nia.
    - pose proof (initializeWeights_row_closed random std
                    (seq 0 numInputs) [] d) as Hrow.
      fold mkrow in Hrow. rewrite Hrow.
      rewrite IH, length_seq, <- app_assoc. simpl.
      f_equal; [|rewrite Nat.mul_succ_r; lia].
      do 2 f_equal. apply imap_ext. intros k ? _. unfold compose.
      apply imap_ext. intros k' ? _. simpl. f_equal. lia. }
  rewrite H, length_seq. reflexivity.
Qed.

(** X3.  [initializeWeights] returns a matrix of [numNeurons] rows of
    [numInputs] weights and makes two draws for each weight, in row order:
    the weight [i][j] is the Box-Muller transform of the draws number
    [2 (i numInputs + j)] and the next one, times the standard deviation
    [sqrt (2 / numInputs)]; no draw serves twice. *)
Theorem initializeWeights_draws (random : nat -> number)
    (numInputs numNeurons drawn : nat) :
  let std := Num.sqrt (Finite 2 / Num.of_nat numInputs)%js in
  let W := (initializeWeights random numInputs numNeurons drawn).1 in
  has_shape numNeurons numInputs W
  /\ (initializeWeights random numInputs numNeurons drawn).2
     = drawn + 2 * numInputs * numNeurons
  /\ forall i j, i < numNeurons -> j < numInputs ->
       W !! i ≫= (.!! j)
       = Some (gaussianWeight random std (drawn + 2 * (i * numInputs + j))).
Proof.
  intros std W. split; [apply initializeWeights_shape|].
  unfold W. rewrite initializeWeights_closed. fold std. simpl.
  split; [reflexivity|].
  intros i j Hi Hj.
  rewrite list_lookup_imap, lookup_seq_lt by exact Hi. simpl.
  rewrite list_lookup_imap, lookup_seq_lt by exact Hj. reflexivity.
Qed.

Lemma initializeWeights_draws_witness :
  (initializeWeights (fun k => Finite (INR k)) 16 10 7).2 = 327.
Proof. apply (initializeWeights_draws (fun k => Finite (INR k)) 16 10 7). Defined.

Lemma std_finite (numInputs : nat) :
  0 < numInputs ->
  is_finite (Num.sqrt (Finite 2 / Num.of_nat numInputs)%js).
Proof.
  intros H. apply lt_0_INR in H. unfold Num.of_nat. simpl.
  rewrite Reqb_false by lra. simpl.
  assert (0 < 2 / INR numInputs)%R by (apply Rdiv_lt_0_compat; lra).
  rewrite Rltb_false by lra. eexists. reflexivity.
Qed.

Lemma gaussianWeight_finite (random : nat -> number) (std : number)
    (k : nat) (u v : R) :
  random k = Finite u -> (0 < u < 1)%R ->
  random (S k) = Finite v ->
  is_finite std ->
  is_finite (gaussianWeight random std k).
Proof.
  intros Hu Hu01 Hv [s ->]. unfold gaussianWeight. rewrite Hu, Hv. simpl.
  rewrite Rltb_true by lra. simpl.
  assert (ln u < 0)%R.
  { rewrite <- ln_1. apply ln_increasing; lra. }
  rewrite Rltb_false by lra. simpl. eexists. reflexivity.
Qed.

Lemma Forall_imap_seq {A} (P : A -> Prop) (f : nat -> A) (n : nat) :
  (forall k, k < n -> P (f k)) ->
  Forall P (imap (fun k _ => f k) (seq 0 n)).
Proof.
  intros H. apply Forall_lookup. intros i x Hx.
  rewrite list_lookup_imap in Hx.
  destruct (seq 0 n !! i) as [k|] eqn:E; [|discriminate].
  apply lookup_seq in E as [-> Hi]. simpl in Hx. injection Hx as <-.
  apply H, Hi.
Qed.

(** X4.  When every draw is a number strictly between 0 and 1 and the
    layer has at least one input, every weight that [initializeWeights]
    returns is finite. *)
Theorem initializeWeights_finite (random : nat -> number)
    (numInputs numNeurons drawn : nat) :
  (forall k, exists u, random k = Finite u /\ (0 < u < 1)%R) ->
  0 < numInputs ->
  Forall (Forall is_finite)
         (initializeWeights random numInputs numNeurons drawn).1.
Proof.
  intros Hrandom Hinputs. rewrite initializeWeights_closed. simpl.
  apply (Forall_imap_seq (Forall is_finite)). intros i _.
  apply (Forall_imap_seq is_finite). intros j _.
  destruct (Hrandom (drawn + 2 * (i * numInputs + j))) as (u & Hu & Hu01).
  destruct (Hrandom (S (drawn + 2 * (i * numInputs + j)))) as (v & Hv & _).
  apply (gaussianWeight_finite random _ _ u v Hu Hu01 Hv).
  apply std_finite, Hinputs.
Qed.

Lemma initializeWeights_finite_witness :
  Forall (Forall is_finite)
         (initializeWeights (fun _ => Finite (1 / 2)) 16 10 0).1.
Proof.
  apply initializeWeights_finite; [|lia].
  intros k. exists (1 / 2)%R. split; [reflexivity | lra].
Defined.

Lemma signed_infinity_not_finite (r : R) : ~ is_finite (signed_infinity r).
Proof.
  unfold signed_infinity. intros [x Hx].
  destruct (Rltb 0 r); [discriminate|].
  destruct (Rltb r 0); discriminate.
Qed.

Lemma infinity_times_not_finite (a b c : number) :
  a = PosInfinity \/ a = NegInfinity \/ a = NaN ->
  ~ is_finite (a * b * c)%js.
Proof.
  intros Ha.
  assert (Hab : (a * b)%js = PosInfinity \/ (a * b)%js = NegInfinity
                \/ (a * b)%js = NaN).
  { destruct Ha as [->|[->| ->]], b as [r| | |]; simpl; auto;
      unfold signed_infinity; destruct (Rltb 0 _); auto;
      destruct (Rltb _ 0); auto. }
  intros [x Hx].
  destruct Hab as [E|[E|E]]; rewrite E in Hx;
    destruct c as [r| | |]; simpl in Hx; try discriminate;
    apply (signed_infinity_not_finite _ (ex_intro _ x Hx)).
Qed.

Lemma gaussianWeight_zero_draw (random : nat -> number) (std : number)
    (k : nat) :
  random k = Finite 0 -> ~ is_finite (gaussianWeight random std k).
Proof.
  intros H. unfold gaussianWeight. rewrite H.
  apply infinity_times_not_finite. left. simpl.
  rewrite Rltb_false, Reqb_true by lra. simpl.
  unfold signed_infinity. rewrite Rltb_true by lra. reflexivity.
Qed.

(** X5.  [Math.random] may return 0.  When the first of the two draws of a
    weight is 0, its logarithm is [-Infinity] and the weight is an infinity
    or NaN, not a finite number. *)
Theorem initializeWeights_zero_draw (random : nat -> number)
    (numInputs numNeurons drawn i j : nat) :
  i < numNeurons -> j < numInputs ->
  random (drawn + 2 * (i * numInputs + j)) = Finite 0 ->
  exists a,
    (initializeWeights random numInputs numNeurons drawn).1 !! i ≫= (.!! j)
    = Some a
    /\ ~ is_finite a.
Proof.
  intros Hi Hj Hzero. rewrite initializeWeights_closed. simpl.
  rewrite list_lookup_imap, lookup_seq_lt by exact Hi. simpl.
  rewrite list_lookup_imap, lookup_seq_lt by exact Hj. simpl.
  eexists. split; [reflexivity|].
  apply gaussianWeight_zero_draw, Hzero.
Qed.

Lemma initializeWeights_zero_draw_witness :
  exists a,
    (initializeWeights (fun k => Finite (INR k)) 16 16 0).1 !! 0 ≫= (.!! 0)
    = Some a
    /\ ~ is_finite a.
Proof.
  apply (initializeWeights_zero_draw (fun k => Finite (INR k)) 16 16 0 0 0).
  - lia.
  - lia.
  - reflexivity.
Defined.

(** ** normalizePixels *)

Lemma normalize_finite (r : R) :
  ((Finite r - PIXEL_MEAN) / PIXEL_STD)%js
  = Finite ((r - 1307 / 10000) / (3081 / 10000)).
Proof.
  unfold PIXEL_MEAN, PIXEL_STD. simpl. rewrite Reqb_false by lra.
  reflexivity.
Qed.

(** X6.  [normalizePixels] keeps the length and a NaN pixel stays NaN.
    In exact arithmetic (finite numbers and the two constants read as exact
    reals, nothing rounded) a finite pixel [r] becomes
    [(r - 0.1307) / 0.3081], and a pixel of [0, 1] a finite number between
    [-1307/3081] and [8693/3081]. *)
Theorem normalizePixels_range (pixels : list number) :
  length (normalizePixels pixels) = length pixels
  /\ (forall i r, pixels !! i = Some (Finite r) ->
        normalizePixels pixels !! i
        = Some (Finite ((r - 1307 / 10000) / (3081 / 10000))))
  /\ (forall i, pixels !! i = Some NaN ->
        normalizePixels pixels !! i = Some NaN)
  /\ (Forall in_unit_interval pixels ->
      Forall (fun a => exists v, a = Finite v
                                 /\ (- 1307 / 3081 <= v <= 8693 / 3081)%R)
             (normalizePixels pixels)).
Proof.
  unfold normalizePixels. split; [apply length_fmap|].
  split; [|split].
  - intros i r H. rewrite list_lookup_fmap, H. simpl.
    f_equal. apply normalize_finite.
  - intros i H. rewrite list_lookup_fmap, H. reflexivity.
  - intros H. apply Forall_fmap. eapply Forall_impl; [exact H|].
    intros a (r & -> & Hr). unfold compose. rewrite normalize_finite.
    eexists. split; [reflexivity|].
    replace ((r - 1307 / 10000) / (3081 / 10000))%R
      with ((10000 * r - 1307) / 3081)%R by field.
    lra.
Qed.

Lemma normalizePixels_range_witness :
  Forall (fun a => exists v, a = Finite v
                             /\ (- 1307 / 3081 <= v <= 8693 / 3081)%R)
         (normalizePixels [Finite 0; Finite 1]).
Proof.
  apply (normalizePixels_range [Finite 0; Finite 1]).
  repeat constructor; eexists; (split; [reflexivity | lra]).
Defined.

(** ** forwardLayer on rows of the wrong length and on finite numbers *)

Lemma add_NaN_r (a : number) : (a + NaN)%js = NaN.
Proof. destruct a; reflexivity. Qed.

Lemma mul_NaN_r (a : number) : (a * NaN)%js = NaN.
Proof. destruct a; reflexivity. Qed.

Lemma foldl_add_NaN {A} (f : A -> number) (l : list A) :
  foldl (fun acc k => (acc + f k)%js) NaN l = NaN.
Proof. induction l as [|k l IH]; [reflexivity | exact IH]. Qed.

Lemma dot_short_row (x row : list number) :
  length row < length x -> dot x row = NaN.
Proof.
  intros H. unfold dot, sum_upto.
  assert (Hget : get row (length row) = NaN).
  { unfold get. rewrite lookup_ge_None_2 by lia. reflexivity. }
  replace (length x) with (length row + S (length x - S (length row)))
    by lia.
  rewrite seq_app, foldl_app. cbn [seq foldl Nat.add].
  rewrite Hget, mul_NaN_r, add_NaN_r. apply foldl_add_NaN.
Qed.

(** X7.  A weight row shorter than the input is not an error for
    [forwardLayer]: the missing weights read as [undefined] and the output
    of that neuron is NaN, whatever the input and the weights present. *)
Theorem forwardLayer_short_row_is_NaN (x : list number) (W : matrix)
    (i : nat) (row : list number) :
  W !! i = Some row -> length row < length x ->
  forwardLayer x W !! i = Some NaN.
Proof.
  intros Hrow Hlen.
  rewrite forwardLayer_dot, list_lookup_fmap, Hrow. simpl.
  f_equal. apply dot_short_row, Hlen.
Qed.

Lemma forwardLayer_short_row_is_NaN_witness :
  forwardLayer [Finite 1; Finite 2] [[Finite 3; Finite 4]; [Finite 5]] !! 1
  = Some NaN.
Proof.
  apply (forwardLayer_short_row_is_NaN _ _ 1 [Finite 5]).
  - reflexivity.
  - simpl. lia.
Defined.

Lemma foldl_seq_lookup {A B} (l : list A) (F : B -> nat -> B)
    (G : B -> A -> B) (b : B) :
  (forall acc i x, l !! i = Some x -> F acc i = G acc x) ->
  foldl F b (seq 0 (length l)) = foldl G b l.
Proof.
  induction l as [|x l IH] using rev_ind; intros H; [reflexivity|].
  rewrite length_app. simpl. rewrite seq_app, !foldl_app. simpl.
  rewrite IH.
  - apply H. rewrite lookup_app_r by lia.
    replace (length l - length l) with 0 by lia. reflexivity.
  - intros acc i y Hy. apply H. apply lookup_app_l_Some, Hy.
Qed.

Lemma foldl_products (xs ws : list R) (a : R) :
  foldl (fun (acc : number) '(x, w) => (acc + Finite x * Finite w)%js)
        (Finite a) (zip xs ws)
  = Finite (a + Rsum (zip_with Rmult xs ws)).
Proof.
  revert ws a. induction xs as [|x xs IH]; intros ws a; simpl.
  - apply Finite_eq. ring.
  - destruct ws as [|w ws]; simpl; [apply Finite_eq; ring|].
    rewrite IH. apply Finite_eq. ring.
Qed.

Lemma dot_finite (xs ws : list R) :
  length xs <= length ws ->
  dot (finite_vector xs) (finite_vector ws)
  = Finite (Rsum (zip_with Rmult xs ws)).
Proof.
  intros Hlen. unfold dot, sum_upto.
  rewrite length_finite_vector.
  replace (length xs) with (length (zip xs ws))
    by (rewrite length_zip_with; lia).
  rewrite (foldl_seq_lookup (zip xs ws) _
             (fun (acc : number) '(x, w) => (acc + Finite x * Finite w)%js)).
  - rewrite foldl_products. apply Finite_eq. ring.
  - intros acc i [x w] Hi.
    apply lookup_zip_with_Some in Hi as (x' & w' & E & Hx & Hw).
    injection E as <- <-.
    rewrite (get_finite_vector xs i x Hx), (get_finite_vector ws i w Hw).
    reflexivity.
Qed.

(** X8.  On a finite input and finite weight rows at least as long as the
    input, [forwardLayer] returns finite numbers: each output is the sum of
    the products of the input entries with the weights of the same index,
    and the weights past the length of the input are ignored. *)
Theorem forwardLayer_finite (xs : list R) (Ws : list (list R)) :
  Forall (fun ws => length xs <= length ws) Ws ->
  forwardLayer (finite_vector xs) (finite_vector <$> Ws)
  = finite_vector ((fun ws => Rsum (zip_with Rmult xs ws)) <$> Ws).
Proof.
  intros H. rewrite forwardLayer_dot. unfold finite_vector at 3.
  rewrite <- !list_fmap_compose. apply Forall_fmap_ext_1.
  eapply Forall_impl; [exact H|]. intros ws Hws. simpl.
  apply dot_finite, Hws.
Qed.

Lemma forwardLayer_finite_witness :
  forwardLayer [Finite 1; Finite 2] [[Finite 3; Finite 4; Finite 5]]
  = [Finite (1 * 3 + (2 * 4 + 0))].
Proof.
  apply (forwardLayer_finite [1; 2]%R [[3; 4; 5]%R]).
  repeat constructor.
Defined.

(** ** softmax on any array *)

(** X9.  [softmax] throws on the empty array, the [TypeError] of a
    [reduce] without initial value, and on no other array: every non-empty
    array, whatever its numbers, gives an array of the same length. *)
Theorem softmax_throws_on_empty_only (arr : list number) :
  (arr = [] /\ softmax arr = Throw TypeError)
  \/ (arr <> [] /\ exists output,
        softmax arr = Ok output /\ length output = length arr).
Proof.
  destruct arr as [|a arr]; [left; split; reflexivity|].
  right. split; [discriminate|]. apply softmax_total. discriminate.
Qed.

Lemma max2_absorbing (acc a : number) :
  acc = PosInfinity \/ acc = NaN \/ a = PosInfinity \/ a = NaN ->
  Num.max2 acc a = PosInfinity \/ Num.max2 acc a = NaN.
Proof.
  intros [->|[->|[->| ->]]]; destruct a || destruct acc; simpl; auto.
Qed.

Lemma max_absorbing (acc : number) (arr : list number) :
  acc = PosInfinity \/ acc = NaN \/ PosInfinity ∈ arr \/ NaN ∈ arr ->
  foldl Num.max2 acc arr = PosInfinity \/ foldl Num.max2 acc arr = NaN.
Proof.
  revert acc. induction arr as [|a arr IH]; intros acc H; simpl.
  - destruct H as [H|[H|[H|H]]]; auto; inversion H.
  - apply IH.
    destruct H as [H|[H|[H|H]]].
    + destruct (max2_absorbing acc a) as [E|E]; auto.
    + destruct (max2_absorbing acc a) as [E|E]; auto.
    + apply elem_of_cons in H as [<-|H]; [|auto].
      destruct (max2_absorbing acc PosInfinity) as [E|E]; auto.
    + apply elem_of_cons in H as [<-|H]; [|auto].
      destruct (max2_absorbing acc NaN) as [E|E]; auto.
Qed.

Lemma foldl_add_absorbs_NaN (acc : number) (l : list number) :
  acc = NaN \/ NaN ∈ l -> foldl Num.add acc l = NaN.
Proof.
  revert acc. induction l as [|a l IH]; intros acc H; simpl.
  - destruct H as [H|H]; [exact H | inversion H].
  - apply IH. destruct H as [->|H]; [left; reflexivity|].
    apply elem_of_cons in H as [<-|H]; [|right; exact H].
    left. apply add_NaN_r.
Qed.

Lemma div_NaN_r (a : number) : (a / NaN)%js = NaN.
Proof. destruct a; reflexivity. Qed.

(** X10.  A logit that is NaN or [+Infinity] spoils the whole output of
    [softmax]: every entry of the result is NaN. *)
Theorem softmax_overflow_gives_NaN (arr : list number) :
  PosInfinity ∈ arr \/ NaN ∈ arr ->
  exists output,
    softmax arr = Ok output
    /\ length output = length arr
    /\ Forall (fun p => p = NaN) output.
Proof.
  intros H. unfold softmax.
  set (m := Num.max arr).
  assert (Hm : m = PosInfinity \/ m = NaN)
    by (apply max_absorbing; right; right; exact H).
  clearbody m.
  set (exps := (fun x => Num.exp (x - m)%js) <$> arr).
  assert (Hexps : NaN ∈ exps).
  { unfold exps. destruct H as [H|H].
    - apply (list_elem_of_fmap_2 (fun x => Num.exp (x - m)%js)) in H.
      destruct Hm as [->| ->]; exact H.
    - apply (list_elem_of_fmap_2 (fun x => Num.exp (x - m)%js)) in H.
      destruct Hm as [->| ->]; exact H. }
  assert (Hsum : reduce_add exps = Ok NaN).
  { destruct exps as [|e exps']; [inversion Hexps|]. simpl. f_equal.
    apply foldl_add_absorbs_NaN.
    apply elem_of_cons in Hexps as [<-|Hin]; auto. }
  rewrite Hsum. simpl. eexists. split; [reflexivity|]. split.
  - unfold exps. rewrite !length_fmap. reflexivity.
  - apply Forall_fmap, Forall_forall. intros x _. apply div_NaN_r.
Qed.

Lemma softmax_overflow_gives_NaN_witness :
  exists output,
    softmax [Finite 1; PosInfinity; Finite 2] = Ok output
    /\ length output = 3
    /\ Forall (fun p => p = NaN) output.
Proof.
  apply (softmax_overflow_gives_NaN [Finite 1; PosInfinity; Finite 2]).
  left. apply list_elem_of_further, list_elem_of_here.
Defined.

Lemma lookup_softmax_spec (rs : list R) (i : nat) (x : R) :
  rs !! i = Some x ->
  softmax_spec rs !! i
  = Some (exp (x - Rmaximum rs)
          / Rsum ((fun y => exp (y - Rmaximum rs)) <$> rs))%R.
Proof.
  intros H. unfold softmax_spec.
  rewrite !list_lookup_fmap, H. reflexivity.
Qed.

(** X11.  In exact arithmetic (finite numbers read as exact reals, so that
    the exponential neither underflows nor overflows and nothing is
    rounded) [softmax] of finite logits is a probability distribution that
    keeps the order: the probabilities sum to 1, each is positive and at
    most 1, and a logit that is not larger gets a probability that is not
    larger. *)
Theorem softmax_monotone (rs : list R) (i j : nat) (x y : R) :
  rs !! i = Some x -> rs !! j = Some y -> (x <= y)%R ->
  exists ps p q,
    softmax (finite_vector rs) = Ok (finite_vector ps)
    /\ Rsum ps = 1%R
    /\ ps !! i = Some p /\ ps !! j = Some q
    /\ (0 < p <= q)%R /\ (q <= 1)%R.
Proof.
  intros Hi Hj Hxy.
  assert (Hne : rs <> []) by (intros ->; discriminate).
  set (m := Rmaximum rs).
  set (exps := (fun y => exp (y - m)) <$> rs).
  assert (Hexps : exps <> [])
    by (destruct rs; [congruence | discriminate]).
  assert (Hpos : (0 < Rsum exps)%R)
    by (apply Rsum_pos, exps_positive; exact Hexps).
  exists (softmax_spec rs),
         (exp (x - m) / Rsum exps)%R, (exp (y - m) / Rsum exps)%R.
  split; [apply softmax_finite, Hne|].
  split.
  { unfold softmax_spec. fold m. fold exps. rewrite Rsum_div. field. lra. }
  split; [apply (lookup_softmax_spec rs i x Hi)|].
  split; [apply (lookup_softmax_spec rs j y Hj)|].
  pose proof (exp_pos (x - m)) as Hx.
  assert (Hle : (exp (x - m) <= exp (y - m))%R).
  { destruct (Req_dec x y) as [->|Hne']; [lra|].
    apply Rlt_le, exp_increasing. lra. }
  assert (Hy : (exp (y - m) <= Rsum exps)%R).
  { apply (Rsum_elem_le exps j).
    - eapply Forall_impl; [apply (exps_positive (fun y => (y - m)%R))|].
      simpl. intros; lra.
    - unfold exps. rewrite list_lookup_fmap, Hj. reflexivity. }
  split; [split|].
  - apply Rdiv_lt_0_compat; assumption.
  - apply Rmult_le_compat_r; [|exact Hle].
    apply Rlt_le, Rinv_0_lt_compat, Hpos.
  - apply Rmult_le_reg_r with (Rsum exps); [exact Hpos|].
    unfold Rdiv. rewrite Rmult_assoc, Rinv_l by lra. lra.
Qed.

Lemma softmax_monotone_witness :
  exists ps p q,
    softmax [Finite 1; Finite 3; Finite 2] = Ok (finite_vector ps)
    /\ Rsum ps = 1%R
    /\ ps !! 2 = Some p /\ ps !! 1 = Some q
    /\ (0 < p <= q)%R /\ (q <= 1)%R.
Proof.
  apply (softmax_monotone [1; 3; 2]%R 2 1 2 3);
    [reflexivity | reflexivity | lra].
Defined.

(** ** The predicted label *)

Lemma strict_eq_NaN (a : number) : Num.strict_eq a NaN = false.
Proof. destruct a; reflexivity. Qed.

Lemma indexOf_from_NaN (arr : list number) (i : Z) :
  indexOf_from arr NaN i = (-1)%Z.
Proof.
  revert i. induction arr as [|a arr IH]; intros i; simpl; [reflexivity|].
  rewrite strict_eq_NaN. apply IH.
Qed.

Lemma indexOf_from_first (ps : list R) (m : R) (i : Z) :
  m ∈ ps ->
  exists k,
    indexOf_from (finite_vector ps) (Finite m) i = (i + Z.of_nat k)%Z
    /\ ps !! k = Some m
    /\ forall k' x, k' < k -> ps !! k' = Some x -> x <> m.
Proof.
  revert i. induction ps as [|a ps IH]; intros i Hin; [inversion Hin|].
  simpl. unfold Reqb. destruct (Req_dec_T a m) as [->|Hne].
  - exists 0. split; [f_equal; lia|]. split; [reflexivity|].
    intros k' x Hk'. lia.
  - apply elem_of_cons in Hin as [->|Hin]; [congruence|].
    destruct (IH (i + 1)%Z Hin) as (k & E & Hk & Hfirst).
    exists (S k). split; [rewrite E; lia|]. split; [exact Hk|].
    intros [|k'] x Hk' Hx.
    + injection Hx as <-. exact Hne.
    + apply (Hfirst k' x); [lia | exact Hx].
Qed.

(** X12.  On a non-empty output of finite numbers the predicted label
    [output.indexOf(Math.max(...output))] is the index of the first
    occurrence of the largest entry. *)
Theorem predictedLabel_first_maximum (ps : list R) :
  ps <> [] ->
  exists k,
    indexOf (finite_vector ps) (Num.max (finite_vector ps)) = Z.of_nat k
    /\ ps !! k = Some (Rmaximum ps)
    /\ (forall x, x ∈ ps -> (x <= Rmaximum ps)%R)
    /\ forall k' x, k' < k -> ps !! k' = Some x -> (x < Rmaximum ps)%R.
Proof.
  intros Hne. rewrite max_finite by exact Hne.
  destruct (Rmaximum_is_maximum ps Hne) as [Hin Hmax].
  rewrite Forall_forall in Hmax.
  destruct (indexOf_from_first ps (Rmaximum ps) 0 Hin)
    as (k & E & Hk & Hfirst).
  exists k. split; [exact E|]. split; [exact Hk|]. split; [exact Hmax|].
  intros k' x Hk' Hx.
  assert (x <= Rmaximum ps)%R
    by (apply Hmax, list_elem_of_lookup; exists k'; exact Hx).
  pose proof (Hfirst k' x Hk' Hx). lra.
Qed.

Lemma predictedLabel_first_maximum_witness :
  exists k,
    indexOf [Finite 1; Finite 3; Finite 3]
            (Num.max [Finite 1; Finite 3; Finite 3]) = Z.of_nat k
    /\ [1; 3; 3]%R !! k = Some (Rmaximum [1; 3; 3]%R)
    /\ (forall x, x ∈ [1; 3; 3]%R -> (x <= Rmaximum [1; 3; 3]%R)%R)
    /\ forall k' x, k' < k -> [1; 3; 3]%R !! k' = Some x ->
         (x < Rmaximum [1; 3; 3]%R)%R.
Proof. apply (predictedLabel_first_maximum [1; 3; 3]%R). discriminate. Defined.

Lemma foldl_max2_NaN (acc : number) (arr : list number) :
  acc = NaN \/ NaN ∈ arr -> foldl Num.max2 acc arr = NaN.
Proof.
  revert acc. induction arr as [|a arr IH]; intros acc H; simpl.
  - destruct H as [H|H]; [exact H | inversion H].
  - apply IH. destruct H as [->|H]; [left; reflexivity|].
    apply elem_of_cons in H as [<-|H]; [|right; exact H].
    left. destruct acc; reflexivity.
Qed.

(** X13.  When the output holds a NaN, [Math.max] is NaN and [indexOf]
    finds nothing: the predicted label is -1 and the sample is not counted
    as correct, whatever its label. *)
Theorem predictedLabel_of_NaN_output (output : list number)
    (label : option nat) :
  NaN ∈ output ->
  indexOf output (Num.max output) = (-1)%Z
  /\ same_label (indexOf output (Num.max output)) label = false.
Proof.
  intros H.
  assert (Hmax : Num.max output = NaN)
    by (apply foldl_max2_NaN; right; exact H).
  rewrite Hmax. unfold indexOf. rewrite indexOf_from_NaN.
  split; [reflexivity|]. destruct label as [l|]; [|reflexivity].
  unfold same_label. apply Z.eqb_neq. lia.
Qed.

Lemma predictedLabel_of_NaN_output_witness :
  same_label (indexOf [Finite 1; NaN] (Num.max [Finite 1; NaN])) (Some 0)
  = false.
Proof.
  apply (predictedLabel_of_NaN_output [Finite 1; NaN] (Some 0)).
  apply list_elem_of_further, list_elem_of_here.
Defined.

(** ** The target vector and the loss *)

Lemma get_oneHot (label : option nat) (i : nat) :
  get (oneHot label) i
  = if decide (label = Some i) then Finite 1
    else if decide (i < 10) then Finite 0 else NaN.
Proof.
  unfold oneHot, get. destruct label as [l|].
  - unfold store. rewrite length_replicate.
    destruct (decide (l < 10)) as [Hl|Hl].
    + destruct (decide (Some l = Some i)) as [[= ->]|Hne].
      * rewrite list_lookup_insert_eq
          by (rewrite length_replicate; exact Hl).
        reflexivity.
      * rewrite list_lookup_insert_ne by congruence.
        destruct (decide (i < 10)) as [Hi|Hi].
        -- rewrite lookup_replicate_2 by exact Hi. reflexivity.
        -- rewrite (proj1 (lookup_replicate_None _ _ _)) by lia.
           reflexivity.
    + destruct (decide (i < 10)) as [Hi|Hi].
      * rewrite lookup_app_l by (rewrite length_replicate; exact Hi).
        rewrite lookup_replicate_2 by exact Hi.
        destruct (decide (Some l = Some i)) as [[= ->]|_]; [lia|].
        reflexivity.
      * rewrite lookup_app_r by (rewrite length_replicate; lia).
        rewrite length_replicate.
        destruct (decide (Some l = Some i)) as [[= ->]|Hne].
        -- rewrite lookup_app_r by (rewrite length_replicate; lia).
           rewrite length_replicate.
           replace (i - 10 - (i - 10)) with 0 by lia. reflexivity.
        -- destruct (decide (i < l)) as [Hil|Hil].
           ++ rewrite lookup_app_l by (rewrite length_replicate; lia).
              rewrite lookup_replicate_2 by lia. reflexivity.
           ++ rewrite lookup_ge_None_2; [reflexivity|].
              rewrite length_app, length_replicate. simpl.
              assert (i <> l) by congruence. lia.
  - destruct (decide (None = Some i)) as [?|_]; [discriminate|].
    destruct (decide (i < 10)) as [Hi|Hi].
    + rewrite lookup_replicate_2 by exact Hi. reflexivity.
    + rewrite (proj1 (lookup_replicate_None _ _ _)) by lia. reflexivity.
Qed.

Lemma length_oneHot (label : option nat) :
  length (oneHot label)
  = match label with
    | Some l => Nat.max 10 (S l)
    | None => 10
    end.
Proof.
  unfold oneHot. destruct label as [l|]; [|apply length_replicate].
  unfold store. rewrite length_replicate.
  destruct (decide (l < 10)).
  - rewrite length_insert, length_replicate. lia.
  - rewrite !length_app, !length_replicate. simpl. lia.
Qed.

(** X14.  The target vector read at index [i] is 1 when [i] is the label, 0
    at the other indices below 10 and [undefined] elsewhere.  A label of 10
    or more makes the array grow to [label + 1] entries; an [undefined]
    label leaves the ten zeros. *)
Theorem oneHot_entries (label : option nat) :
  (forall i, get (oneHot label) i
             = if decide (label = Some i) then Finite 1
               else if decide (i < 10) then Finite 0 else NaN)
  /\ length (oneHot label)
     = match label with
       | Some l => Nat.max 10 (S l)
       | None => 10
       end.
Proof. split; [apply get_oneHot | apply length_oneHot]. Qed.

Lemma foldl_loss_terms (ps ts : list R) (a : R) :
  foldl (fun (acc : number) '(p, t) =>
           if Rltb 0 p then (acc - Finite t * Num.log (Finite p))%js
           else acc)
        (Finite a) (zip ps ts)
  = Finite (a - Rsum (zip_with (fun p t => if Rlt_dec 0 p
                                           then t * ln p else 0)%R ps ts)).
Proof.
  revert ts a. induction ps as [|p ps IH]; intros ts a; simpl.
  - apply Finite_eq. ring.
  - destruct ts as [|t ts]; simpl; [apply Finite_eq; ring|].
    unfold Rltb. destruct (Rlt_dec 0 p); simpl.
    + change (list_fmap _ _ ?f ?l) with (f <$> l).
      rewrite IH. apply Finite_eq. ring.
    + rewrite IH. apply Finite_eq. ring.
Qed.

Lemma loss_terms_nonpos (ps ts : list R) :
  Forall (fun p => (0 <= p <= 1)%R) ps ->
  Forall (fun t => (0 <= t)%R) ts ->
  (Rsum (zip_with (fun p t => if Rlt_dec 0 p then t * ln p else 0)%R ps ts)
   <= 0)%R.
Proof.
  intros Hps. revert ts. induction Hps as [|p ps Hp Hps IH]; intros ts Hts.
  - simpl. lra.
  - destruct Hts as [|t ts Ht Hts]; simpl; [lra|].
    specialize (IH ts Hts).
    destruct (Rlt_dec 0 p) as [Hpos|_]; [|lra].
    assert (ln p <= 0)%R.
    { destruct (Req_dec p 1) as [->|Hne]; [rewrite ln_1; lra|].
      rewrite <- ln_1. apply Rlt_le, ln_increasing; lra. }
    nra.
Qed.

(** X15.  For finite outputs and a finite target at least as long, the
    loss is [- Σ t_i ln p_i] over the entries with [p_i > 0], the others
    being skipped; it is not negative when the outputs are in [0, 1] and
    the target entries are not negative. *)
Theorem crossEntropyLoss_formula (ps ts : list R) :
  length ps <= length ts ->
  let terms := zip_with (fun p t => if Rlt_dec 0 p then t * ln p else 0)%R
                        ps ts in
  crossEntropyLoss (finite_vector ps) (finite_vector ts)
  = Finite (- Rsum terms)
  /\ (Forall (fun p => (0 <= p <= 1)%R) ps ->
      Forall (fun t => (0 <= t)%R) ts ->
      (0 <= - Rsum terms)%R).
Proof.
  intros Hlen terms. split.
  - unfold crossEntropyLoss. rewrite length_finite_vector.
    replace (length ps) with (length (zip ps ts))
      by (rewrite length_zip_with; lia).
    rewrite (foldl_seq_lookup (zip ps ts) _
               (fun (acc : number) '(p, t) =>
                  if Rltb 0 p then (acc - Finite t * Num.log (Finite p))%js
                  else acc)).
    + rewrite foldl_loss_terms. apply Finite_eq. unfold terms. ring.
    + intros acc i [p t] Hi.
      apply lookup_zip_with_Some in Hi as (p' & t' & E & Hp & Ht).
      injection E as <- <-.
      rewrite (get_finite_vector ps i p Hp), (get_finite_vector ts i t Ht).
      reflexivity.
  - intros Hps Hts. pose proof (loss_terms_nonpos ps ts Hps Hts).
    unfold terms. lra.
Qed.

Lemma crossEntropyLoss_formula_witness :
  crossEntropyLoss [Finite (1 / 2); Finite 0; Finite (1 / 2)]
                   [Finite (1 / 4); Finite (1 / 2); Finite (1 / 4)]
  = Finite (- (1 / 4 * ln (1 / 2) + (0 + (1 / 4 * ln (1 / 2) + 0)))).
Proof.
  pose proof (crossEntropyLoss_formula [1 / 2; 0; 1 / 2]%R
                [1 / 4; 1 / 2; 1 / 4]%R) as H.
  destruct H as [H _]; [simpl; lia|].
  etransitivity; [exact H|]. apply Finite_eq. simpl.
  destruct (Rlt_dec 0 (1 / 2)); [|lra].
  destruct (Rlt_dec 0 0); [lra|]. reflexivity.
Defined.

(** X16.  A label that is [undefined] or not below 10 puts no 1 among the
    first ten entries of the target: on an output of at most ten finite
    numbers the loss of the sample is 0, and no error is raised. *)
Theorem crossEntropyLoss_label_out_of_range (ps : list R)
    (label : option nat) :
  length ps <= 10 ->
  (forall l, label = Some l -> 10 <= l) ->
  crossEntropyLoss (finite_vector ps) (oneHot label) = Finite 0.
Proof.
  intros Hlen Hlabel. unfold crossEntropyLoss.
  rewrite length_finite_vector. apply foldl_fixed.
  intros i y Hi. apply elem_of_seq in Hi.
  assert (Hilt : i < length ps) by lia.
  destruct (lookup_lt_is_Some_2 ps i Hilt) as [p Hp].
  rewrite (get_finite_vector ps i p Hp), get_oneHot.
  destruct (decide (label = Some i)) as [E|_];
    [specialize (Hlabel i E); lia|].
  rewrite decide_True by lia. simpl.
  destruct (Rltb 0 p); [|reflexivity]. simpl. apply Finite_eq. ring.
Qed.

Lemma crossEntropyLoss_label_out_of_range_witness :
  crossEntropyLoss [Finite (1 / 2); Finite (1 / 2)] (oneHot (Some 200))
  = Finite 0.
Proof.
  apply (crossEntropyLoss_label_out_of_range [1 / 2; 1 / 2]%R (Some 200)).
  - simpl. lia.
  - intros l [= <-]. lia.
Defined.

Lemma Rsum_softmax_spec (rs : list R) :
  rs <> [] -> Rsum (softmax_spec rs) = 1%R.
Proof.
  intros Hne. unfold softmax_spec.
  set (exps := (fun x => exp (x - Rmaximum rs)) <$> rs).
  assert (Hexps : exps <> [])
    by (destruct rs; [congruence | discriminate]).
  pose proof (Rsum_pos exps Hexps (exps_positive _ rs)) as Hpos.
  rewrite Rsum_div. field. lra.
Qed.

Lemma Rsum_minus_indicator (ps : list R) (k : nat) :
  Rsum (imap (fun (i : nat) (p : R) =>
                (p - (if decide (k = i) then 1 else 0))%R) ps)
  = (Rsum ps - (if decide (k < length ps)%nat then 1 else 0))%R.
Proof.
  revert k. induction ps as [|p ps IH]; intros k.
  - destruct (decide (k < length (@nil R))) as [H|H];
      [simpl in H; lia | simpl; ring].
  - rewrite imap_cons. cbn [Rsum]. destruct k as [|k].
    + rewrite (imap_ext _ (fun (i : nat) (p : R) =>
                             (p - (if decide (length ps = i)
                                   then 1 else 0))%R)).
      * rewrite IH.
        destruct (decide (length ps < length ps)) as [H|_]; [lia|].
        destruct (decide (0 = 0)) as [_|H]; [|congruence].
        destruct (decide (0 < length (p :: ps))) as [_|H];
          [ring | simpl in H; lia].
      * intros i x Hx. unfold compose. apply lookup_lt_Some in Hx.
        destruct (decide (0 = S i)) as [H|_]; [lia|].
        destruct (decide (length ps = i)) as [H|_]; [lia | reflexivity].
    + rewrite (imap_ext _ (fun (i : nat) (p : R) =>
                             (p - (if decide (k = i) then 1 else 0))%R)).
      * rewrite IH.
        destruct (decide (S k = 0)) as [H|_]; [lia|].
        destruct (decide (k < length ps)) as [H1|H1],
                 (decide (S k < length (p :: ps))) as [H2|H2];
          simpl in H2; try lia; ring.
      * intros i x _. unfold compose.
        destruct (decide (S k = S i)) as [H1|H1],
                 (decide (k = i)) as [H2|H2]; try lia; reflexivity.
Qed.

(** X17.  In exact arithmetic (finite numbers read as exact reals,
    nothing rounded), for finite logits and a label below their number (at
    most ten), the output delta [output - target] is a vector of finite
    numbers that sum to 0: what the gradient takes from the other classes
    it gives to the class of the label. *)
Theorem outputDelta_sums_to_zero (rs : list R) (label : nat) :
  label < length rs -> length rs <= 10 ->
  exists output ds,
    softmax (finite_vector rs) = Ok output
    /\ outputDelta output (oneHot (Some label)) = finite_vector ds
    /\ Rsum ds = 0%R.
Proof.
  intros Hlabel Hlen.
  assert (Hne : rs <> []) by (intros ->; simpl in Hlabel; lia).
  set (ps := softmax_spec rs).
  assert (Hps : length ps = length rs)
    by (unfold ps, softmax_spec; rewrite !length_fmap; reflexivity).
  exists (finite_vector ps),
         (imap (fun (i : nat) (p : R) =>
                  (p - (if decide (label = i) then 1 else 0))%R) ps).
  split; [apply softmax_finite, Hne|]. split.
  - unfold outputDelta, finite_vector.
    rewrite imap_fmap, fmap_imap. apply imap_ext. intros i p Hp.
    unfold compose. rewrite get_oneHot.
    apply lookup_lt_Some in Hp.
    destruct (decide (Some label = Some i)) as [[= ->]|Hne'].
    + destruct (decide (i = i)) as [_|H]; [reflexivity | congruence].
    + destruct (decide (label = i)) as [->|_]; [congruence|].
      destruct (decide (i < 10)) as [_|H]; [reflexivity | lia].
  - rewrite Rsum_minus_indicator, decide_True by lia.
    unfold ps. rewrite Rsum_softmax_spec by exact Hne. ring.
Qed.

Lemma outputDelta_sums_to_zero_witness :
  exists output ds,
    softmax [Finite 1; Finite 2; Finite 3] = Ok output
    /\ outputDelta output (oneHot (Some 1)) = finite_vector ds
    /\ Rsum ds = 0%R.
Proof.
  apply (outputDelta_sums_to_zero [1; 2; 3]%R 1); simpl; lia.
Defined.

(** ** The sample loader on ranges *)

(** X18.  Adjacent ranges load adjacent samples: for [a <= b <= c] the
    samples of [a .. b] followed by those of [b .. c] are the samples of
    [a .. c], whatever the files; successive batches neither overlap nor
    skip a sample. *)
Theorem readMNIST_adjacent_ranges (fs : files) (a b c : Z) :
  (a <= b <= c)%Z ->
  readMNIST fs a b ++ readMNIST fs b c = readMNIST fs a c.
Proof.
  intros Habc. unfold readMNIST.
  destruct (train_images fs) as [images|]; [|reflexivity].
  destruct (train_labels fs) as [labels|]; [|reflexivity].
  rewrite <- fmap_app. f_equal.
  destruct (Z.le_gt_cases b 60000) as [Hb|Hb].
  - rewrite (Z.min_l b 60000) by exact Hb.
    replace (Z.min c 60000 - a)%Z
      with ((b - a) + (Z.min c 60000 - b))%Z by lia.
    rewrite seqZ_app by lia. do 2 f_equal. lia.
  - rewrite (seqZ_nil b) by lia. rewrite app_nil_r.
    f_equal. lia.
Qed.

Lemma readMNIST_adjacent_ranges_witness :
  let fs := {| train_images := Some (replicate 100 Byte.x01);
               train_labels := Some (replicate 100 Byte.x02) |} in
  readMNIST fs 0 10 ++ readMNIST fs 10 20 = readMNIST fs 0 20.
Proof. intros fs. apply (readMNIST_adjacent_ranges fs 0 10 20). lia. Defined.

(** X19.  The 784 pixels of a sample are the bytes of its image in the
    order of the file: pixel [j] is the byte at offset
    [16 + 784 * index + j] divided by 255, the 16 bytes of the header
    being skipped, and NaN where the file has no such byte. *)
Theorem readMNIST_pixel_layout (images labels : list byte) (start end_ : Z)
    (k : nat) (s : sample) (j : nat) :
  readMNIST {| train_images := Some images; train_labels := Some labels |}
            start end_ !! k = Some s ->
  j < 784 ->
  pixels s !! j
  = Some (toNumber (Num.of_nat <$> buffer_get images
                      (16 + 784 * index s + Z.of_nat j))
          / Finite 255)%js.
Proof.
  intros Hs Hj.
  destruct (readMNIST_sample images labels start end_ k s Hs)
    as (_ & Hindex & _ & Hpixels).
  rewrite Hpixels, Hindex.
  rewrite (nested_loops_flat
             (fun x y =>
                (toNumber
                   (Num.of_nat <$> buffer_get images
                      ((start + Z.of_nat k) * 28 * 28
                       + (Z.of_nat x + Z.of_nat y * 28) + 16))
                 / Finite 255)%js) 28 28) by lia.
  rewrite list_lookup_fmap, lookup_seq_lt by exact Hj.
  rewrite Nat.add_0_l. cbn [fmap option_fmap option_map].
  do 5 f_equal.
  pose proof (Nat.div_mod_eq j 28). lia.
Qed.

Lemma readMNIST_pixel_layout_witness :
  exists s,
    readMNIST {| train_images := Some (replicate 16 Byte.x00
                                        ++ replicate 30 Byte.x33);
                 train_labels := Some [] |} 0 1 = [s]
    /\ pixels s !! 29 = Some (Finite (INR 51) / Finite 255)%js.
Proof.
  eexists. split; [reflexivity|].
  rewrite (readMNIST_pixel_layout
             (replicate 16 Byte.x00 ++ replicate 30 Byte.x33) [] 0 1 0 _ 29);
    [reflexivity | reflexivity | lia].
Defined.

(** With both files readable, the batch that [run] loads at [position] has
    ten samples when [position] is below 6000 and none from 6000 on. *)
Lemma batch_size (images labels : list byte) (position : Z) :
  length (readMNIST {| train_images := Some images;
                       train_labels := Some labels |}
                    (position * 10) (position * 10 + 10))
  = if (position <? 6000)%Z then 10 else 0.
Proof.
  unfold readMNIST. simpl. rewrite length_fmap, length_seqZ.
  destruct (Z.ltb_spec position 6000); lia.
Qed.

(** ** Batches and training on weights of the expected shapes *)

Lemma has_shape_zero (rows cols : nat) (W : matrix) :
  has_shape rows cols W
  <-> Forall2 (fun row grow : list number => length row = length grow)
              W (createZeroMatrix rows cols).
Proof.
  rewrite createZeroMatrix_replicate, Forall2_same_length_lookup.
  rewrite length_replicate. unfold has_shape. rewrite Forall_lookup.
  split; intros [Hlen H]; (split; [exact Hlen|]).
  - intros i row grow Hrow Hgrow.
    apply lookup_replicate in Hgrow as [-> _].
    rewrite length_replicate. apply (H i), Hrow.
  - intros i row Hrow.
    assert (Hi : i < rows)
      by (rewrite <- Hlen; eapply lookup_lt_Some, Hrow).
    pose proof (H i row (replicate cols (Finite 0)) Hrow
                  (lookup_replicate_2 _ _ _ Hi)) as E.
    rewrite E. apply length_replicate.
Qed.

Lemma well_shaped_mirrors (w : weights) :
  well_shaped w <-> mirrors w zeroGradients.
Proof.
  unfold well_shaped, mirrors, zeroGradients. split.
  - intros (W0 & W1 & W2 & -> & H0 & H1 & H2).
    constructor; [apply has_shape_zero, H0|].
    constructor; [apply has_shape_zero, H1|].
    constructor; [apply has_shape_zero, H2|].
    constructor.
  - intros H.
    apply Forall2_cons_inv_r in H as (W0 & ws & H0 & H & ->).
    apply Forall2_cons_inv_r in H as (W1 & ws' & H1 & H & ->).
    apply Forall2_cons_inv_r in H as (W2 & ws'' & H2 & H & ->).
    apply Forall2_nil_inv_r in H as ->.
    exists W0, W1, W2.
    split; [reflexivity|].
    split; [apply has_shape_zero, H0|].
    split; apply has_shape_zero; assumption.
Qed.

Lemma mirrors_sym (w G : weights) : mirrors w G -> mirrors G w.
Proof.
  unfold mirrors. intros H. apply Forall2_flip.
  eapply Forall2_impl; [exact H|]. intros Wl Gl HWl. apply Forall2_flip.
  eapply Forall2_impl; [exact HWl|]. intros row grow E. symmetry. exact E.
Qed.

Lemma mirrors_trans (w1 w2 w3 : weights) :
  mirrors w1 w2 -> mirrors w2 w3 -> mirrors w1 w3.
Proof.
  rewrite !mirrors_lookup. intros [L12 H12] [L23 H23].
  split; [congruence|]. intros layer W1 W3 HW1 HW3.
  assert (Hlt : layer < length w2)
    by (rewrite <- L12; eapply lookup_lt_Some, HW1).
  destruct (lookup_lt_is_Some_2 w2 layer Hlt) as [W2 HW2].
  destruct (H12 layer W1 W2 HW1 HW2) as [R12 E12].
  destruct (H23 layer W2 W3 HW2 HW3) as [R23 E23].
  split; [congruence|]. intros i r1 r3 Hr1 Hr3.
  assert (Hi : i < length W2)
    by (rewrite <- R12; eapply lookup_lt_Some, Hr1).
  destruct (lookup_lt_is_Some_2 W2 i Hi) as [r2 Hr2].
  rewrite (E12 i r1 r2 Hr1 Hr2). apply (E23 i r2 r3 Hr2 Hr3).
Qed.

Lemma run_well_shaped (fs : files) (w : weights) (position : Z) :
  well_shaped w ->
  exists w' m, run fs w position = Ok (w', m) /\ well_shaped w'.
Proof.
  intros H. apply well_shaped_mirrors in H.
  destruct (run_keeps_shape fs w position H) as (w' & m & Hrun & Hshape).
  exists w', m. split; [exact Hrun|].
  apply well_shaped_mirrors.
  eapply mirrors_trans; [apply mirrors_sym, Hshape | exact H].
Qed.

Lemma well_shaped_zero : well_shaped zeroGradients.
Proof. apply well_shaped_mirrors, mirrors_refl. Qed.

(** X21.  On weights of the expected shapes (16 x 784, 16 x 16, 10 x 16)
    a batch throws nothing, whatever the dataset files and the position,
    and returns weights of the same shapes. *)
Theorem run_keeps_well_shaped (fs : files) (w : weights) (position : Z) :
  well_shaped w ->
  exists w' m, run fs w position = Ok (w', m) /\ well_shaped w'.
Proof. apply run_well_shaped. Qed.

Lemma run_keeps_well_shaped_witness :
  exists w' m,
    run {| train_images := Some (replicate 20 Byte.x07);
           train_labels := None |} zeroGradients 3 = Ok (w', m)
    /\ well_shaped w'.
Proof. apply run_keeps_well_shaped, well_shaped_zero. Defined.

Lemma for_from_invariant {St} (P : St -> Prop)
    (body : nat -> St -> result St) (i n : nat) (s : St) :
  P s ->
  (forall k s, P s -> exists s', body k s = Ok s' /\ P s') ->
  exists s', for_from i n body s = Ok s' /\ P s'.
Proof.
  intros Hs Hbody. revert i s Hs.
  induction n as [|n IH]; intros i s Hs; simpl.
  - exists s. split; [reflexivity | exact Hs].
  - destruct (Hbody i s Hs) as (s1 & E & Hs1).
    rewrite E, bind_Ok. apply IH, Hs1.
Qed.

Lemma loadWeights_well_shaped (w_json : option (result weights))
    (random : nat -> number) :
  w_json = None \/ (exists w0, w_json = Some (Ok w0) /\ well_shaped w0) ->
  exists w0, loadWeights w_json random = Ok w0 /\ well_shaped w0.
Proof.
  intros [->|(w0 & -> & H)].
  - unfold loadWeights.
    pose proof (initializeWeights_shape random 784 16 0) as H0.
    destruct (initializeWeights random 784 16 0) as [layer0 d0].
    pose proof (initializeWeights_shape random 16 16 d0) as H1.
    destruct (initializeWeights random 16 16 d0) as [layer1 d1].
    pose proof (initializeWeights_shape random 16 10 d1) as H2.
    destruct (initializeWeights random 16 10 d1) as [layer2 d2].
    eexists. split; [reflexivity|].
    exists layer0, layer1, layer2. auto.
  - exists w0. split; [reflexivity | exact H].
Qed.

(** X22.  Training throws nothing when [w.json] is missing or holds
    weights of the expected shapes: whatever the dataset files, the draws
    and the number of batches, [main] ends with weights of the expected
    shapes. *)
Theorem main_never_throws (fs : files) (w_json : option (result weights))
    (random : nat -> number) (totalBatches : nat) :
  w_json = None \/ (exists w0, w_json = Some (Ok w0) /\ well_shaped w0) ->
  exists w, main fs w_json random totalBatches = Ok w /\ well_shaped w.
Proof.
  intros H. unfold main.
  destruct (loadWeights_well_shaped w_json random H) as (w0 & E & Hw0).
  rewrite E, bind_Ok. unfold for_loop.
  apply (for_from_invariant well_shaped); [exact Hw0|].
  intros k w Hw.
  destruct (run_well_shaped fs w (Z.of_nat k) Hw) as (w' & m & Hrun & Hw').
  exists w'. rewrite Hrun. split; [reflexivity | exact Hw'].
Qed.

Lemma main_never_throws_witness :
  exists w,
    main {| train_images := None; train_labels := None |} None
         (fun _ => Finite (1 / 2)) 1000 = Ok w
    /\ well_shaped w.
Proof. apply main_never_throws. left. reflexivity. Defined.

Lemma allNaN_allNaN (w : weights) : allNaN (allNaN w) = allNaN w.
Proof.
  unfold allNaN. rewrite <- list_fmap_compose. apply list_fmap_ext.
  intros _ Wl _. simpl. rewrite <- list_fmap_compose. apply list_fmap_ext.
  intros _ row _. simpl. rewrite <- list_fmap_compose. reflexivity.
Qed.

Lemma mirrors_allNaN (w : weights) : mirrors w (allNaN w).
Proof.
  apply mirrors_lookup. unfold allNaN.
  split; [rewrite length_fmap; reflexivity|].
  intros layer Wl Wl' Hl Hl'. rewrite list_lookup_fmap, Hl in Hl'.
  injection Hl' as <-. split; [rewrite length_fmap; reflexivity|].
  intros i row row' Hi Hi'. rewrite list_lookup_fmap, Hi in Hi'.
  injection Hi' as <-. rewrite length_fmap. reflexivity.
Qed.

Lemma well_shaped_allNaN (w : weights) :
  well_shaped w -> well_shaped (allNaN w).
Proof.
  intros H. apply well_shaped_mirrors.
  eapply mirrors_trans; [apply mirrors_sym, mirrors_allNaN|].
  apply well_shaped_mirrors, H.
Qed.

Lemma for_from_constant {St} (body : nat -> St -> result St) (i n : nat)
    (s : St) :
  (forall k, body k s = Ok s) -> for_from i n body s = Ok s.
Proof.
  intros H. revert i. induction n as [|n IH]; intros i; simpl.
  - reflexivity.
  - rewrite H, bind_Ok. apply IH.
Qed.

(** X23.  Without the dataset files every batch is empty, and training
    that starts from weights of the expected shapes and runs at least one
    batch ends, without an error, with every weight NaN. *)
Theorem main_without_dataset (fs : files)
    (w_json : option (result weights)) (random : nat -> number)
    (totalBatches : nat) (w0 : weights) :
  train_images fs = None \/ train_labels fs = None ->
  loadWeights w_json random = Ok w0 ->
  well_shaped w0 ->
  main fs w_json random (S totalBatches) = Ok (allNaN w0).
Proof.
  intros Hfs Hload Hw0. unfold main. rewrite Hload, bind_Ok.
  unfold for_loop. cbn [for_from].
  rewrite (run_without_samples fs w0 (Z.of_nat 0));
    [|apply readMNIST_unavailable, Hfs | apply well_shaped_mirrors, Hw0].
  fold (allNaN w0). rewrite !bind_Ok.
  apply for_from_constant. intros k.
  rewrite (run_without_samples fs (allNaN w0) (Z.of_nat k));
    [|apply readMNIST_unavailable, Hfs
     |apply well_shaped_mirrors, well_shaped_allNaN, Hw0].
  fold (allNaN (allNaN w0)). rewrite bind_Ok, allNaN_allNaN. reflexivity.
Qed.

Lemma main_without_dataset_witness :
  main {| train_images := None; train_labels := None |}
       (Some (Ok zeroGradients)) (fun _ => Finite (1 / 2)) 1000
  = Ok (allNaN zeroGradients).
Proof.
  apply (main_without_dataset _ _ _ 999).
  - left. reflexivity.
  - reflexivity.
  - apply well_shaped_zero.
Defined.

(** X24.  The dataset ends at sample 60000: from position 6000 on the
    batch is empty whatever the files, and on weights of the expected
    shapes the run returns NaN metrics and overwrites every weight with
    NaN. *)
Theorem run_past_dataset (fs : files) (w : weights) (position : Z) :
  (6000 <= position)%Z ->
  well_shaped w ->
  run fs w position = Ok (allNaN w, {| loss := NaN; accuracy := NaN |}).
Proof.
  intros Hpos Hw. apply run_without_samples.
  - unfold readMNIST.
    destruct (train_images fs); [|reflexivity].
    destruct (train_labels fs); [|reflexivity].
    rewrite seqZ_nil by lia. reflexivity.
  - apply well_shaped_mirrors, Hw.
Qed.

Lemma run_past_dataset_witness :
  run {| train_images := Some (replicate 16 Byte.x00);
         train_labels := Some (replicate 8 Byte.x00) |} zeroGradients 6000
  = Ok (allNaN zeroGradients, {| loss := NaN; accuracy := NaN |}).
Proof. apply run_past_dataset; [lia | apply well_shaped_zero]. Defined.

(** ** Exceptions of a batch *)

Lemma bind_Ok_inv {A B} (m : result A) (f : A -> result B) (b : B) :
  (m ≫= f) = Ok b -> exists a, m = Ok a /\ f a = Ok b.
Proof.
  destruct m as [a|e]; [|discriminate].
  intros H. exists a. split; [reflexivity | exact H].
Qed.

Lemma array_get_Ok_inv {A} (arr : list A) (i : nat) (a : A) :
  array_get arr i = Ok a -> arr !! i = Some a.
Proof.
  unfold array_get. destruct (arr !! i); [|discriminate].
  intros H. injection H as ->. reflexivity.
Qed.

Lemma array_get_outside {A} (arr : list A) (i : nat) :
  length arr <= i -> array_get arr i = Throw TypeError.
Proof.
  intros H. unfold array_get. rewrite lookup_ge_None_2 by exact H.
  reflexivity.
Qed.

Lemma only_TypeError_Ok {A} (a : A) : throws_only_TypeError (Ok a).
Proof. intros e H. discriminate. Qed.

Lemma only_TypeError_bind {A B} (m : result A) (f : A -> result B) :
  throws_only_TypeError m ->
  (forall a, throws_only_TypeError (f a)) ->
  throws_only_TypeError (m ≫= f).
Proof.
  intros Hm Hf e. destruct m as [a|e']; simpl.
  - apply Hf.
  - intros H. injection H as <-. apply Hm. reflexivity.
Qed.

Lemma only_TypeError_array_get {A} (arr : list A) (i : nat) :
  throws_only_TypeError (array_get arr i).
Proof.
  intros e. unfold array_get. destruct (arr !! i); [discriminate|].
  intros H. injection H as <-. reflexivity.
Qed.

Lemma only_TypeError_for_from {St} (body : nat -> St -> result St)
    (i n : nat) (s : St) :
  (forall k s, throws_only_TypeError (body k s)) ->
  throws_only_TypeError (for_from i n body s).
Proof.
  intros H. revert i s. induction n as [|n IH]; intros i s; simpl.
  - apply only_TypeError_Ok.
  - apply only_TypeError_bind; [apply H | intros s'; apply IH].
Qed.

Lemma only_TypeError_forEach {A St} (arr : list A)
    (body : A -> St -> result St) (s : St) :
  (forall a s, throws_only_TypeError (body a s)) ->
  throws_only_TypeError (forEach arr body s).
Proof.
  intros H. revert s. induction arr as [|a arr IH]; intros s; simpl.
  - apply only_TypeError_Ok.
  - apply only_TypeError_bind; [apply H | intros s'; apply IH].
Qed.

Lemma only_TypeError_softmax (arr : list number) :
  throws_only_TypeError (softmax arr).
Proof.
  intros e. unfold softmax, reduce_add.
  destruct (_ <$> arr); simpl; [|discriminate].
  intros H. injection H as <-. reflexivity.
Qed.

Ltac only_TypeError :=
  repeat first
    [ apply only_TypeError_Ok
    | apply only_TypeError_array_get
    | apply only_TypeError_softmax
    | apply only_TypeError_for_from; intros
    | apply only_TypeError_bind; [|intros]
    | progress cbv zeta ].

Lemma only_TypeError_accumulate (layer : nat) (W : matrix)
    (dz a : list number) (G : weights) :
  throws_only_TypeError (accumulate layer W dz a G).
Proof. unfold accumulate, for_loop. only_TypeError. Qed.

Lemma only_TypeError_backpropagate (W : matrix) (dz : list number)
    (n : nat) :
  throws_only_TypeError (backpropagate W dz n).
Proof. unfold backpropagate, for_loop. only_TypeError. Qed.

Lemma only_TypeError_processImage (w : weights) (image : sample)
    (st : batch) :
  throws_only_TypeError (processImage w image st).
Proof.
  unfold processImage.
  repeat first
    [ apply only_TypeError_Ok
    | apply only_TypeError_array_get
    | apply only_TypeError_softmax
    | apply only_TypeError_accumulate
    | apply only_TypeError_backpropagate
    | apply only_TypeError_bind; [|intros]
    | progress cbv zeta ].
Qed.

Lemma only_TypeError_updateWeights (w G : weights) (batchSize : number) :
  throws_only_TypeError (updateWeights w G batchSize).
Proof. unfold updateWeights, for_loop. only_TypeError. Qed.

Lemma for_from_preserves {St} (P : St -> Prop)
    (body : nat -> St -> result St) (i n : nat) (s s' : St) :
  (forall j s s', P s -> body j s = Ok s' -> P s') ->
  P s -> for_from i n body s = Ok s' -> P s'.
Proof.
  intros Hbody. revert i s. induction n as [|n IH]; intros i s Hs; simpl.
  - intros H. injection H as <-. exact Hs.
  - intros H. apply bind_Ok_inv in H as (s1 & E & H).
    eapply IH; [|exact H]. eapply Hbody; [exact Hs | exact E].
Qed.

Lemma forEach_preserves {A St} (P : St -> Prop)
    (body : A -> St -> result St) (arr : list A) (s s' : St) :
  (forall a s s', P s -> body a s = Ok s' -> P s') ->
  P s -> forEach arr body s = Ok s' -> P s'.
Proof.
  intros Hbody. revert s. induction arr as [|a arr IH]; intros s Hs; simpl.
  - intros H. injection H as <-. exact Hs.
  - intros H. apply bind_Ok_inv in H as (s1 & E & H).
    eapply IH; [|exact H]. eapply Hbody; [exact Hs | exact E].
Qed.

(** A loop whose iteration [k] throws, and whose earlier iterations keep
    what makes it throw, throws. *)
Lemma for_from_throws {St} (P : St -> Prop)
    (body : nat -> St -> result St) (k i n : nat) (s : St) :
  i <= k < i + n ->
  P s ->
  (forall j s, throws_only_TypeError (body j s)) ->
  (forall j s s', j < k -> P s -> body j s = Ok s' -> P s') ->
  (forall s, P s -> body k s = Throw TypeError) ->
  for_from i n body s = Throw TypeError.
Proof.
  intros Hk Hs Hsafe Hpres Hthrow. revert i s Hk Hs.
  induction n as [|n IH]; intros i s Hk Hs; [lia|]. simpl.
  destruct (decide (i = k)) as [->|Hne].
  - rewrite Hthrow by exact Hs. reflexivity.
  - destruct (body i s) as [s'|e] eqn:E.
    + rewrite bind_Ok. apply IH; [lia|].
      eapply Hpres; [|exact Hs | exact E]. lia.
    + rewrite (Hsafe i s e E). reflexivity.
Qed.

(** The update of one layer changes [w] at that layer only. *)
Lemma update_layer_preserves (P : weights -> Prop) (G : weights)
    (batchSize : number) (layer : nat) (s s' : weights) :
  (forall s Wl, P s -> P (<[layer := Wl]> s)) ->
  P s ->
  (Wl ← array_get s layer;
   for_loop (length Wl) (fun i w =>
     Wli ← array_get Wl i;
     for_loop (length Wli) (fun j w =>
       Gl ← array_get G layer;
       Gli ← array_get Gl i;
       let gradient := (get Gli j / batchSize)%js in
       Wl ← array_get w layer;
       Wli ← array_get Wl i;
       let Wli := store Wli j (get Wli j - learningRate * gradient)%js in
       Ok (<[layer := <[i := Wli]> Wl]> w))
     w)
   s) = Ok s' ->
  P s'.
Proof.
  intros Hins Hs H. apply bind_Ok_inv in H as (Wl & _ & H).
  unfold for_loop in H. revert H. apply for_from_preserves; [|exact Hs].
  clear s s' Hs. intros i s s' Hs H.
  apply bind_Ok_inv in H as (Wli & _ & H).
  unfold for_loop in H. revert H. apply for_from_preserves; [|exact Hs].
  clear s s' Hs. intros j s s' Hs H.
  apply bind_Ok_inv in H as (Gl & _ & H).
  apply bind_Ok_inv in H as (Gli & _ & H). cbv zeta in H.
  apply bind_Ok_inv in H as (Wl' & _ & H).
  apply bind_Ok_inv in H as (Wli' & _ & H).
  injection H as <-. apply Hins, Hs.
Qed.

Lemma updateWeights_missing_layer (w G : weights) (batchSize : number) :
  length w < 3 -> updateWeights w G batchSize = Throw TypeError.
Proof.
  intros Hlen. unfold updateWeights, for_loop.
  apply (for_from_throws (fun s => length s = length w) _ (length w)).
  - lia.
  - reflexivity.
  - intros j s. only_TypeError.
  - intros j s s' _ Hs H. revert H.
    apply (update_layer_preserves (fun s => length s = length w));
      [|exact Hs].
    intros s0 Wl Hs0. rewrite length_insert. exact Hs0.
  - intros s Hs. cbv beta in Hs.
    rewrite (array_get_outside s) by lia. reflexivity.
Qed.

Lemma run_throws_with_update (fs : files) (w : weights) (position : Z) :
  (forall G batchSize, updateWeights w G batchSize = Throw TypeError) ->
  run fs w position = Throw TypeError.
Proof.
  intros H. unfold run. cbv zeta.
  destruct (forEach _ _ _) as [st|e] eqn:E.
  - rewrite bind_Ok, H. reflexivity.
  - apply only_TypeError_forEach in E;
      [|intros; apply only_TypeError_processImage].
    rewrite E. reflexivity.
Qed.

(** X25.  A weight object with fewer than three layers makes every batch
    throw a TypeError, whatever the dataset: if the forward pass gets
    through, the update loop reads the missing layer. *)
Theorem run_missing_layer (fs : files) (w : weights) (position : Z) :
  length w < 3 -> run fs w position = Throw TypeError.
Proof.
  intros H. apply run_throws_with_update. intros G batchSize.
  apply updateWeights_missing_layer, H.
Qed.

Lemma run_missing_layer_witness :
  run {| train_images := None; train_labels := None |}
      [createZeroMatrix 16 784; createZeroMatrix 16 16] 0
  = Throw TypeError.
Proof. apply run_missing_layer. simpl. lia. Defined.

Lemma accumulate_rowCounts (layer : nat) (W : matrix)
    (dz a : list number) (G G' : weights) :
  accumulate layer W dz a G = Ok G' -> rowCounts G' = rowCounts G.
Proof.
  unfold accumulate, for_loop.
  apply (for_from_preserves (fun s => rowCounts s = rowCounts G));
    [|reflexivity].
  intros i s s' Hs H. apply bind_Ok_inv in H as (Wi & _ & H).
  revert H.
  apply (for_from_preserves (fun s => rowCounts s = rowCounts G));
    [|exact Hs].
  clear s s' Hs. intros j s s' Hs H.
  apply bind_Ok_inv in H as (Gl & HGl & H).
  apply bind_Ok_inv in H as (Gli & _ & H). cbv zeta in H.
  injection H as <-. apply array_get_Ok_inv in HGl.
  rewrite <- Hs. unfold rowCounts.
  rewrite list_fmap_insert, length_insert.
  apply list_insert_id. rewrite list_lookup_fmap, HGl. reflexivity.
Qed.

Lemma processImage_rowCounts (w : weights) (image : sample)
    (st st' : batch) :
  processImage w image st = Ok st' ->
  rowCounts (gradients st') = rowCounts (gradients st).
Proof.
  unfold processImage. cbv zeta. intros H.
  apply bind_Ok_inv in H as (w0 & _ & H).
  apply bind_Ok_inv in H as (w1 & _ & H).
  apply bind_Ok_inv in H as (w2 & _ & H).
  apply bind_Ok_inv in H as (output & _ & H).
  apply bind_Ok_inv in H as (G2 & HG2 & H).
  apply bind_Ok_inv in H as (da1 & _ & H).
  apply bind_Ok_inv in H as (G1 & HG1 & H).
  apply bind_Ok_inv in H as (da0 & _ & H).
  apply bind_Ok_inv in H as (G0 & HG0 & H).
  injection H as <-. simpl.
  rewrite (accumulate_rowCounts _ _ _ _ _ _ HG0).
  rewrite (accumulate_rowCounts _ _ _ _ _ _ HG1).
  apply (accumulate_rowCounts _ _ _ _ _ _ HG2).
Qed.

Lemma updateWeights_surplus_row (w G : weights) (batchSize : number)
    (layer i : nat) (Wl Gl : matrix) (row : list number) :
  layer < 3 ->
  w !! layer = Some Wl ->
  Wl !! i = Some row ->
  row <> [] ->
  G !! layer = Some Gl ->
  length Gl <= i ->
  updateWeights w G batchSize = Throw TypeError.
Proof.
  intros Hlayer HWl Hrow Hne HGl Hi. unfold updateWeights, for_loop.
  apply (for_from_throws (fun s => s !! layer = Some Wl) _ layer).
  - lia.
  - exact HWl.
  - intros j s. only_TypeError.
  - intros j s s' Hj Hs H. revert H.
    apply (update_layer_preserves (fun s => s !! layer = Some Wl));
      [|exact Hs].
    intros s0 Wl0 Hs0. rewrite list_lookup_insert_ne by lia. exact Hs0.
  - intros s Hs. rewrite (array_get_Some _ _ _ Hs), bind_Ok.
    apply (for_from_throws (fun _ => True) _ i).
    + split; [lia|]. simpl. eapply lookup_lt_Some, Hrow.
    + exact I.
    + intros j s0. only_TypeError.
    + intros; exact I.
    + intros s0 _. rewrite (array_get_Some _ _ _ Hrow), bind_Ok.
      destruct row as [|x row]; [contradiction|].
      simpl. rewrite (array_get_Some _ _ _ HGl), bind_Ok.
      rewrite (array_get_outside Gl) by exact Hi. reflexivity.
Qed.

(** X26.  A layer of [w] with a non-empty row at an index beyond the rows
    of its gradient matrix (16, 16 and 10) makes every batch throw a
    TypeError: the gradient row read for it is [undefined]. *)
Theorem run_surplus_row (fs : files) (w : weights) (position : Z)
    (layer i : nat) (Wl Gl : matrix) (row : list number) :
  w !! layer = Some Wl ->
  Wl !! i = Some row ->
  row <> [] ->
  zeroGradients !! layer = Some Gl ->
  length Gl <= i ->
  run fs w position = Throw TypeError.
Proof.
  intros HWl Hrow Hne HGl Hi.
  assert (Hlayer : layer < 3)
    by (apply lookup_lt_Some in HGl; exact HGl).
  unfold run. cbv zeta.
  destruct (forEach _ _ _) as [st|e] eqn:E.
  - rewrite bind_Ok.
    assert (Hcounts : rowCounts (gradients st) = rowCounts zeroGradients).
    { revert E.
      apply (forEach_preserves
               (fun st => rowCounts (gradients st)
                          = rowCounts zeroGradients)); [|reflexivity].
      intros image s s' Hs H.
      rewrite (processImage_rowCounts _ _ _ _ H). exact Hs. }
    assert (Hl : rowCounts (gradients st) !! layer = Some (length Gl))
      by (rewrite Hcounts; unfold rowCounts;
          rewrite list_lookup_fmap, HGl; reflexivity).
    unfold rowCounts in Hl. rewrite list_lookup_fmap in Hl.
    destruct (gradients st !! layer) as [Gl'|] eqn:HGl'; [|discriminate].
    injection Hl as Hl.
    rewrite (updateWeights_surplus_row _ _ _ layer i Wl Gl' row);
      [reflexivity | assumption..|lia].
  - apply only_TypeError_forEach in E;
      [|intros; apply only_TypeError_processImage].
    rewrite E. reflexivity.
Qed.

Lemma run_surplus_row_witness :
  run {| train_images := None; train_labels := None |}
      [createZeroMatrix 16 784; createZeroMatrix 16 16;
       createZeroMatrix 11 16] 0
  = Throw TypeError.
Proof.
  apply (run_surplus_row _ _ _ 2 10 (createZeroMatrix 11 16)
           (createZeroMatrix 10 16) (replicate 16 (Finite 0))).
  - reflexivity.
  - reflexivity.
  - discriminate.
  - reflexivity.
  - simpl. lia.
Defined.

(** ** The accuracy of a batch *)



Lemma length_readMNIST (fs : files) (images labels : list byte)
    (position : Z) :
  train_images fs = Some images ->
  train_labels fs = Some labels ->
  (position < 6000)%Z ->
  length (readMNIST fs (position * 10) (position * 10 + 10)) = 10.
Proof.
  intros Hi Hl Hp. unfold readMNIST. rewrite Hi, Hl.
  rewrite length_fmap, length_seqZ. lia.
Qed.



(** ** A sample with a pixel outside the image file *)

Lemma mul_NaN_l (a : number) : (NaN * a)%js = NaN.
Proof. destruct a; reflexivity. Qed.

Lemma sum_upto_NaN_term (n k : nat) (f : nat -> number) :
  k < n -> f k = NaN -> sum_upto n f = NaN.
Proof.
  intros Hk Hf. unfold sum_upto.
  replace n with (k + S (n - S k)) by lia.
  rewrite seq_app, foldl_app. change (0 + k) with k. cbn [seq foldl].
  rewrite Hf, add_NaN_r. apply foldl_add_NaN.
Qed.

Lemma dot_NaN_input (x row : list number) (k : nat) :
  x !! k = Some NaN -> dot x row = NaN.
Proof.
  intros Hk. unfold dot. apply (sum_upto_NaN_term _ k).
  - eapply lookup_lt_Some, Hk.
  - rewrite (get_Some _ _ _ Hk). apply mul_NaN_l.
Qed.

Lemma forwardLayer_NaN_input (x : list number) (W : matrix) (k : nat) :
  x !! k = Some NaN -> forwardLayer x W = replicate (length W) NaN.
Proof.
  intros Hk. rewrite forwardLayer_dot. apply const_fmap.
  intros i row _. apply (dot_NaN_input _ _ k), Hk.
Qed.

Lemma forwardLayer_NaN_vector (n : nat) (W : matrix) :
  0 < n -> forwardLayer (replicate n NaN) W = replicate (length W) NaN.
Proof.
  intros Hn. apply (forwardLayer_NaN_input _ _ 0).
  apply lookup_replicate_2, Hn.
Qed.

Lemma softmax_NaN_vector (n : nat) :
  0 < n -> softmax (replicate n NaN) = Ok (replicate n NaN).
Proof.
  intros Hn. destruct n as [|n]; [lia|].
  unfold softmax. cbv zeta.
  assert (Hmax : Num.max (replicate (S n) NaN) = NaN).
  { apply foldl_max2_NaN. right. apply elem_of_replicate. split; auto. }
  rewrite Hmax, fmap_replicate.
  change (Num.exp (NaN - NaN)) with NaN.
  cbn [replicate reduce_add]. rewrite foldl_add_absorbs_NaN by (left; auto).
  rewrite bind_Ok. f_equal.
  change (NaN :: replicate n NaN) with (replicate (S n) NaN).
  apply fmap_replicate.
Qed.

Lemma get_NaN_vector (n i : nat) : get (replicate n NaN) i = NaN.
Proof. destruct (get_replicate_cases n i NaN) as [H|H]; exact H. Qed.

Lemma crossEntropyLoss_NaN_vector (n : nat) (target : list number) :
  crossEntropyLoss (replicate n NaN) target = Finite 0.
Proof.
  unfold crossEntropyLoss. cbv zeta. apply foldl_fixed.
  intros i y _. rewrite get_NaN_vector. reflexivity.
Qed.

Lemma imap_constant {A B} (f : nat -> A -> B) (l : list A) (b : B) :
  (forall i x, l !! i = Some x -> f i x = b) ->
  imap f l = replicate (length l) b.
Proof.
  intros H. apply (list_eq_same_length _ _ (length l)).
  - apply length_replicate.
  - apply length_imap.
  - intros i x y Hi Hx Hy.
    apply list_lookup_imap_Some in Hx as (a & Ha & ->).
    apply lookup_replicate in Hy as [-> _]. apply (H i a Ha).
Qed.

Lemma outputDelta_NaN_vector (n : nat) (target : list number) :
  outputDelta (replicate n NaN) target = replicate n NaN.
Proof.
  unfold outputDelta. rewrite <- (length_replicate n NaN) at 2.
  apply imap_constant. intros i x Hx.
  apply lookup_replicate in Hx as [-> _]. reflexivity.
Qed.

Lemma reluDerivative_NaN_vector (da : list number) (n : nat) :
  reluDerivative da (replicate n NaN) = replicate (length da) (Finite 0).
Proof.
  unfold reluDerivative. apply imap_constant. intros i x _.
  rewrite get_NaN_vector. reflexivity.
Qed.

(** The closed form of the pass on a sample with a NaN pixel: every
    activation is NaN, and the deltas of the hidden layers are zero. *)
Lemma processImage_NaN_closed (W0 W1 W2 G0 G1 G2 : matrix) (image : sample)
    (st : batch) (k : nat) :
  gradients st = [G0; G1; G2] ->
  Forall2 (fun row grow : list number => length row = length grow) W0 G0 ->
  Forall2 (fun row grow : list number => length row = length grow) W1 G1 ->
  Forall2 (fun row grow : list number => length row = length grow) W2 G2 ->
  0 < length W0 -> 0 < length W1 -> 0 < length W2 ->
  pixels image !! k = Some NaN ->
  processImage [W0; W1; W2] image st
  = Ok {| gradients :=
            [addOuter (replicate (length W0) (Finite 0))
                      (normalizePixels (pixels image)) G0;
             addOuter (replicate (length W1) (Finite 0))
                      (replicate (length W0) NaN) G1;
             addOuter (replicate (length W2) NaN)
                      (replicate (length W1) NaN) G2];
          lossSum := (lossSum st + Finite 0)%js;
          correct := correct st |}.
Proof.
  intros HG H0 H1 H2 L0 L1 L2 Hk.
  assert (Hx : normalizePixels (pixels image) !! k = Some NaN).
  { unfold normalizePixels. rewrite list_lookup_fmap, Hk. reflexivity. }
  pose proof (processImage_closed W0 W1 W2 G0 G1 G2 image st
                (replicate (length W2) NaN) HG H0 H1 H2) as Hrun.
  cbv zeta in Hrun.
  rewrite (forwardLayer_NaN_input _ W0 k Hx) in Hrun.
  rewrite !fmap_replicate in Hrun. change (relu NaN) with NaN in Hrun.
  rewrite (forwardLayer_NaN_vector _ W1 L0) in Hrun.
  rewrite !fmap_replicate in Hrun. change (relu NaN) with NaN in Hrun.
  rewrite (forwardLayer_NaN_vector _ W2 L1) in Hrun.
  specialize (Hrun (softmax_NaN_vector _ L2)).
  rewrite Hrun. clear Hrun.
  rewrite outputDelta_NaN_vector, crossEntropyLoss_NaN_vector.
  rewrite !reluDerivative_NaN_vector.
  rewrite !length_fmap, !length_seq, !length_replicate.
  assert (Hmax : Num.max (replicate (length W2) NaN) = NaN).
  { apply foldl_max2_NaN. right. apply elem_of_replicate.
    split; [reflexivity | lia]. }
  rewrite Hmax. unfold indexOf. rewrite indexOf_from_NaN.
  replace (same_label (-1) (label image)) with false; [reflexivity|].
  destruct (label image) as [l|]; [|reflexivity].
  unfold same_label. symmetry. apply Z.eqb_neq. lia.
Qed.

Lemma entry_intro (w : weights) (layer i j : nat) (Wl : matrix)
    (row : list number) (x : number) :
  w !! layer = Some Wl -> Wl !! i = Some row -> row !! j = Some x ->
  entry w layer i j = Some x.
Proof.
  intros Hl Hi Hj. unfold entry. rewrite Hl. simpl. rewrite Hi. simpl.
  exact Hj.
Qed.

Lemma mirrors_entry (w G : weights) (layer i j : nat) (y : number) :
  mirrors w G -> entry G layer i j = Some y ->
  exists x, entry w layer i j = Some x.
Proof.
  intros Hm Hy. apply mirrors_lookup in Hm as [Hlen Hm].
  apply entry_Some in Hy as (Gl & grow & HGl & Hgrow & Hy).
  assert (Hl : layer < length w)
    by (rewrite Hlen; eapply lookup_lt_Some, HGl).
  destruct (lookup_lt_is_Some_2 w layer Hl) as [Wl HWl].
  destruct (Hm layer Wl Gl HWl HGl) as [Hrows Hm'].
  assert (Hi : i < length Wl)
    by (rewrite Hrows; eapply lookup_lt_Some, Hgrow).
  destruct (lookup_lt_is_Some_2 Wl i Hi) as [row Hrow].
  assert (Hj : j < length row)
    by (rewrite (Hm' i row grow Hrow Hgrow); eapply lookup_lt_Some, Hy).
  destruct (lookup_lt_is_Some_2 row j Hj) as [x Hx].
  exists x. eapply entry_intro; eassumption.
Qed.

Lemma lookup_addOuter (dz a : list number) (Gl : matrix) (i j : nat)
    (grow' : list number) (x : number) :
  addOuter dz a Gl !! i = Some grow' -> grow' !! j = Some x ->
  exists grow g,
    Gl !! i = Some grow /\ grow !! j = Some g
    /\ x = (g + get dz i * get a j)%js.
Proof.
  unfold addOuter. intros Hi Hj.
  apply list_lookup_imap_Some in Hi as (grow & Hgrow & ->).
  apply list_lookup_imap_Some in Hj as (g & Hg & ->).
  exists grow, g. auto.
Qed.

(** An entry of the gradients after a sample is the entry before it plus
    something. *)
Lemma entry_after_sample (dz0 dz1 dz2 a0 a1 a2 : list number)
    (G0 G1 G2 : matrix) (layer i j : nat) (x : number) :
  entry [addOuter dz0 a0 G0; addOuter dz1 a1 G1; addOuter dz2 a2 G2]
        layer i j = Some x ->
  exists g dz a,
    entry [G0; G1; G2] layer i j = Some g
    /\ [dz0; dz1; dz2] !! layer = Some dz
    /\ [a0; a1; a2] !! layer = Some a
    /\ x = (g + get dz i * get a j)%js.
Proof.
  intros H. apply entry_Some in H as (Gl' & grow' & Hl & Hi & Hj).
  destruct layer as [|[|[|layer]]]; try discriminate;
    injection Hl as <-;
    destruct (lookup_addOuter _ _ _ _ _ _ _ Hi Hj)
      as (grow & g & Hgrow & Hg & ->);
    eexists g, _, _;
    (split; [eapply entry_intro; [reflexivity | exact Hgrow | exact Hg]|]);
    auto.
Qed.

Lemma well_shaped_inv (w : weights) :
  well_shaped w ->
  exists W0 W1 W2,
    w = [W0; W1; W2] /\ length W0 = 16 /\ length W1 = 16 /\ length W2 = 10.
Proof.
  intros (W0 & W1 & W2 & -> & [L0 _] & [L1 _] & [L2 _]).
  exists W0, W1, W2. auto.
Qed.

Lemma mirrors_inv (W0 W1 W2 : matrix) (G : weights) :
  mirrors [W0; W1; W2] G ->
  exists G0 G1 G2,
    G = [G0; G1; G2]
    /\ Forall2 (fun row grow : list number => length row = length grow)
               W0 G0
    /\ Forall2 (fun row grow : list number => length row = length grow)
               W1 G1
    /\ Forall2 (fun row grow : list number => length row = length grow)
               W2 G2.
Proof.
  unfold mirrors. intros H.
  apply Forall2_cons_inv_l in H as (G0 & Gs & H0 & H & ->).
  apply Forall2_cons_inv_l in H as (G1 & Gs' & H1 & H & ->).
  apply Forall2_cons_inv_l in H as (G2 & Gs'' & H2 & H & ->).
  apply Forall2_nil_inv_l in H as ->.
  exists G0, G1, G2. auto.
Qed.

Lemma processImage_NaN_sample (w : weights) (image : sample) (st : batch)
    (k : nat) :
  well_shaped w ->
  mirrors w (gradients st) ->
  pixels image !! k = Some NaN ->
  exists st',
    processImage w image st = Ok st'
    /\ mirrors w (gradients st')
    /\ lossSum st' = (lossSum st + Finite 0)%js
    /\ correct st' = correct st
    /\ layer_is_NaN (gradients st') 2
    /\ layer_is_NaN (gradients st') 1
    /\ forall i x, entry (gradients st') 0 i k = Some x -> x = NaN.
Proof.
  intros Hw Hm Hk.
  pose proof Hw as Hshape.
  apply well_shaped_inv in Hw as (W0 & W1 & W2 & -> & L0 & L1 & L2).
  pose proof Hm as HmG.
  apply mirrors_inv in Hm as (G0 & G1 & G2 & HG & H0 & H1 & H2).
  eexists. split.
  { apply (processImage_NaN_closed W0 W1 W2 G0 G1 G2 image st k);
      try assumption; lia. }
  cbn [gradients lossSum correct].
  assert (Hm' : mirrors [W0; W1; W2]
                  [addOuter (replicate (length W0) (Finite 0))
                            (normalizePixels (pixels image)) G0;
                   addOuter (replicate (length W1) (Finite 0))
                            (replicate (length W0) NaN) G1;
                   addOuter (replicate (length W2) NaN)
                            (replicate (length W1) NaN) G2]).
  { unfold mirrors. repeat constructor; apply shape_addOuter; assumption. }
  split; [exact Hm'|]. split; [reflexivity|]. split; [reflexivity|].
  split; [|split].
  - intros i j x Hx.
    destruct (entry_after_sample _ _ _ _ _ _ _ _ _ _ _ _ _ Hx)
      as (g & dz & a & _ & Hdz & _ & ->).
    injection Hdz as <-.
    destruct (mirrors_entry _ _ _ _ _ _ Hm' Hx) as [y Hy].
    apply entry_Some in Hy as (Wl & row & HWl & Hrow & _).
    injection HWl as <-. apply lookup_lt_Some in Hrow.
    rewrite get_replicate by exact Hrow.
    rewrite mul_NaN_l. apply add_NaN_r.
  - intros i j x Hx.
    destruct (entry_after_sample _ _ _ _ _ _ _ _ _ _ _ _ _ Hx)
      as (g & dz & a & _ & _ & Ha & ->).
    injection Ha as <-.
    destruct (mirrors_entry _ _ _ _ _ _ Hm' Hx) as [y Hy].
    apply entry_Some in Hy as (Wl & row & HWl & Hrow & Hj).
    injection HWl as <-. apply lookup_lt_Some in Hj.
    destruct Hshape as (V0 & V1 & V2 & E & _ & [_ S1] & _).
    injection E as <- <- <-.
    rewrite Forall_lookup in S1. rewrite (S1 i row Hrow) in Hj.
    rewrite get_replicate by lia.
    rewrite mul_NaN_r. apply add_NaN_r.
  - intros i x Hx.
    destruct (entry_after_sample _ _ _ _ _ _ _ _ _ _ _ _ _ Hx)
      as (g & dz & a & _ & _ & Ha & ->).
    injection Ha as <-. unfold normalizePixels.
    rewrite (get_Some _ k NaN)
      by (rewrite list_lookup_fmap, Hk; reflexivity).
    rewrite mul_NaN_r. apply add_NaN_r.
Qed.

(** X28.  A sample with a NaN pixel (a pixel read outside the image file)
    raises no error on weights of the expected shapes: it adds 0 to the
    loss, is not counted as correct, and turns into NaN every gradient of
    the output layer and of the second hidden layer, and in the first layer
    the gradients of that pixel. *)
Theorem processImage_NaN_pixel (w : weights) (image : sample) (st : batch)
    (k : nat) :
  well_shaped w ->
  mirrors w (gradients st) ->
  pixels image !! k = Some NaN ->
  exists st',
    processImage w image st = Ok st'
    /\ lossSum st' = (lossSum st + Finite 0)%js
    /\ correct st' = correct st
    /\ layer_is_NaN (gradients st') 2
    /\ layer_is_NaN (gradients st') 1
    /\ forall i x, entry (gradients st') 0 i k = Some x -> x = NaN.
Proof.
  intros Hw Hm Hk.
  destruct (processImage_NaN_sample w image st k Hw Hm Hk)
    as (st' & H & _ & H').
  exists st'. split; [exact H | exact H'].
Qed.

Lemma processImage_NaN_pixel_witness :
  exists st',
    processImage zeroGradients
      {| index := 0; label := Some 3; pixels := [Finite 0; NaN] |}
      {| gradients := zeroGradients; lossSum := Finite 0; correct := 0 |}
    = Ok st'
    /\ lossSum st' = (Finite 0 + Finite 0)%js
    /\ correct st' = 0
    /\ layer_is_NaN (gradients st') 2
    /\ layer_is_NaN (gradients st') 1
    /\ forall i x, entry (gradients st') 0 i 1 = Some x -> x = NaN.
Proof.
  apply (processImage_NaN_pixel zeroGradients
           {| index := 0; label := Some 3; pixels := [Finite 0; NaN] |}
           {| gradients := zeroGradients; lossSum := Finite 0;
              correct := 0 |} 1).
  - apply well_shaped_zero.
  - apply mirrors_refl.
  - reflexivity.
Defined.

(** ** A batch that reaches beyond the image file *)

Lemma forEach_app {A St} (l1 l2 : list A) (body : A -> St -> result St)
    (s : St) :
  forEach (l1 ++ l2) body s = (s' ← forEach l1 body s; forEach l2 body s').
Proof.
  revert s. induction l1 as [|a l1 IH]; intros s; simpl; [reflexivity|].
  destruct (body a s) as [s1|e]; simpl; [apply IH | reflexivity].
Qed.

Lemma processImage_adds (w : weights) (image : sample) (st : batch) :
  well_shaped w ->
  mirrors w (gradients st) ->
  exists st',
    processImage w image st = Ok st'
    /\ mirrors w (gradients st')
    /\ forall layer i j x,
         entry (gradients st') layer i j = Some x ->
         exists g d,
           entry (gradients st) layer i j = Some g /\ x = (g + d)%js.
Proof.
  intros Hw Hm.
  apply well_shaped_inv in Hw as (W0 & W1 & W2 & -> & L0 & L1 & L2).
  apply mirrors_inv in Hm as (G0 & G1 & G2 & HG & H0 & H1 & H2).
  set (x := normalizePixels (pixels image)).
  set (a1 := relu <$> forwardLayer (relu <$> forwardLayer x W0) W1).
  assert (Hz2 : forwardLayer a1 W2 <> []).
  { intros E. apply (f_equal length) in E.
    rewrite length_forwardLayer, L2 in E. discriminate. }
  destruct (softmax_total _ Hz2) as (output & Hsoft & _).
  pose proof (processImage_closed W0 W1 W2 G0 G1 G2 image st output
                HG H0 H1 H2 Hsoft) as Hrun.
  cbv zeta in Hrun. eexists. split; [exact Hrun|].
  cbn [gradients]. split.
  - unfold mirrors. repeat constructor; apply shape_addOuter; assumption.
  - intros layer i j y Hy. rewrite HG.
    destruct (entry_after_sample _ _ _ _ _ _ _ _ _ _ _ _ _ Hy)
      as (g & dz & a & Hg & _ & _ & ->).
    eexists g, _. split; [exact Hg | reflexivity].
Qed.

Lemma processImage_keeps_NaN (w : weights) (image : sample)
    (st st' : batch) (layer : nat) :
  well_shaped w ->
  mirrors w (gradients st) /\ layer_is_NaN (gradients st) layer ->
  processImage w image st = Ok st' ->
  mirrors w (gradients st') /\ layer_is_NaN (gradients st') layer.
Proof.
  intros Hw [Hm HN] H.
  destruct (processImage_adds w image st Hw Hm) as (st1 & E & Hm1 & Hadd).
  rewrite E in H. injection H as <-. split; [exact Hm1|].
  intros i j x Hx. destruct (Hadd layer i j x Hx) as (g & d & Hg & ->).
  rewrite (HN i j g Hg). reflexivity.
Qed.

Lemma sgd_NaN_layer (w G : weights) (batchSize : number) (layer : nat) :
  mirrors w G -> layer_is_NaN G layer ->
  layer_is_NaN (sgd w G batchSize) layer.
Proof.
  intros Hm HN i j x Hx. rewrite entry_sgd in Hx.
  apply fmap_Some in Hx as (y & Hy & ->).
  destruct (mirrors_entry G w layer i j y (mirrors_sym _ _ Hm) Hy)
    as [g Hg].
  rewrite (entry_wrow _ _ _ _ _ Hg), (HN i j g Hg).
  change (NaN / batchSize)%js with NaN. apply sub_NaN.
Qed.

(** A batch with one sample that has a NaN pixel. *)
Lemma run_NaN_sample (fs : files) (w : weights) (position : Z) (k j : nat)
    (bad : sample) :
  well_shaped w ->
  readMNIST fs (position * 10) (position * 10 + 10) !! k = Some bad ->
  pixels bad !! j = Some NaN ->
  exists w' m,
    run fs w position = Ok (w', m)
    /\ layer_is_NaN w' 2 /\ layer_is_NaN w' 1.
Proof.
  intros Hw Hk Hj. unfold run. fold zeroGradients.
  set (images := readMNIST fs (position * 10) (position * 10 + 10)) in *.
  set (st0 := {| gradients := zeroGradients; lossSum := Finite 0;
                 correct := 0 |}).
  assert (Hm0 : mirrors w (gradients st0))
    by (apply well_shaped_mirrors, Hw).
  pose proof Hw as Hw'.
  apply well_shaped_inv in Hw' as (W0 & W1 & W2 & Ew & L0 & L1 & L2).
  assert (Hne : W2 <> []) by (intros ->; discriminate).
  subst w.
  destruct (forEach_keeps_shape W0 W1 W2 (take k images) st0 Hne Hm0)
    as (st1 & E1 & Hm1).
  destruct (processImage_NaN_sample _ bad st1 j Hw Hm1 Hj)
    as (st2 & E2 & Hm2 & _ & _ & HN2 & HN1 & _).
  destruct (forEach_keeps_shape W0 W1 W2 (drop (S k) images) st2 Hne Hm2)
    as (st3 & E3 & Hm3).
  assert (H2 : mirrors [W0; W1; W2] (gradients st3)
               /\ layer_is_NaN (gradients st3) 2).
  { revert E3.
    apply (forEach_preserves
             (fun st => mirrors [W0; W1; W2] (gradients st)
                        /\ layer_is_NaN (gradients st) 2)); [|auto].
    intros image s s'. apply processImage_keeps_NaN, Hw. }
  assert (H1 : mirrors [W0; W1; W2] (gradients st3)
               /\ layer_is_NaN (gradients st3) 1).
  { revert E3.
    apply (forEach_preserves
             (fun st => mirrors [W0; W1; W2] (gradients st)
                        /\ layer_is_NaN (gradients st) 1)); [|auto].
    intros image s s'. apply processImage_keeps_NaN, Hw. }
  assert (E : forEach images (processImage [W0; W1; W2]) st0 = Ok st3).
  { rewrite <- (take_drop_middle images k bad Hk), forEach_app.
    rewrite E1, bind_Ok. simpl. rewrite E2, bind_Ok. exact E3. }
  rewrite E, bind_Ok.
  rewrite updateWeights_closed, bind_Ok by (reflexivity || exact Hm3).
  eexists _, _. split; [reflexivity|].
  split; apply sgd_NaN_layer; tauto.
Qed.

(** X29.  When the image file ends before the last pixel of the batch,
    the batch raises no error on weights of the expected shapes, and it
    leaves NaN in every weight of the output layer and of the second hidden
    layer. *)
Theorem run_truncated_images (fs : files) (images labels : list byte)
    (w : weights) (position : Z) :
  train_images fs = Some images ->
  train_labels fs = Some labels ->
  (position < 6000)%Z ->
  (Z.of_nat (length images) < 7840 * (position + 1) + 16)%Z ->
  well_shaped w ->
  exists w' m,
    run fs w position = Ok (w', m)
    /\ layer_is_NaN w' 2 /\ layer_is_NaN w' 1.
Proof.
  intros Hi Hl Hp Hlen Hw.
  assert (Hbad : exists bad,
             readMNIST fs (position * 10) (position * 10 + 10) !! 9
             = Some bad
             /\ pixels bad !! 783 = Some NaN).
  { unfold readMNIST. rewrite Hi, Hl.
    eexists. split.
    - rewrite list_lookup_fmap, lookup_seqZ_lt by lia. reflexivity.
    - cbn [pixels].
      rewrite (nested_loops_flat
                 (fun x y =>
                    (toNumber
                       (Num.of_nat <$>
                          buffer_get images
                            ((position * 10 + Z.of_nat 9) * 28 * 28
                             + (Z.of_nat x + Z.of_nat y * 28) + 16)%Z)
                     / Finite 255)%js) 28 28) by lia.
      rewrite list_lookup_fmap, lookup_seq_lt by lia.
      cbn [fmap option_fmap option_map]. f_equal.
      change ((0 + 783) mod 28) with 27. change ((0 + 783) / 28) with 27.
      unfold buffer_get.
      destruct (Z.ltb_spec
                  ((position * 10 + Z.of_nat 9) * 28 * 28
                   + (Z.of_nat 27 + Z.of_nat 27 * 28) + 16) 0);
        [reflexivity|].
      rewrite lookup_ge_None_2 by lia. reflexivity. }
  destruct Hbad as (bad & Hk & Hj).
  apply (run_NaN_sample fs w position 9 783 bad Hw Hk Hj).
Qed.

Lemma run_truncated_images_witness :
  exists w' m,
    run {| train_images := Some (replicate 16 Byte.x00);
           train_labels := Some (replicate 18 Byte.x05) |}
        zeroGradients 0 = Ok (w', m)
    /\ layer_is_NaN w' 2 /\ layer_is_NaN w' 1.
Proof.
  apply (run_truncated_images _ (replicate 16 Byte.x00)
           (replicate 18 Byte.x05)).
  - reflexivity.
  - reflexivity.
  - lia.
  - simpl. lia.
  - apply well_shaped_zero.
Defined.

(** ** The progress reports of main *)

Lemma for_from_rel {S1 S2} (R : nat -> S1 -> S2 -> Prop)
    (body1 : nat -> S1 -> result S1) (body2 : nat -> S2 -> result S2)
    (i n : nat) (s1 : S1) (s2 : S2) :
  R i s1 s2 ->
  (forall j s1 s2,
     R j s1 s2 -> result_rel (R (S j)) (body1 j s1) (body2 j s2)) ->
  result_rel (R (i + n)) (for_from i n body1 s1) (for_from i n body2 s2).
Proof.
  intros Hs Hstep. revert i s1 s2 Hs.
  induction n as [|n IH]; intros i s1 s2 Hs; simpl.
  - rewrite Nat.add_0_r. exact Hs.
  - pose proof (Hstep i s1 s2 Hs) as H.
    destruct (body1 i s1) as [s1'|e1], (body2 i s2) as [s2'|e2];
      simpl in H; try contradiction.
    + rewrite !bind_Ok, Nat.add_succ_r. apply (IH (S i)), H.
    + exact H.
Qed.

Lemma block_complete (j : nat) :
  (j + 1) mod 10 = 0 -> S j / 10 = S (j / 10) /\ j = 10 * (j / 10) + 9.
Proof.
  intros H.
  pose proof (Nat.div_mod_eq j 10) as Ej.
  pose proof (Nat.mod_upper_bound j 10) as Hr.
  pose proof (Nat.div_mod_eq (j + 1) 10) as Ej'.
  rewrite H in Ej'. replace (S j) with (j + 1) by lia. lia.
Qed.

Lemma block_incomplete (j : nat) :
  (j + 1) mod 10 <> 0 -> S j / 10 = j / 10.
Proof.
  intros H.
  pose proof (Nat.div_mod_eq j 10) as Ej.
  pose proof (Nat.mod_upper_bound j 10) as Hr.
  pose proof (Nat.div_mod_eq (j + 1) 10) as Ej'.
  pose proof (Nat.mod_upper_bound (j + 1) 10) as Hr'.
  replace (S j) with (j + 1) by lia. lia.
Qed.

Lemma block_start (j : nat) : 10 * (j / 10) <= j.
Proof. pose proof (Nat.div_mod_eq j 10). lia. Qed.

(** A full block of the log is not changed by what is appended. *)
Lemma block_app (ms : list metrics) (m : metrics) (k : nat) :
  10 * k + 10 <= length ms ->
  take 10 (drop (10 * k) (ms ++ [m])) = take 10 (drop (10 * k) ms).
Proof.
  intros H. rewrite drop_app_le by lia.
  apply take_app_le. rewrite length_drop. lia.
Qed.

Lemma blocks_app (n : nat) (ms : list metrics) (m : metrics) (q : nat) :
  10 * q <= length ms ->
  (fun k => summarize (10 * k + 9) n (take 10 (drop (10 * k) (ms ++ [m]))))
  <$> seq 0 q
  = (fun k => summarize (10 * k + 9) n (take 10 (drop (10 * k) ms)))
    <$> seq 0 q.
Proof.
  intros H. apply list_fmap_ext. intros i k Hk.
  apply lookup_seq in Hk as [-> Hi]. cbv beta.
  rewrite block_app by lia. reflexivity.
Qed.

(** The state of the loop of [main] after [j] batches, in terms of the
    log [ms] of all metrics so far. *)
Lemma report_step (n j : nat) (ms : list metrics) (m : metrics) :
  length ms = j ->
  let recent := drop (10 * (j / 10)) ms ++ [m] in
  let console :=
    (fun k => summarize (10 * k + 9) n (take 10 (drop (10 * k) ms)))
    <$> seq 0 (j / 10) in
  let console' :=
    (fun k =>
       summarize (10 * k + 9) n (take 10 (drop (10 * k) (ms ++ [m]))))
    <$> seq 0 (S j / 10) in
  if (j + 1) mod 10 =? 0
  then [] = drop (10 * (S j / 10)) (ms ++ [m])
       /\ console ++ [summarize j n recent] = console'
  else recent = drop (10 * (S j / 10)) (ms ++ [m])
       /\ console = console'.
Proof.
  intros Hlen recent console console'.
  pose proof (block_start j) as Hstart.
  destruct (Nat.eqb_spec ((j + 1) mod 10) 0) as [H|H].
  - destruct (block_complete j H) as [Hq Hj]. split.
    + rewrite drop_ge; [reflexivity|].
      rewrite length_app, Hq. cbn [length]. lia.
    + unfold console'. rewrite Hq, seq_S, fmap_app.
      rewrite blocks_app by lia. fold console. f_equal.
      cbn [fmap list_fmap]. change (0 + j / 10) with (j / 10).
      f_equal. rewrite <- Hj. f_equal.
      unfold recent. rewrite <- drop_app_le by lia.
      rewrite take_ge; [reflexivity|].
      rewrite length_drop, length_app. cbn [length]. lia.
  - unfold console'. rewrite (block_incomplete j H). split.
    + unfold recent. rewrite drop_app_le by lia. reflexivity.
    + rewrite blocks_app by lia. reflexivity.
Qed.

Lemma mainWithReports_blocks (fs : files)
    (w_json : option (result weights)) (random : nat -> number)
    (totalBatches : nat) :
  mainWithReports fs w_json random totalBatches
  = (w ← loadWeights w_json random;
     '(w', ms) ← trainingMetrics fs w totalBatches;
     Ok (w', reportsOf totalBatches ms)).
Proof.
  unfold mainWithReports, trainingMetrics, for_loop.
  destruct (loadWeights w_json random) as [w0|e]; [|reflexivity].
  rewrite !bind_Ok.
  set (R := fun (j : nat)
                '((w, recentMetrics, console)
                  : weights * list metrics * list report)
                '((w', ms) : weights * list metrics) =>
              w = w' /\ length ms = j
              /\ recentMetrics = drop (10 * (j / 10)) ms
              /\ console
                 = (fun k => summarize (10 * k + 9) totalBatches
                               (take 10 (drop (10 * k) ms)))
                   <$> seq 0 (j / 10)).
  assert (H :
    result_rel (R (0 + totalBatches))
      (for_from 0 totalBatches
         (fun i '(w, recentMetrics, console) =>
            '(w, metrics) ← run fs w (Z.of_nat i);
            let recentMetrics := recentMetrics ++ [metrics] in
            if (i + 1) mod reportInterval =? 0
            then Ok (w, [],
                     console ++ [summarize i totalBatches recentMetrics])
            else Ok (w, recentMetrics, console))
         (w0, [], []))
      (for_from 0 totalBatches
         (fun i '(w, ms) =>
            '(w, m) ← run fs w (Z.of_nat i); Ok (w, ms ++ [m]))
         (w0, []))).
  { apply (for_from_rel R).
    - unfold R. auto.
    - intros j [[w recent'] console'] [w' ms'] (<- & Hlen & -> & ->).
      destruct (run fs w (Z.of_nat j)) as [[w1' m]|e]; [|reflexivity].
      rewrite !bind_Ok. cbv zeta.
      pose proof (report_step totalBatches j ms' m Hlen) as Hstep.
      cbv zeta in Hstep. unfold reportInterval.
      destruct ((j + 1) mod 10 =? 0); unfold result_rel, R;
        destruct Hstep as [H1 H2];
        (split; [reflexivity|]);
        (split; [rewrite length_app; simpl; lia|]);
        (split; [exact H1|]); rewrite H2; reflexivity. }
  destruct (for_from 0 totalBatches _ (w0, [], []))
    as [[[w1 recent] console]|e1];
    destruct (for_from 0 totalBatches _ (w0, [])) as [[w2 ms]|e2];
    unfold result_rel, R in H; try contradiction.
  - destruct H as (-> & Hlen & _ & ->). reflexivity.
  - rewrite H. reflexivity.
Qed.

Lemma length_trainingMetrics (fs : files) (w w' : weights) (n : nat)
    (ms : list metrics) :
  trainingMetrics fs w n = Ok (w', ms) -> length ms = n.
Proof.
  unfold trainingMetrics, for_loop.
  assert (H : forall i k s s',
             for_from i k
               (fun i '(w, ms) =>
                  '(w, m) ← run fs w (Z.of_nat i); Ok (w, ms ++ [m]))
               s = Ok s' ->
             length s'.2 = length s.2 + k).
  { intros i k. revert i. induction k as [|k IH]; intros i s s'; simpl.
    - intros E. injection E as <-. lia.
    - intros E. apply bind_Ok_inv in E as ([w1 ms1] & E1 & E).
      apply IH in E. destruct s as [w0 ms0].
      apply bind_Ok_inv in E1 as ([w2 m] & _ & E1).
      injection E1 as <- <-. simpl in *. rewrite length_app in E.
      simpl in E. lia. }
  intros E. apply H in E. exact E.
Qed.

Lemma main_of_mainWithReports (fs : files)
    (w_json : option (result weights)) (random : nat -> number)
    (totalBatches : nat) :
  main fs w_json random totalBatches
  = ('(w, _) ← mainWithReports fs w_json random totalBatches; Ok w).
Proof.
  unfold main, mainWithReports, for_loop.
  destruct (loadWeights w_json random) as [w0|e]; [|reflexivity].
  rewrite !bind_Ok.
  set (R := fun (_ : nat) (w : weights)
                '((w', _, _) : weights * list metrics * list report) =>
              w = w').
  assert (H :
    result_rel (R (0 + totalBatches))
      (for_from 0 totalBatches
         (fun i w => '(w, _) ← run fs w (Z.of_nat i); Ok w) w0)
      (for_from 0 totalBatches
         (fun i '(w, recentMetrics, console) =>
            '(w, metrics) ← run fs w (Z.of_nat i);
            let recentMetrics := recentMetrics ++ [metrics] in
            if (i + 1) mod reportInterval =? 0
            then Ok (w, [],
                     console ++ [summarize i totalBatches recentMetrics])
            else Ok (w, recentMetrics, console))
         (w0, [], []))).
  { apply (for_from_rel R).
    - reflexivity.
    - intros j w [[w' recent'] console'] <-.
      destruct (run fs w (Z.of_nat j)) as [[w1' m]|e]; [|reflexivity].
      rewrite !bind_Ok. cbv zeta.
      destruct ((j + 1) mod reportInterval =? 0); reflexivity. }
  destruct (for_from 0 totalBatches _ w0) as [w1|e1];
    destruct (for_from 0 totalBatches _ (w0, [], []))
      as [[[w2 recent] console]|e2];
    unfold result_rel, R in H; try contradiction.
  - rewrite H. reflexivity.
  - rewrite H. reflexivity.
Qed.

(** X30.  The reports of [main] are the summaries of the consecutive
    blocks of ten batches of the training log: report [k] is computed from
    the metrics of batches [10 k] to [10 k + 9], the log has one entry for
    each batch, batches after the last full block are never reported, and
    reporting leaves the trained weights as they are. *)
Theorem main_reports (fs : files) (w_json : option (result weights))
    (random : nat -> number) (totalBatches : nat) :
  mainWithReports fs w_json random totalBatches
  = (w ← loadWeights w_json random;
     '(w', ms) ← trainingMetrics fs w totalBatches;
     Ok (w', reportsOf totalBatches ms))
  /\ (forall w w' ms,
        trainingMetrics fs w totalBatches = Ok (w', ms) ->
        length ms = totalBatches)
  /\ main fs w_json random totalBatches
     = ('(w, _) ← mainWithReports fs w_json random totalBatches; Ok w).
Proof.
  split; [apply mainWithReports_blocks|].
  split; [intros w w' ms; apply length_trainingMetrics|].
  apply main_of_mainWithReports.
Qed.

(** ** A batch inside the image file, on finite weights *)

Lemma is_finite_add (a b : number) :
  is_finite a -> is_finite b -> is_finite (a + b)%js.
Proof. intros [x ->] [y ->]. eexists. reflexivity. Qed.

Lemma is_finite_sub (a b : number) :
  is_finite a -> is_finite b -> is_finite (a - b)%js.
Proof. intros [x ->] [y ->]. eexists. reflexivity. Qed.

Lemma is_finite_mul (a b : number) :
  is_finite a -> is_finite b -> is_finite (a * b)%js.
Proof. intros [x ->] [y ->]. eexists. reflexivity. Qed.

Lemma is_finite_div (a : number) (r : R) :
  is_finite a -> r <> 0%R -> is_finite (a / Finite r)%js.
Proof.
  intros [x ->] H. unfold Num.div. rewrite Reqb_false by exact H.
  eexists. reflexivity.
Qed.

Lemma is_finite_get (v : list number) (i : nat) :
  Forall is_finite v -> i < length v -> is_finite (get v i).
Proof.
  intros H Hi. destruct (lookup_lt_is_Some_2 v i Hi) as [x Hx].
  rewrite (get_Some _ _ _ Hx). apply (Forall_lookup_1 _ _ _ _ H Hx).
Qed.

Lemma sum_upto_is_finite (n : nat) (f : nat -> number) :
  (forall k, k < n -> is_finite (f k)) -> is_finite (sum_upto n f).
Proof.
  unfold sum_upto. induction n as [|n IH]; intros H.
  - eexists. reflexivity.
  - rewrite seq_S, foldl_app. cbn [foldl]. apply is_finite_add.
    + apply IH. intros k Hk. apply H. lia.
    + apply H. lia.
Qed.

Lemma dot_is_finite (x row : list number) :
  Forall is_finite x -> Forall is_finite row -> length x <= length row ->
  is_finite (dot x row).
Proof.
  intros Hx Hrow Hlen. unfold dot. apply sum_upto_is_finite.
  intros k Hk. apply is_finite_mul; apply is_finite_get; auto; lia.
Qed.

Lemma forwardLayer_is_finite (x : list number) (W : matrix) (cols : nat) :
  Forall is_finite x -> length x = cols ->
  Forall (Forall is_finite) W -> Forall (fun row => length row = cols) W ->
  Forall is_finite (forwardLayer x W).
Proof.
  intros Hx Hlen HW Hcols. rewrite forwardLayer_dot.
  apply Forall_fmap, Forall_lookup. intros i row Hrow. simpl.
  apply dot_is_finite; [exact Hx | |].
  - apply (Forall_lookup_1 _ _ _ _ HW Hrow).
  - rewrite (Forall_lookup_1 _ _ _ _ Hcols Hrow). lia.
Qed.

Lemma relu_is_finite (v : list number) :
  Forall is_finite v -> Forall is_finite (relu <$> v).
Proof.
  intros H. apply Forall_fmap. eapply Forall_impl; [exact H|].
  intros a [r ->]. unfold compose. cbv beta.
  rewrite relu_finite. eexists. reflexivity.
Qed.

Lemma normalizePixels_is_finite (pixels : list number) :
  Forall is_finite pixels -> Forall is_finite (normalizePixels pixels).
Proof.
  intros H. apply Forall_fmap. eapply Forall_impl; [exact H|].
  intros a [r ->]. unfold compose. cbv beta.
  rewrite normalize_finite. eexists. reflexivity.
Qed.

Lemma finite_vector_of (v : list number) :
  Forall is_finite v -> exists rs, v = finite_vector rs.
Proof.
  induction 1 as [|a v [r ->] _ [rs ->]].
  - exists []. reflexivity.
  - exists (r :: rs). reflexivity.
Qed.

Lemma softmax_probabilities (z : list number) :
  Forall is_finite z -> z <> [] ->
  exists ps,
    softmax z = Ok (finite_vector ps)
    /\ length ps = length z
    /\ Forall (fun p => (0 < p <= 1)%R) ps.
Proof.
  intros Hz Hne. destruct (finite_vector_of z Hz) as [rs ->].
  assert (Hrs : rs <> []) by (intros ->; apply Hne; reflexivity).
  exists (softmax_spec rs). split; [apply softmax_finite, Hrs|].
  split.
  { unfold softmax_spec, finite_vector. rewrite !length_fmap. reflexivity. }
  set (m := Rmaximum rs).
  set (exps := (fun y => exp (y - m)) <$> rs).
  assert (Hexps : exps <> [])
    by (destruct rs; [congruence | discriminate]).
  assert (Hpos : (0 < Rsum exps)%R)
    by (apply Rsum_pos, exps_positive; exact Hexps).
  apply Forall_lookup. intros i p Hp.
  assert (Hi : i < length rs).
  { apply lookup_lt_Some in Hp. unfold softmax_spec in Hp.
    rewrite !length_fmap in Hp. exact Hp. }
  destruct (lookup_lt_is_Some_2 rs i Hi) as [x Hx].
  rewrite (lookup_softmax_spec rs i x Hx) in Hp. injection Hp as <-.
  fold m. fold exps.
  pose proof (exp_pos (x - m)) as Hx0.
  assert (Hle : (exp (x - m) <= Rsum exps)%R).
  { apply (Rsum_elem_le exps i).
    - eapply Forall_impl; [apply (exps_positive (fun y => (y - m)%R))|].
      simpl. intros; lra.
    - unfold exps. rewrite list_lookup_fmap, Hx. reflexivity. }
  split.
  - apply Rdiv_lt_0_compat; assumption.
  - apply Rmult_le_reg_r with (Rsum exps); [exact Hpos|].
    unfold Rdiv. rewrite Rmult_assoc, Rinv_l by lra. lra.
Qed.

Lemma crossEntropyLoss_nonneg (ps : list R) (target : list number) :
  Forall (fun p => (0 < p <= 1)%R) ps ->
  (forall i, i < length ps -> finite_nonneg (get target i)) ->
  finite_nonneg (crossEntropyLoss (finite_vector ps) target).
Proof.
  intros Hps Ht. unfold crossEntropyLoss. cbv zeta.
  rewrite length_finite_vector.
  assert (H : forall n, n <= length ps ->
            finite_nonneg
              (foldl (fun (loss : number) (i : nat) =>
                        if (get (finite_vector ps) i > Finite 0)%js
                        then (loss - get target i
                                     * Num.log (get (finite_vector ps) i))%js
                        else loss)
                     (Finite 0) (seq 0 n))).
  { induction n as [|n IH]; intros Hn.
    - exists 0%R. split; [reflexivity | lra].
    - rewrite seq_S, foldl_app. cbn [foldl]. change (0 + n) with n.
      destruct (IH ltac:(lia)) as (l & -> & Hl).
      destruct (lookup_lt_is_Some_2 ps n ltac:(lia)) as [p Hp].
      rewrite (get_finite_vector ps _ p Hp).
      pose proof (Forall_lookup_1 _ _ _ _ Hps Hp) as Hrange.
      simpl in Hrange.
      destruct (Ht n ltac:(lia)) as (t & -> & Ht0).
      unfold Num.gt, Num.log. rewrite Rltb_true by lra.
      exists (l - t * ln p)%R. split; [reflexivity|].
      assert (Hln : (ln p <= 0)%R).
      { destruct (Req_dec p 1) as [->|Hp1]; [rewrite ln_1; lra|].
        rewrite <- ln_1. apply Rlt_le, ln_increasing; lra. }
      nra. }
  apply H. lia.
Qed.

Lemma oneHot_nonneg (label : option nat) (i : nat) :
  i < 10 -> finite_nonneg (get (oneHot label) i).
Proof.
  intros Hi. rewrite get_oneHot.
  destruct (decide (label = Some i)).
  - exists 1%R. split; [reflexivity | lra].
  - destruct (decide (i < 10)); [|lia].
    exists 0%R. split; [reflexivity | lra].
Qed.

Lemma outputDelta_is_finite (ps : list R) (target : list number) :
  (forall i, i < length ps -> is_finite (get target i)) ->
  Forall is_finite (outputDelta (finite_vector ps) target).
Proof.
  intros Ht. apply Forall_lookup. intros i x Hx.
  unfold outputDelta in Hx.
  apply list_lookup_imap_Some in Hx as (y & Hy & ->).
  apply is_finite_sub.
  - unfold finite_vector in Hy. rewrite list_lookup_fmap in Hy.
    apply fmap_Some in Hy as (p & _ & ->). eexists. reflexivity.
  - apply Ht. apply lookup_lt_Some in Hy.
    rewrite length_finite_vector in Hy. exact Hy.
Qed.

Lemma reluDerivative_is_finite (da z : list number) :
  Forall is_finite da -> Forall is_finite (reluDerivative da z).
Proof.
  intros H. apply Forall_lookup. intros i x Hx.
  unfold reluDerivative in Hx.
  apply list_lookup_imap_Some in Hx as (y & Hy & ->).
  destruct (get z i > Finite 0)%js.
  - apply (Forall_lookup_1 _ _ _ _ H Hy).
  - eexists. reflexivity.
Qed.

Lemma mrow_is_finite (W : matrix) (cols i j : nat) :
  Forall (Forall is_finite) W -> Forall (fun row => length row = cols) W ->
  i < length W -> j < cols -> is_finite (get (mrow W i) j).
Proof.
  intros HW Hcols Hi Hj.
  destruct (lookup_lt_is_Some_2 W i Hi) as [row Hrow].
  unfold mrow. rewrite Hrow. simpl. apply is_finite_get.
  - apply (Forall_lookup_1 _ _ _ _ HW Hrow).
  - rewrite (Forall_lookup_1 _ _ _ _ Hcols Hrow). exact Hj.
Qed.

Lemma backward_is_finite (W : matrix) (dz : list number) (cols n : nat) :
  Forall (Forall is_finite) W -> Forall (fun row => length row = cols) W ->
  Forall is_finite dz -> length dz <= length W -> n <= cols ->
  Forall is_finite
    ((fun j => sum_upto (length dz)
                 (fun i => (get (mrow W i) j * get dz i)%js))
     <$> seq 0 n).
Proof.
  intros HW Hcols Hdz Hlen Hn. apply Forall_fmap, Forall_lookup.
  intros k j Hj. apply lookup_seq in Hj as [-> Hk]. simpl.
  apply sum_upto_is_finite. intros i Hi. apply is_finite_mul.
  - apply (mrow_is_finite W cols); auto; lia.
  - apply is_finite_get; auto.
Qed.

Lemma all_finite_rows (w : weights) (layer : nat) (Wl : matrix) :
  all_finite w -> w !! layer = Some Wl -> Forall (Forall is_finite) Wl.
Proof.
  intros Hw Hl. apply Forall_lookup. intros i row Hrow.
  apply Forall_lookup. intros j x Hx.
  apply (Hw layer i j x). eapply entry_intro; eassumption.
Qed.

Lemma well_shaped_layers (W0 W1 W2 : matrix) :
  well_shaped [W0; W1; W2] ->
  has_shape 16 784 W0 /\ has_shape 16 16 W1 /\ has_shape 10 16 W2.
Proof. intros (V0 & V1 & V2 & E & H). injection E as -> -> ->. exact H. Qed.

(** The indices of an entry of well-shaped weights are within the shape of
    its layer. *)
Lemma entry_in_shape (W0 W1 W2 : matrix) (layer i j : nat) (y : number) :
  well_shaped [W0; W1; W2] ->
  entry [W0; W1; W2] layer i j = Some y ->
  exists rows cols,
    [16; 16; 10] !! layer = Some rows /\ [784; 16; 16] !! layer = Some cols
    /\ i < rows /\ j < cols.
Proof.
  intros Hw Hy.
  apply well_shaped_layers in Hw as ([L0 S0] & [L1 S1] & [L2 S2]).
  apply entry_Some in Hy as (Wl & row & Hl & Hi & Hj).
  apply lookup_lt_Some in Hj.
  destruct layer as [|[|[|layer]]]; try discriminate; injection Hl as <-.
  - exists 16, 784. rewrite (Forall_lookup_1 _ _ _ _ S0 Hi) in Hj.
    apply lookup_lt_Some in Hi. repeat split; [lia | exact Hj].
  - exists 16, 16. rewrite (Forall_lookup_1 _ _ _ _ S1 Hi) in Hj.
    apply lookup_lt_Some in Hi. repeat split; [lia | exact Hj].
  - exists 10, 16. rewrite (Forall_lookup_1 _ _ _ _ S2 Hi) in Hj.
    apply lookup_lt_Some in Hi. repeat split; [lia | exact Hj].
Qed.

Lemma processImage_finite (w : weights) (image : sample) (st : batch) :
  well_shaped w -> all_finite w ->
  mirrors w (gradients st) -> all_finite (gradients st) ->
  finite_nonneg (lossSum st) ->
  finite_sample image ->
  exists st',
    processImage w image st = Ok st'
    /\ mirrors w (gradients st') /\ all_finite (gradients st')
    /\ finite_nonneg (lossSum st').
Proof.
  intros Hw Hfin Hm HG Hloss [Hlen Hpix].
  pose proof Hw as Hshape.
  apply well_shaped_inv in Hw as (W0 & W1 & W2 & -> & L0 & L1 & L2).
  destruct (well_shaped_layers _ _ _ Hshape) as ([_ S0] & [_ S1] & [_ S2]).
  pose proof (all_finite_rows _ 0 W0 Hfin eq_refl) as F0.
  pose proof (all_finite_rows _ 1 W1 Hfin eq_refl) as F1.
  pose proof (all_finite_rows _ 2 W2 Hfin eq_refl) as F2.
  apply mirrors_inv in Hm as (G0 & G1 & G2 & HGeq & H0 & H1 & H2).
  set (target := oneHot (label image)).
  set (x := normalizePixels (pixels image)).
  assert (Hx : Forall is_finite x)
    by apply normalizePixels_is_finite, Hpix.
  assert (Lx : length x = 784)
    by (unfold x, normalizePixels; rewrite length_fmap; exact Hlen).
  set (z0 := forwardLayer x W0).
  assert (Hz0 : Forall is_finite z0)
    by (apply (forwardLayer_is_finite x W0 784); assumption).
  assert (Lz0 : length z0 = 16)
    by (unfold z0; rewrite length_forwardLayer; exact L0).
  set (a0 := relu <$> z0).
  assert (Ha0 : Forall is_finite a0) by apply relu_is_finite, Hz0.
  assert (La0 : length a0 = 16)
    by (unfold a0; rewrite length_fmap; exact Lz0).
  set (z1 := forwardLayer a0 W1).
  assert (Hz1 : Forall is_finite z1)
    by (apply (forwardLayer_is_finite a0 W1 16); assumption).
  assert (Lz1 : length z1 = 16)
    by (unfold z1; rewrite length_forwardLayer; exact L1).
  set (a1 := relu <$> z1).
  assert (Ha1 : Forall is_finite a1) by apply relu_is_finite, Hz1.
  assert (La1 : length a1 = 16)
    by (unfold a1; rewrite length_fmap; exact Lz1).
  set (z2 := forwardLayer a1 W2).
  assert (Hz2 : Forall is_finite z2)
    by (apply (forwardLayer_is_finite a1 W2 16); assumption).
  assert (Lz2 : length z2 = 10)
    by (unfold z2; rewrite length_forwardLayer; exact L2).
  assert (Hne : z2 <> []) by (intros E; rewrite E in Lz2; discriminate).
  destruct (softmax_probabilities z2 Hz2 Hne) as (ps & Hsoft & Lps & Hps).
  rewrite Lz2 in Lps.
  set (dz2 := outputDelta (finite_vector ps) target).
  assert (Hdz2 : Forall is_finite dz2).
  { apply outputDelta_is_finite. intros i Hi.
    destruct (oneHot_nonneg (label image) i ltac:(lia)) as (t & Ht & _).
    fold target in Ht. rewrite Ht. eexists. reflexivity. }
  assert (Ldz2 : length dz2 = 10).
  { unfold dz2, outputDelta. rewrite length_imap, length_finite_vector.
    exact Lps. }
  set (da1 := (fun j => sum_upto (length dz2)
                          (fun i => (get (mrow W2 i) j * get dz2 i)%js))
              <$> seq 0 (length a1)).
  assert (Hda1 : Forall is_finite da1)
    by (apply (backward_is_finite W2 dz2 16); auto; lia).
  assert (Lda1 : length da1 = 16)
    by (unfold da1; rewrite length_fmap, length_seq; exact La1).
  set (dz1 := reluDerivative da1 z1).
  assert (Hdz1 : Forall is_finite dz1)
    by apply reluDerivative_is_finite, Hda1.
  assert (Ldz1 : length dz1 = 16)
    by (unfold dz1, reluDerivative; rewrite length_imap; exact Lda1).
  set (da0 := (fun j => sum_upto (length dz1)
                          (fun i => (get (mrow W1 i) j * get dz1 i)%js))
              <$> seq 0 (length a0)).
  assert (Hda0 : Forall is_finite da0)
    by (apply (backward_is_finite W1 dz1 16); auto; lia).
  assert (Lda0 : length da0 = 16)
    by (unfold da0; rewrite length_fmap, length_seq; exact La0).
  set (dz0 := reluDerivative da0 z0).
  assert (Hdz0 : Forall is_finite dz0)
    by apply reluDerivative_is_finite, Hda0.
  assert (Ldz0 : length dz0 = 16)
    by (unfold dz0, reluDerivative; rewrite length_imap; exact Lda0).
  pose proof (processImage_closed W0 W1 W2 G0 G1 G2 image st
                (finite_vector ps) HGeq H0 H1 H2 Hsoft) as Hrun.
  cbv zeta in Hrun.
  exists {| gradients := [addOuter dz0 x G0; addOuter dz1 a0 G1;
                          addOuter dz2 a1 G2];
            lossSum := (lossSum st
                        + crossEntropyLoss (finite_vector ps) target)%js;
            correct := if same_label
                            (indexOf (finite_vector ps)
                                     (Num.max (finite_vector ps)))
                            (label image)
                       then S (correct st) else correct st |}.
  split; [exact Hrun|]. cbn [gradients lossSum].
  assert (Hm' : mirrors [W0; W1; W2]
                  [addOuter dz0 x G0; addOuter dz1 a0 G1;
                   addOuter dz2 a1 G2]).
  { unfold mirrors. repeat constructor; apply shape_addOuter; assumption. }
  split; [exact Hm'|]. split.
  - intros layer i j y Hy.
    destruct (mirrors_entry _ _ _ _ _ _ Hm' Hy) as [wv Hwv].
    destruct (entry_in_shape _ _ _ _ _ _ _ Hshape Hwv)
      as (rows & cols & Hrows & Hcols & Hi & Hj).
    destruct (entry_after_sample _ _ _ _ _ _ _ _ _ _ _ _ _ Hy)
      as (g & dz & a & Hg & Hdz & Ha & ->).
    apply is_finite_add.
    + apply (HG layer i j g). rewrite HGeq. exact Hg.
    + destruct layer as [|[|[|layer]]]; try discriminate;
        injection Hrows as <-; injection Hcols as <-;
        injection Hdz as <-; injection Ha as <-;
        apply is_finite_mul; apply is_finite_get; auto; lia.
  - destruct Hloss as (l & -> & Hl).
    destruct (crossEntropyLoss_nonneg ps target Hps) as (l' & -> & Hl').
    { intros i Hi. apply oneHot_nonneg. lia. }
    exists (l + l')%R. split; [reflexivity | lra].
Qed.

Lemma forEach_finite (w : weights) (images : list sample) (st : batch) :
  well_shaped w -> all_finite w ->
  Forall finite_sample images ->
  mirrors w (gradients st) -> all_finite (gradients st) ->
  finite_nonneg (lossSum st) ->
  exists st',
    forEach images (processImage w) st = Ok st'
    /\ mirrors w (gradients st') /\ all_finite (gradients st')
    /\ finite_nonneg (lossSum st').
Proof.
  intros Hw Hfin Himages. revert st.
  induction Himages as [|image images Himage _ IH];
    intros st Hm HG Hloss; simpl.
  - exists st. auto.
  - destruct (processImage_finite w image st Hw Hfin Hm HG Hloss Himage)
      as (st1 & E & Hm1 & HG1 & Hloss1).
    rewrite E, bind_Ok. apply IH; assumption.
Qed.

(** The samples of a batch that lies inside the image file. *)
Lemma readMNIST_finite_samples (fs : files) (images labels : list byte)
    (position : Z) :
  train_images fs = Some images ->
  train_labels fs = Some labels ->
  (0 <= position)%Z ->
  (7840 * (position + 1) + 16 <= Z.of_nat (length images))%Z ->
  Forall finite_sample (readMNIST fs (position * 10) (position * 10 + 10)).
Proof.
  intros Hi Hl Hp Hlen. destruct fs as [fi fl]. simpl in Hi, Hl.
  subst fi fl. apply Forall_lookup. intros k s Hs.
  destruct (readMNIST_sample images labels _ _ k s Hs)
    as (Hk & _ & _ & Hpixels).
  unfold finite_sample. rewrite Hpixels.
  rewrite (nested_loops_flat
             (fun x y =>
                (toNumber
                   (Num.of_nat <$> buffer_get images
                      ((position * 10 + Z.of_nat k) * 28 * 28
                       + (Z.of_nat x + Z.of_nat y * 28) + 16))
                 / Finite 255)%js) 28 28) by lia.
  split; [rewrite length_fmap, length_seq; reflexivity|].
  apply Forall_fmap, Forall_lookup. intros n j Hj.
  apply lookup_seq in Hj as [-> Hn]. unfold compose. cbv beta.
  rewrite Nat.add_0_l.
  pose proof (Nat.div_mod_eq n 28) as Hdiv.
  destruct (pixel_in_unit_interval images
              ((position * 10 + Z.of_nat k) * 28 * 28
               + (Z.of_nat (n mod 28) + Z.of_nat (n / 28) * 28) + 16))
    as (r & -> & _); [lia|].
  eexists. reflexivity.
Qed.

Lemma zeroGradients_all_finite : all_finite zeroGradients.
Proof.
  intros layer i j x Hx.
  apply entry_Some in Hx as (Wl & row & Hl & Hi & Hj).
  unfold zeroGradients in Hl.
  destruct layer as [|[|[|layer]]]; try discriminate; injection Hl as <-;
    rewrite createZeroMatrix_replicate in Hi;
    apply lookup_replicate in Hi as [-> _];
    apply lookup_replicate in Hj as [-> _];
    eexists; reflexivity.
Qed.

Lemma sgd_all_finite (w G : weights) (r : R) :
  mirrors w G -> all_finite w -> all_finite G -> r <> 0%R ->
  all_finite (sgd w G (Finite r)).
Proof.
  intros Hm Hw HG Hr layer i j x Hx. rewrite entry_sgd in Hx.
  apply fmap_Some in Hx as (y & Hy & ->).
  destruct (mirrors_entry G w layer i j y (mirrors_sym _ _ Hm) Hy)
    as [g Hg].
  rewrite (entry_wrow _ _ _ _ _ Hg).
  apply is_finite_sub; [apply (Hw _ _ _ _ Hy)|].
  apply is_finite_mul; [eexists; reflexivity|].
  apply is_finite_div; [apply (HG _ _ _ _ Hg) | exact Hr].
Qed.

(** X20.  On finite weights of the expected shapes, a batch of ten
    samples that lies inside the image file returns finite weights of the
    same shapes and a finite loss that is not negative, whatever the
    labels: with exact arithmetic, NaN and the infinities come from missing
    data only. *)
Theorem run_finite (fs : files) (images labels : list byte)
    (w : weights) (position : Z) :
  train_images fs = Some images ->
  train_labels fs = Some labels ->
  (0 <= position < 6000)%Z ->
  (7840 * (position + 1) + 16 <= Z.of_nat (length images))%Z ->
  well_shaped w -> all_finite w ->
  exists w' m,
    run fs w position = Ok (w', m)
    /\ well_shaped w' /\ all_finite w' /\ finite_nonneg (loss m).
Proof.
  intros Hi Hl Hp Hlen Hw Hfin.
  pose proof (length_readMNIST fs images labels position Hi Hl
                ltac:(lia)) as Hten.
  pose proof (readMNIST_finite_samples fs images labels position Hi Hl
                ltac:(lia) Hlen) as Hsamples.
  unfold run. fold zeroGradients.
  set (batch := readMNIST fs (position * 10) (position * 10 + 10)) in *.
  destruct (forEach_finite w batch
              {| gradients := zeroGradients; lossSum := Finite 0;
                 correct := 0 |} Hw Hfin Hsamples)
    as (st & Hst & Hm & HG & (l & Hl' & Hl0)).
  { apply well_shaped_mirrors, Hw. }
  { apply zeroGradients_all_finite. }
  { exists 0%R. split; [reflexivity | lra]. }
  assert (H3 : length w = 3)
    by (apply well_shaped_inv in Hw as (W0 & W1 & W2 & -> & _);
        reflexivity).
  rewrite Hst, bind_Ok, updateWeights_closed, bind_Ok by assumption.
  rewrite Hten. eexists _, _. split; [reflexivity|].
  assert (H10 : INR 10 <> 0%R) by (apply not_0_INR; lia).
  split; [|split].
  - apply well_shaped_mirrors.
    eapply mirrors_trans; [apply mirrors_sym, mirrors_sgd|].
    apply well_shaped_mirrors, Hw.
  - apply sgd_all_finite; assumption.
  - cbn [loss]. rewrite Hl'. unfold Num.of_nat, Num.div.
    rewrite Reqb_false by exact H10.
    exists (l / INR 10)%R. split; [reflexivity|].
    apply Rmult_le_pos; [exact Hl0|].
    apply Rlt_le, Rinv_0_lt_compat.
    apply (lt_INR 0 10). lia.
Qed.

Lemma run_finite_witness :
  exists w' m,
    run {| train_images := Some (replicate (16 + 784 * 10) Byte.x00);
           train_labels := Some [] |} zeroGradients 0 = Ok (w', m)
    /\ well_shaped w' /\ all_finite w' /\ finite_nonneg (loss m).
Proof.
  apply (run_finite _ (replicate (16 + 784 * 10) Byte.x00) []).
  - reflexivity.
  - reflexivity.
  - lia.
  - rewrite length_replicate. lia.
  - apply well_shaped_zero.
  - apply zeroGradients_all_finite.
Defined.
